(** * ExternalCardDAVWorker: one-way CardDAV reconciliation

    A shallow embedding of [MailSync/ExternalCardDAVWorker.cpp].  The worker
    pulls one remote address book into the local [Contact] table:

    - [performXMLRequest] builds the authenticated request (URL coercion,
      headers) and hands it to the transport;
    - [runForAddressBook] lists the remote etags, diffs them against the
      etags of the local rows, fetches the missing cards in chunks of 90 and
      applies deletions and upserts, one store transaction per chunk;
    - [ingestAddressDataNode] turns one multiget response item into zero or
      more [Contact] rows, one per e-mail address;
    - [run] wraps everything in the top-level try/catch.

    C++ exceptions are values of [string + A] ([inl] carries [e.what()]); the
    store is passed explicitly; everything the worker does to the outside
    world is recorded in a trace of [Event]s. *)

From Stdlib Require Import String Ascii DecimalString.
From Stdlib Require DecimalNat.
From stdpp Require Import base option list sorting gmap sets strings.

Local Open Scope string_scope.
Local Open Scope nat_scope.
Local Open Scope list_scope.

(** ** Strings *)

Module Str.

(** [std::string::find(needle)] from position 0; [None] is [npos]. *)
Definition find (needle hay : string) : option nat := String.index 0 needle hay.

(** [std::to_string] on a [size_t]. *)
Definition to_string (n : nat) : string := NilEmpty.string_of_uint (Nat.to_uint n).

(** The decimal text spdlog prints for an [int]. *)
Definition of_int (z : Z) : string := NilEmpty.string_of_int (Z.to_int z).

Definition empty (s : string) : bool := bool_decide (s = EmptyString).

End Str.

(** ** Data model *)

Definition ETAG := string.

Definition EXTERNAL_CARDDAV_SOURCE : string := "external-carddav".

(** The JSON object stored in the [info] column: [vcf] and [href] are always
    present, [photo] only when the card has a non-empty one. *)
Record Info := mkInfo {
  info_vcf : string;
  info_href : string;
  info_photo : option string
}.

Record Contact := mkContact {
  c_id : string;
  c_accountId : string;
  c_bookId : string;
  c_email : string;
  c_name : string;
  c_info : option Info;
  c_etag : ETAG;
  c_hidden : bool;
  c_refs : Z;
  c_source : string
}.

Record ContactBook := mkContactBook {
  b_id : string;
  b_accountId : string;
  b_source : string;
  b_url : string;
  b_ctag : string
}.

Global Instance Info_eq_dec : EqDecision Info.
Proof. solve_decision. Defined.
Global Instance Contact_eq_dec : EqDecision Contact.
Proof. solve_decision. Defined.
Global Instance ContactBook_eq_dec : EqDecision ContactBook.
Proof. solve_decision. Defined.

(** What the vCard collaborator exposes of a parsed card.  A property that
    is absent reads as the empty string; only the photo is tested for
    presence by the worker. *)
Record VCard := mkVCard {
  vc_incomplete : bool;
  vc_emails : list string;
  vc_uid : string;
  vc_fn : string;
  vc_n : string;
  vc_photo : option string
}.

(** One [D:response] element of a multistatus document, with the three
    values the worker reads out of it by XPath (empty when absent). *)
Record ResponseNode := mkNode {
  n_etag : string;
  n_href : string;
  n_address_data : string
}.

Record DavXML := mkDavXML {
  dx_ctag : string;
  dx_responses : list ResponseNode
}.

(** The request handed to the transport by [performXMLRequest]. *)
Record Request := mkRequest {
  rq_url : string;
  rq_method : string;
  rq_headers : list string;
  rq_payload : string
}.

Global Instance Request_eq_dec : EqDecision Request.
Proof. solve_decision. Defined.

(** The two tables of the local store the worker touches, keyed by their
    primary key [id]. *)
Record Store := mkStore {
  contacts : gmap string Contact;
  books : gmap string ContactBook
}.

Inductive LogLevel := Info_ | Warn | Error.

Inductive Event :=
| EvRequest (rq : Request)
| EvLog (lvl : LogLevel) (msg : string)
| EvBegin
| EvCommit
| EvRollback
| EvDelete (bookId : string) (etag : ETAG)
| EvSave (c : Contact)
| EvSaveBook (b : ContactBook).

Global Instance LogLevel_eq_dec : EqDecision LogLevel.
Proof. solve_decision. Defined.
Global Instance Event_eq_dec : EqDecision Event.
Proof. solve_decision. Defined.

Abbreviation Trace := (list Event).

Record ExternalCardDAVSyncResult := mkResult {
  r_sourceId : string;
  r_sourceName : string;
  r_contactCount : Z;
  r_success : bool;
  r_error : string
}.

(** [contactCount] is a C++ [int]: [remote.size()] is narrowed to 32 bits,
    two's complement. *)
Definition int_of_size (n : nat) : Z :=
  ((Z.of_nat n + 2 ^ 31) `mod` 2 ^ 32 - 2 ^ 31)%Z.

(** C++ exceptions: [inl msg] is a thrown [std::exception] whose [what()]
    is [msg], [inr a] a normal return. *)
Definition Exn (A : Type) : Type := (string + A)%type.

Definition is_thrown {A} (r : Exn A) : bool :=
  match r with inl _ => true | inr _ => false end.

(** ** String helpers of the worker *)

(** [s.c_str()] read back as a C string: everything before the first NUL. *)
Fixpoint c_str (s : string) : string :=
  match s with
  | EmptyString => EmptyString
  | String c rest => if bool_decide (c = "000"%char) then EmptyString else String c (c_str rest)
  end.

(** [_url.find("http") != 0 ? "https://" + _url : _url] *)
Definition request_url (_url : string) : string :=
  if bool_decide (Str.find "http" _url ≠ Some 0%nat) then "https://" +:+ _url else _url.

(** ** [std::map] iteration

    [std::map<string, V>] is iterated in ascending key order, keys compared
    byte-wise.  The map itself is a [gmap]; [entries] lists it in that
    order. *)
Definition key_le {V} (p q : string * V) : Prop := String.leb p.1 q.1 = true.

Global Instance key_le_dec {V} : RelDecision (@key_le V).
Proof. intros p q. unfold key_le. solve_decision. Defined.

Definition entries {V} (m : gmap string V) : list (string * V) :=
  merge_sort key_le (map_to_list m).

(** ** The change-token diff (runForAddressBook, "Identify new and deleted
    contacts") *)

Definition needed_step (local : gmap ETAG bool) (needed : list string)
    (pair : ETAG * string) : list string :=
  if bool_decide (is_Some (local !! pair.1)) then needed else needed ++ [pair.2].

Definition deleted_step (remote : gmap ETAG string) (deleted : list ETAG)
    (pair : ETAG * bool) : list ETAG :=
  if bool_decide (is_Some (remote !! pair.1)) then deleted else deleted ++ [pair.1].

Definition compute_needed (remote : gmap ETAG string) (local : gmap ETAG bool) : list string :=
  foldl (needed_step local) [] (entries remote).

Definition compute_deleted (remote : gmap ETAG string) (local : gmap ETAG bool) : list ETAG :=
  foldl (deleted_step remote) [] (entries local).

(** The remote entries that feed [needed], kept with their etag: the
    same loop, remembering the key next to the pushed value. *)
Definition needed_entries (remote : gmap ETAG string) (local : gmap ETAG bool)
    : list (ETAG * string) :=
  foldl (λ acc pair, if bool_decide (is_Some (local !! pair.1)) then acc else acc ++ [pair])
        [] (entries remote).

(** Modelled from the spec: [MailUtils::chunksOfVector] lives in
    MailUtils.hpp, outside this unit.  The spec has it group the list into
    consecutive fixed-size batches, the last one possibly smaller.  The
    recursion is driven by a counter that starts at the length of the list,
    which is enough for any positive chunk size. *)
Fixpoint chunks_fuel {A} (fuel : nat) (v : list A) (chunkSize : nat) : list (list A) :=
  match fuel with
  | O => []
  | S fuel' =>
      match v with
      | [] => []
      | _ => take chunkSize v :: chunks_fuel fuel' (drop chunkSize v) chunkSize
      end
  end.

Definition chunksOfVector {A} (v : list A) (chunkSize : nat) : list (list A) :=
  chunks_fuel (length v) v chunkSize.

(** ** The local store *)

(** Modelled from the spec: [MailStore::find<Contact>(Query().equal("id", id))],
    a point query on the primary key. *)
Definition find_contact (st : Store) (id : string) : option Contact := contacts st !! id.

(** Modelled from the spec: [MailStore::save] upserts the row under its id. *)
Definition save_contact (st : Store) (c : Contact) : Store :=
  mkStore (<[c_id c := c]> (contacts st)) (books st).

Definition find_book (st : Store) (id : string) : option ContactBook := books st !! id.

Definition save_book (st : Store) (b : ContactBook) : Store :=
  mkStore (contacts st) (<[b_id b := b]> (books st)).

(** [DELETE FROM Contact WHERE bookId = ? AND etag = ?] *)
Definition delete_stmt (bookId : string) (etag : ETAG) (st : Store) : Store :=
  mkStore (filter (λ kv, ¬ (c_bookId kv.2 = bookId ∧ c_etag kv.2 = etag)) (contacts st))
          (books st).

(** The statement executed for each etag of a list, in order. *)
Definition delete_all (bookId : string) (deleted : list ETAG) (st : Store) : Store :=
  foldl (λ s etag, delete_stmt bookId etag s) st deleted.

(** A series of saves, in order. *)
Definition save_list (st : Store) (cs : list Contact) : Store := foldl save_contact st cs.

(** ** Predicates of the statements *)

(** The primary key of a row is the id the row carries. *)
Definition store_wf (st : Store) : Prop :=
  ∀ id c, contacts st !! id = Some c → c_id c = id.

(** Conditions on the rows [saved] by a run under which it converges.
    The fetch is faithful: every saved row carries an etag of the remote
    listing, and every listed etag missing locally is carried by some saved
    row. *)
Definition fetch_faithful (remote : gmap ETAG string) (local : gmap ETAG bool)
    (saved : list Contact) : Prop :=
  (∀ c, c ∈ saved → c_etag c ∈ dom remote)
  ∧ (∀ e, e ∈ dom remote → e ∉ dom local → ∃ c, c ∈ saved ∧ c_etag c = e).

(** No save replaces a row carrying another listed etag: neither a row saved
    earlier in the run nor a row of the book that the run keeps. *)
Definition no_clobber (st : Store) (bookId : string) (remote : gmap ETAG string)
    (saved : list Contact) : Prop :=
  (∀ c c', c ∈ saved → c' ∈ saved → c_id c = c_id c' → c_etag c = c_etag c')
  ∧ (∀ c c0, c ∈ saved → contacts st !! c_id c = Some c0 →
             c_bookId c0 = bookId → c_etag c0 ∈ dom remote → c_etag c0 = c_etag c).

(** ** The local etags *)

(** The rows of [SELECT etag FROM Contact WHERE bookId = ?] and the map
    [local] they are folded into, when the statement runs through; the
    worker's [findEtags], further down, is the statement with its failure. *)
Definition select_etags (st : Store) (bookId : string) : list ETAG :=
  c_etag <$> filter (λ c, c_bookId c = bookId) (map_to_list (contacts st)).*2.

Definition local_etags (st : Store) (bookId : string) : gmap ETAG bool :=
  foldl (λ local e, <[e := true]> local) ∅ (select_etags st bookId).

(** ** Record setters *)

Definition setBookId (c : Contact) (v : string) : Contact :=
  mkContact (c_id c) (c_accountId c) v (c_email c) (c_name c) (c_info c)
            (c_etag c) (c_hidden c) (c_refs c) (c_source c).
Definition setHidden (c : Contact) (v : bool) : Contact :=
  mkContact (c_id c) (c_accountId c) (c_bookId c) (c_email c) (c_name c) (c_info c)
            (c_etag c) v (c_refs c) (c_source c).
Definition setInfo (c : Contact) (v : Info) : Contact :=
  mkContact (c_id c) (c_accountId c) (c_bookId c) (c_email c) (c_name c) (Some v)
            (c_etag c) (c_hidden c) (c_refs c) (c_source c).
Definition setName (c : Contact) (v : string) : Contact :=
  mkContact (c_id c) (c_accountId c) (c_bookId c) (c_email c) v (c_info c)
            (c_etag c) (c_hidden c) (c_refs c) (c_source c).
Definition setEmail (c : Contact) (v : string) : Contact :=
  mkContact (c_id c) (c_accountId c) (c_bookId c) v (c_name c) (c_info c)
            (c_etag c) (c_hidden c) (c_refs c) (c_source c).
Definition setEtag (c : Contact) (v : ETAG) : Contact :=
  mkContact (c_id c) (c_accountId c) (c_bookId c) (c_email c) (c_name c) (c_info c)
            v (c_hidden c) (c_refs c) (c_source c).

Definition setSource (b : ContactBook) (v : string) : ContactBook :=
  mkContactBook (b_id b) (b_accountId b) v (b_url b) (b_ctag b).
Definition setURL (b : ContactBook) (v : string) : ContactBook :=
  mkContactBook (b_id b) (b_accountId b) (b_source b) v (b_ctag b).
Definition setCtag (b : ContactBook) (v : string) : ContactBook :=
  mkContactBook (b_id b) (b_accountId b) (b_source b) (b_url b) v.

(** Modelled from the spec: the [Contact] constructor of Contact.hpp, called
    as [Contact(id, accountId, email, refs, source)].  A fresh row has no
    book, name, info or etag yet and is not hidden. *)
Definition new_Contact (id accountId email : string) (refs : Z) (source : string) : Contact :=
  mkContact id accountId EmptyString email EmptyString None EmptyString false refs source.

(** [make_shared<ContactBook>(bookId, accountId)] *)
Definition new_ContactBook (id accountId : string) : ContactBook :=
  mkContactBook id accountId EmptyString EmptyString EmptyString.

(** ** Request bodies *)

(** The double-quote character of the XML attribute values. *)
Definition dq : string := String "034"%char EmptyString.

Definition PROPFIND_BODY : string :=
  "<?xml version=" +:+ dq +:+ "1.0" +:+ dq +:+ " encoding=" +:+ dq +:+ "UTF-8" +:+ dq +:+ "?>" +:+
  "<d:propfind xmlns:d=" +:+ dq +:+ "DAV:" +:+ dq +:+
  " xmlns:cs=" +:+ dq +:+ "http://calendarserver.org/ns/" +:+ dq +:+ ">" +:+
  "<d:prop><cs:getctag/><d:displayname/></d:prop>" +:+
  "</d:propfind>".

Definition QUERY_BODY : string :=
  "<c:addressbook-query xmlns:d=" +:+ dq +:+ "DAV:" +:+ dq +:+
  " xmlns:c=" +:+ dq +:+ "urn:ietf:params:xml:ns:carddav" +:+ dq +:+ ">" +:+
  "<d:prop><d:getetag /></d:prop>" +:+
  "</c:addressbook-query>".

Definition MULTIGET_OPEN : string :=
  "<c:addressbook-multiget xmlns:d=" +:+ dq +:+ "DAV:" +:+ dq +:+
  " xmlns:c=" +:+ dq +:+ "urn:ietf:params:xml:ns:carddav" +:+ dq +:+ ">" +:+
  "<d:prop><d:getetag /><c:address-data /></d:prop>".

Definition MULTIGET_CLOSE : string := "</c:addressbook-multiget>".

(** [for (auto & href : chunk) payload += "<d:href>" + href + "</d:href>"] *)
Definition hrefs_payload (chunk : list string) : string :=
  foldl (λ payload href, payload +:+ ("<d:href>" +:+ href +:+ "</d:href>")) EmptyString chunk.

Definition multiget_body (chunk : list string) : string :=
  MULTIGET_OPEN +:+ hrefs_payload chunk +:+ MULTIGET_CLOSE.

(** ** Trace projections *)

(** Events of the visitor: rows saved and lines logged. *)
Definition row_event (ev : Event) : Prop :=
  match ev with EvSave _ | EvLog _ _ => True | _ => False end.

Definition delete_count (tr : Trace) (bookId : string) (etag : ETAG) : nat :=
  length (filter (λ ev, ev = EvDelete bookId etag) tr).

Fixpoint requests_of (tr : Trace) : list Request :=
  match tr with
  | [] => []
  | EvRequest rq :: tr' => rq :: requests_of tr'
  | _ :: tr' => requests_of tr'
  end.

Fixpoint deletes_of (tr : Trace) : list (string * ETAG) :=
  match tr with
  | [] => []
  | EvDelete b e :: tr' => (b, e) :: deletes_of tr'
  | _ :: tr' => deletes_of tr'
  end.

Fixpoint saves_of (tr : Trace) : list Contact :=
  match tr with
  | [] => []
  | EvSave c :: tr' => c :: saves_of tr'
  | _ :: tr' => saves_of tr'
  end.

(** ** The worker *)

Record Config := mkConfig {
  sourceId : string;
  sourceName : string;
  sourceUrl : string;
  sourceUsername : string;
  sourcePassword : string;
  accountId : string   (* account->id() *)
}.

Record Ingested := mkIngested {
  ing_rows : list Contact;
  ing_isGroup : bool;    (* the [bool & isGroup] out-parameter on return *)
  ing_log : Trace
}.

(** One worker: its configuration and the collaborators it calls, which
    live outside this unit: base64, the transport with its XML parser, the
    vCard parser, the group-card test of DAVUtils, the reference count given
    to new rows, and the store's refusals.  Every call into the store can
    throw; a refusal is [Some what], with [what] the message of the
    exception:
    - [save_fault], [save_book_fault]: [MailStore::save] of a row, of the
      book;
    - [find_fault], [find_book_fault]: [MailStore::find] by id, of a row,
      of the book;
    - [select_fault]: the [SELECT etag FROM Contact WHERE bookId = ?] of a
      book;
    - [delete_fault]: one [exec] of the prepared [DELETE] for a book and
      an etag;
    - [begin_fault], [commit_fault]: opening a [MailStoreTransaction] on a
      store, and committing one that leaves the store as given. *)
Class Worker := {
  cfg : Config;
  toBase64 : string → string;
  PerformRequest : Request → Exn DavXML;
  parseVCard : string → VCard;
  isGroupCard : VCard → bool;
  CONTACT_MAX_REFS : Z;
  save_fault : Contact → option string;
  save_book_fault : ContactBook → option string;
  find_fault : string → option string;
  find_book_fault : string → option string;
  select_fault : string → option string;
  delete_fault : string → ETAG → option string;
  begin_fault : Store → option string;
  commit_fault : Store → option string
}.

Section WorkerCode.

Context {W : Worker}.

Definition getAuthorizationHeader : string :=
  let plain := sourceUsername cfg +:+ ":" +:+ sourcePassword cfg in
  let encoded := toBase64 (c_str plain) in
  "Authorization: Basic " +:+ encoded.

Definition build_request (_url method payload depth : string) : Request :=
  let url := request_url _url in
  let headers :=
    [c_str getAuthorizationHeader;
     "Prefer: return-minimal";
     "Content-Type: application/xml; charset=utf-8"]
    ++ (if bool_decide (Str.find "urn:ietf:params:xml:ns:carddav" payload ≠ None)
        then ["Accept: text/vcard; version=4.0"] else [])
    ++ [c_str ("Depth: " +:+ depth)] in
  mkRequest (c_str url) (c_str method) headers (c_str payload).

Definition performXMLRequest (_url method payload depth : string) : Trace * Exn DavXML :=
  let rq := build_request _url method payload depth in
  ([EvRequest rq], PerformRequest rq).

(** The two REPORT requests of [runForAddressBook] as they reach the
    transport. *)
Definition query_request (ab : ContactBook) : Request :=
  build_request (b_url ab) "REPORT" QUERY_BODY "1".

Definition multiget_request (ab : ContactBook) (chunk : list string) : Request :=
  build_request (b_url ab) "REPORT" (multiget_body chunk) "1".

(** *** ingestAddressDataNode *)

(** [string id = (i == 0) ? baseId : baseId + "-" + to_string(i)] *)
Definition row_id (baseId : string) (i : nat) : string :=
  if bool_decide (i = 0) then baseId else baseId +:+ "-" +:+ Str.to_string i.

(** Find the row under [id] or make a fresh one, then overwrite info,
    name, email and etag. *)
Definition upsert_row (st : Store) (id : string) (info : Info) (name email : string)
    (etag : ETAG) : Contact :=
  let contact :=
    match find_contact st id with
    | Some found => found
    | None => new_Contact id (accountId cfg) email CONTACT_MAX_REFS EXTERNAL_CARDDAV_SOURCE
    end in
  let contact := setInfo contact info in
  let contact := setName contact name in
  let contact := setEmail contact email in
  setEtag contact etag.

(** The loop over [emails], from index [i] on. *)
Fixpoint fan_out (st : Store) (baseId : string) (info : Info) (name : string)
    (etag : ETAG) (i : nat) (emails : list string) : list Contact :=
  match emails with
  | [] => []
  | email :: rest =>
      if Str.empty email then fan_out st baseId info name etag (S i) rest
      else upsert_row st (row_id baseId i) info name email etag
           :: fan_out st baseId info name etag (S i) rest
  end.

Definition base_id (uid href : string) : string :=
  "ext-" +:+ sourceId cfg +:+ "-" +:+ (if Str.empty uid then href else uid).

Definition display_name (vcard : VCard) : string :=
  if bool_decide (vc_fn vcard = EmptyString) then vc_n vcard else vc_fn vcard.

Definition build_info (vcardString href : string) (vcard : VCard) : Info :=
  mkInfo vcardString href
         (match vc_photo vcard with
          | Some photoValue => if Str.empty photoValue then None else Some photoValue
          | None => None
          end).

Definition ingestAddressDataNode (st : Store) (node : ResponseNode) (isGroup : bool)
    : Ingested :=
  let etag := n_etag node in
  let href := n_href node in
  let vcardString := n_address_data node in
  if bool_decide (vcardString = EmptyString) then
    mkIngested [] isGroup
      [EvLog Info_ ("Received addressbook entry " +:+ etag +:+ " with an empty body")]
  else
    let vcard := parseVCard vcardString in
    if vc_incomplete vcard then
      mkIngested [] isGroup [EvLog Info_ ("Unable to decode vcard: " +:+ vcardString)]
    else
      let emails := vc_emails vcard in
      if bool_decide (emails = []) then mkIngested [] isGroup []
      else
        let baseId := base_id (vc_uid vcard) href in
        let name := display_name vcard in
        let info := build_info vcardString href vcard in
        mkIngested (fan_out st baseId info name etag 0 emails) (isGroupCard vcard) [].

(** [ingestAddressDataNode] above is what the function returns.  It throws
    when a [store->find<Contact>] of its loop throws: the loop over
    [emails] once more, for the lookups alone, with the message of the
    first one that throws.  The three early returns look nothing up. *)
Fixpoint fan_out_thrown (baseId : string) (i : nat) (emails : list string)
    : option string :=
  match emails with
  | [] => None
  | email :: rest =>
      if Str.empty email then fan_out_thrown baseId (S i) rest
      else match find_fault (row_id baseId i) with
           | Some what => Some what
           | None => fan_out_thrown baseId (S i) rest
           end
  end.

Definition ingest_thrown (node : ResponseNode) : option string :=
  let vcardString := n_address_data node in
  if bool_decide (vcardString = EmptyString) then None
  else
    let vcard := parseVCard vcardString in
    if vc_incomplete vcard then None
    else fan_out_thrown (base_id (vc_uid vcard) (n_href node)) 0 (vc_emails vcard).

(** *** runForAddressBook *)

(** [remote[string(etag.c_str())] = string(href.c_str())] for every
    [D:response] of the listing, in document order. *)
Definition remote_of (etagsDoc : DavXML) : gmap ETAG string :=
  foldl (λ remote node, <[c_str (n_etag node) := c_str (n_href node)]> remote)
        ∅ (dx_responses etagsDoc).

(** [SELECT etag FROM Contact WHERE bookId = ?] as the worker runs it: the
    statement throws, or [local] is built from its rows. *)
Definition findEtags (st : Store) (bookId : string) : Exn (gmap ETAG bool) :=
  match select_fault bookId with
  | Some what => inl what
  | None => inr (local_etags st bookId)
  end.

(** The prepared [DELETE] statement run once per stale etag, in order.  An
    [exec] that throws ends the loop: the statements before it have been
    executed, the one that throws and those after it have not.  The third
    component is the message of the exception, if any. *)
Fixpoint run_deletes (bookId : string) (deleted : list ETAG) (st : Store)
    : Trace * Store * option string :=
  match deleted with
  | [] => ([], st, None)
  | etag :: rest =>
      match delete_fault bookId etag with
      | Some what => ([], st, Some what)
      | None =>
          let '(tr, st', r) := run_deletes bookId rest (delete_stmt bookId etag st) in
          (EvDelete bookId etag :: tr, st', r)
      end
  end.

(** [if (deleted.size()) { ... }] *)
Definition delete_pass (bookId : string) (deleted : list ETAG) (st : Store)
    : Trace * Store * option string :=
  match deleted with
  | [] => ([], st, None)
  | _ => run_deletes bookId deleted st
  end.

(** The etags whose statement a pass over [deleted] executes, and the
    message of the [exec] that stops it, if one does. *)
Fixpoint deletes_done (bookId : string) (deleted : list ETAG) : list ETAG :=
  match deleted with
  | [] => []
  | etag :: rest =>
      match delete_fault bookId etag with
      | Some _ => []
      | None => etag :: deletes_done bookId rest
      end
  end.

Fixpoint delete_thrown (bookId : string) (deleted : list ETAG) : option string :=
  match deleted with
  | [] => None
  | etag :: rest =>
      match delete_fault bookId etag with
      | Some what => Some what
      | None => delete_thrown bookId rest
      end
  end.

(** What the visitor does to a row before saving it. *)
Definition prepare (bookId : string) (isGroup : bool) (contact : Contact) : Contact :=
  let contact := setBookId contact bookId in
  if isGroup then setHidden contact true else contact.

(** [for (auto& contact : contacts) { setBookId; if (isGroup) setHidden(true); save }] *)
Fixpoint save_all (bookId : string) (isGroup : bool) (cs : list Contact) (st : Store)
    : Trace * Exn Store :=
  match cs with
  | [] => ([], inr st)
  | contact :: rest =>
      let contact := prepare bookId isGroup contact in
      match save_fault contact with
      | Some msg => ([], inl msg)
      | None =>
          let '(tr, r) := save_all bookId isGroup rest (save_contact st contact) in
          (EvSave contact :: tr, r)
      end
  end.

(** The visitor applied to one [D:response] of a multiget answer. *)
Definition visit_node (bookId : string) (node : ResponseNode) (st : Store)
    : Trace * Exn Store :=
  match ingest_thrown node with
  | Some what => ([], inl what)
  | None =>
      let ing := ingestAddressDataNode st node false in
      let '(tr, r) := save_all bookId (ing_isGroup ing) (ing_rows ing) st in
      (ing_log ing ++ tr, r)
  end.

(** [abDoc->evaluateXPath("//D:response", visitor)], in document order. *)
Fixpoint visit_nodes (bookId : string) (nodes : list ResponseNode) (st : Store)
    : Trace * Exn Store :=
  match nodes with
  | [] => ([], inr st)
  | node :: rest =>
      let '(tr1, r1) := visit_node bookId node st in
      match r1 with
      | inl msg => (tr1, inl msg)
      | inr st1 =>
          let '(tr2, r2) := visit_nodes bookId rest st1 in
          (tr1 ++ tr2, r2)
      end
  end.

(** The body of the chunk loop once the answer is there: one
    [MailStoreTransaction], from its constructor to [commit].  Modelled
    from the spec: [MailStoreTransaction] is declared outside this unit;
    the spec has a transaction that fails partway persist no row of its
    batch, so a transaction left by an exception (of a [DELETE], of the
    visitor, or of [commit] itself) is rolled back and returns no store.  A
    constructor that throws has opened nothing. *)
Definition apply_batch (ab : ContactBook) (deleted : list ETAG) (abDoc : DavXML)
    (st : Store) : Trace * Exn Store :=
  match begin_fault st with
  | Some what => ([], inl what)
  | None =>
      let '(tr_del, st1, r1) := delete_pass (b_id ab) deleted st in
      match r1 with
      | Some what => ([EvBegin] ++ tr_del ++ [EvRollback], inl what)
      | None =>
          let '(tr_nodes, r2) := visit_nodes (b_id ab) (dx_responses abDoc) st1 in
          match r2 with
          | inl what => ([EvBegin] ++ tr_del ++ tr_nodes ++ [EvRollback], inl what)
          | inr st2 =>
              match commit_fault st2 with
              | Some what => ([EvBegin] ++ tr_del ++ tr_nodes ++ [EvRollback], inl what)
              | None => ([EvBegin] ++ tr_del ++ tr_nodes ++ [EvCommit], inr st2)
              end
          end
      end
  end.

(** The loop over the chunks of [needed].  [deleted] is the vector as it
    stands when the chunk is entered.  A chunk that throws leaves the store
    as the last commit left it. *)
Fixpoint batch_loop (ab : ContactBook) (chunks : list (list string))
    (deleted : list ETAG) (st : Store) : Trace * Store * Exn (list ETAG) :=
  match chunks with
  | [] => ([], st, inr deleted)
  | chunk :: rest =>
      let '(tr_rq, r) := performXMLRequest (b_url ab) "REPORT" (multiget_body chunk) "1" in
      match r with
      | inl msg => (tr_rq, st, inl msg)
      | inr abDoc =>
          let '(tr_tx, r_tx) := apply_batch ab deleted abDoc st in
          match r_tx with
          | inl msg => (tr_rq ++ tr_tx, st, inl msg)
          | inr st2 =>
              let '(tr, st3, r3) := batch_loop ab rest [] st2 in
              (tr_rq ++ tr_tx ++ tr, st3, r3)
          end
      end
  end.

Definition counts_message (remote : gmap ETAG string) (local : gmap ETAG bool)
    (needed : list string) (deleted : list ETAG) : string :=
  "External CardDAV " +:+ sourceName cfg +:+
  " - remote: " +:+ Str.to_string (size remote) +:+
  ", local: " +:+ Str.to_string (size local) +:+
  ", needed: " +:+ Str.to_string (length needed) +:+
  ", deleted: " +:+ Str.to_string (length deleted).

Definition runForAddressBook (ab : ContactBook) (st : Store) : Trace * Store * Exn Z :=
  let '(tr0, r0) := performXMLRequest (b_url ab) "REPORT" QUERY_BODY "1" in
  match r0 with
  | inl msg => (tr0, st, inl msg)
  | inr etagsDoc =>
      let remote := remote_of etagsDoc in
      match findEtags st (b_id ab) with
      | inl msg => (tr0, st, inl msg)
      | inr local =>
          let needed := compute_needed remote local in
          let deleted := compute_deleted remote local in
          let tr_log := [EvLog Info_ (counts_message remote local needed deleted)] in
          let '(tr1, st1, r1) := batch_loop ab (chunksOfVector needed 90) deleted st in
          match r1 with
          | inl msg => (tr0 ++ tr_log ++ tr1, st1, inl msg)
          | inr deleted' =>
              let '(tr2, st2, r2) := delete_pass (b_id ab) deleted' st1 in
              match r2 with
              | Some msg => (tr0 ++ tr_log ++ tr1 ++ tr2, st2, inl msg)
              | None => (tr0 ++ tr_log ++ tr1 ++ tr2, st2, inr (int_of_size (size remote)))
              end
          end
      end
  end.

(** *** resolveAddressBook *)

Definition resolveAddressBook (st : Store) : Trace * Store * Exn (option ContactBook) :=
  let bookId := "external-" +:+ sourceId cfg in
  match find_book_fault bookId with
  | Some msg => ([], st, inl msg)
  | None =>
      let existing :=
        match find_book st bookId with
        | Some b => b
        | None => new_ContactBook bookId (accountId cfg)
        end in
      let existing := setSource existing EXTERNAL_CARDDAV_SOURCE in
      let existing := setURL existing (sourceUrl cfg) in
      let '(tr_rq, r) := performXMLRequest (sourceUrl cfg) "PROPFIND" PROPFIND_BODY "0" in
      let '(existing, tr_log) :=
        match r with
        | inr doc =>
            (if bool_decide (dx_ctag doc ≠ EmptyString) then setCtag existing (dx_ctag doc)
             else existing, [])
        | inl what =>
            (existing,
             [EvLog Warn ("Could not fetch ctag for external source " +:+ sourceName cfg
                          +:+ ": " +:+ what)])
        end in
      match save_book_fault existing with
      | Some msg => (tr_rq ++ tr_log, st, inl msg)
      | None => (tr_rq ++ tr_log ++ [EvSaveBook existing], save_book st existing,
                 inr (Some existing))
      end
  end.

(** *** run *)

Definition run (st : Store) : Trace * Store * ExternalCardDAVSyncResult :=
  let result error success count :=
    mkResult (sourceId cfg) (sourceName cfg) count success error in
  let tr_start :=
    [EvLog Info_ ("Starting external CardDAV sync for: " +:+ sourceName cfg
                  +:+ " (" +:+ sourceUrl cfg +:+ ")")] in
  let failed what :=
    EvLog Error ("External CardDAV sync failed for " +:+ sourceName cfg
                 +:+ ": " +:+ what) in
  match resolveAddressBook st with
  | (tr1, st1, inl what) =>
      (tr_start ++ tr1 ++ [failed what], st1, result what false 0%Z)
  | (tr1, st1, inr None) =>
      (tr_start ++ tr1 ++
       [EvLog Warn ("Could not resolve address book for external source: "
                    +:+ sourceName cfg)],
       st1, result "Could not resolve address book" false 0%Z)
  | (tr1, st1, inr (Some ab)) =>
      match runForAddressBook ab st1 with
      | (tr2, st2, inl what) =>
          (tr_start ++ tr1 ++ tr2 ++ [failed what], st2, result what false 0%Z)
      | (tr2, st2, inr count) =>
          (tr_start ++ tr1 ++ tr2 ++
           [EvLog Info_ ("External CardDAV sync completed for: " +:+ sourceName cfg
                       +:+ " (" +:+ Str.of_int count +:+ " contacts)")],
           st2, result EmptyString true count)
      end
  end.

(** *** What resolveAddressBook starts from *)

(** The PROPFIND of [resolveAddressBook] as it reaches the transport. *)
Definition propfind_request : Request :=
  build_request (sourceUrl cfg) "PROPFIND" PROPFIND_BODY "0".

(** The book as [resolveAddressBook] finds or makes it, before the setters. *)
Definition book_before (st : Store) : ContactBook :=
  match find_book st ("external-" +:+ sourceId cfg) with
  | Some b => b
  | None => new_ContactBook ("external-" +:+ sourceId cfg) (accountId cfg)
  end.

(** The book as [resolveAddressBook] hands it to [store->save]. *)
Definition book_resolved (st : Store) : ContactBook :=
  let existing :=
    setURL (setSource (book_before st) EXTERNAL_CARDDAV_SOURCE) (sourceUrl cfg) in
  match PerformRequest propfind_request with
  | inr doc =>
      if bool_decide (dx_ctag doc ≠ EmptyString) then setCtag existing (dx_ctag doc)
      else existing
  | inl _ => existing
  end.

(** *** The answers of the server, for the convergence of a run *)

(** The ids of the rows an item is fanned out to: the base id for the
    first e-mail, the base id with the position for a later one, none for
    an empty e-mail, and none at all for an item that is skipped. *)
Definition item_ids (node : ResponseNode) : list string :=
  let vcard := parseVCard (n_address_data node) in
  if bool_decide (n_address_data node = EmptyString) then []
  else if vc_incomplete vcard then []
  else omap (λ p : nat * string,
               if Str.empty p.2 then None
               else Some (row_id (base_id (vc_uid vcard) (n_href node)) p.1))
            (imap (λ i email, (i, email)) (vc_emails vcard)).

(** [node] is an item of the answer to the multiget of one of [chunks]. *)
Definition answered (ab : ContactBook) (chunks : list (list string))
    (node : ResponseNode) : Prop :=
  ∃ chunk abDoc, chunk ∈ chunks
    ∧ PerformRequest (multiget_request ab chunk) = inr abDoc
    ∧ node ∈ dx_responses abDoc.

(** The conditions on the server and on the cards under which a run
    converges, for the listing [remote], the local etags [local] and the
    store [st] the run starts from.
    - Every answered item that yields a row carries a listed etag.
    - Every listed etag that is missing locally comes back on an item that
      yields a row.
    - Two items that share a row id carry the same etag.
    - A row of the book that an item overwrites, and whose etag is still
      listed, carries the etag of the item. *)
Definition answers_listed (ab : ContactBook) (chunks : list (list string))
    (remote : gmap ETAG string) : Prop :=
  ∀ node, answered ab chunks node → item_ids node ≠ [] → n_etag node ∈ dom remote.

Definition answers_cover (ab : ContactBook) (chunks : list (list string))
    (remote : gmap ETAG string) (local : gmap ETAG bool) : Prop :=
  ∀ e, e ∈ dom remote → e ∉ dom local →
    ∃ node, answered ab chunks node ∧ n_etag node = e ∧ item_ids node ≠ [].

Definition ids_apart (ab : ContactBook) (chunks : list (list string)) : Prop :=
  ∀ node1 node2 id, answered ab chunks node1 → answered ab chunks node2 →
    id ∈ item_ids node1 → id ∈ item_ids node2 → n_etag node1 = n_etag node2.

Definition ids_fresh (ab : ContactBook) (chunks : list (list string))
    (remote : gmap ETAG string) (st : Store) : Prop :=
  ∀ node id c0, answered ab chunks node → id ∈ item_ids node →
    contacts st !! id = Some c0 → c_bookId c0 = b_id ab → c_etag c0 ∈ dom remote →
    c_etag c0 = n_etag node.

(** *** Fatal failures

    The failures that stop a run, where they arise, and the store each
    leaves behind: [fatal st what s] says that a run started on [st] meets
    the exception [what] and leaves the store [s]. *)

(** A lookup or a save that throws while the visitor goes through [nodes]
    from the store [s]: the items before it were saved, and it is the first
    lookup of the item that throws, or no lookup throws and it is the first
    row of the item that the store refuses. *)
Inductive visit_fatal (b : string) (nodes : list ResponseNode) (s : Store)
    (what : string) : Prop :=
| Fatal_find pre node post tr s1 :
    nodes = pre ++ node :: post →
    visit_nodes b pre s = (tr, inr s1) →
    ingest_thrown node = Some what →
    visit_fatal b nodes s what
| Fatal_save pre node post tr s1 i c :
    nodes = pre ++ node :: post →
    visit_nodes b pre s = (tr, inr s1) →
    ingest_thrown node = None →
    list_find (λ c, is_Some (save_fault c))
              (prepare b (ing_isGroup (ingestAddressDataNode s1 node false))
                 <$> ing_rows (ingestAddressDataNode s1 node false))
    = Some (i, c) →
    save_fault c = Some what →
    visit_fatal b nodes s what.

(** A failure of the store inside the transaction of a batch entered with
    the store [s] and the stale list [deleted]: at BEGIN, at a DELETE, in
    the visitor, or at COMMIT. *)
Inductive batch_fatal (ab : ContactBook) (deleted : list ETAG) (abDoc : DavXML)
    (s : Store) (what : string) : Prop :=
| Fatal_begin :
    begin_fault s = Some what →
    batch_fatal ab deleted abDoc s what
| Fatal_delete :
    begin_fault s = None →
    delete_thrown (b_id ab) deleted = Some what →
    batch_fatal ab deleted abDoc s what
| Fatal_visit :
    begin_fault s = None →
    delete_thrown (b_id ab) deleted = None →
    visit_fatal (b_id ab) (dx_responses abDoc) (delete_all (b_id ab) deleted s) what →
    batch_fatal ab deleted abDoc s what
| Fatal_commit tr s2 :
    begin_fault s = None →
    delete_thrown (b_id ab) deleted = None →
    visit_nodes (b_id ab) (dx_responses abDoc) (delete_all (b_id ab) deleted s)
    = (tr, inr s2) →
    commit_fault s2 = Some what →
    batch_fatal ab deleted abDoc s what.

(** A failure in the sync of the book [ab] from the store [st]: the
    listing fetch; the SELECT of the local etags; the content fetch of a
    batch, or the store inside its transaction, after the batches [done_]
    before it were committed and left the store [s]; a DELETE of the final
    pass, after all the batches, which leaves the deletions before it
    applied. *)
Inductive book_fatal (ab : ContactBook) (st : Store) (what : string) : Store → Prop :=
| Fatal_listing :
    PerformRequest (query_request ab) = inl what →
    book_fatal ab st what st
| Fatal_select doc :
    PerformRequest (query_request ab) = inr doc →
    select_fault (b_id ab) = Some what →
    book_fatal ab st what st
| Fatal_fetch doc done_ chunk rest tr0 s del0 :
    PerformRequest (query_request ab) = inr doc →
    select_fault (b_id ab) = None →
    chunksOfVector (compute_needed (remote_of doc) (local_etags st (b_id ab))) 90
    = done_ ++ chunk :: rest →
    batch_loop ab done_ (compute_deleted (remote_of doc) (local_etags st (b_id ab))) st
    = (tr0, s, inr del0) →
    PerformRequest (multiget_request ab chunk) = inl what →
    book_fatal ab st what s
| Fatal_batch doc done_ chunk rest tr0 s del0 abDoc :
    PerformRequest (query_request ab) = inr doc →
    select_fault (b_id ab) = None →
    chunksOfVector (compute_needed (remote_of doc) (local_etags st (b_id ab))) 90
    = done_ ++ chunk :: rest →
    batch_loop ab done_ (compute_deleted (remote_of doc) (local_etags st (b_id ab))) st
    = (tr0, s, inr del0) →
    PerformRequest (multiget_request ab chunk) = inr abDoc →
    batch_fatal ab del0 abDoc s what →
    book_fatal ab st what s
| Fatal_sweep doc tr0 s del0 :
    PerformRequest (query_request ab) = inr doc →
    select_fault (b_id ab) = None →
    batch_loop ab
      (chunksOfVector (compute_needed (remote_of doc) (local_etags st (b_id ab))) 90)
      (compute_deleted (remote_of doc) (local_etags st (b_id ab))) st
    = (tr0, s, inr del0) →
    delete_thrown (b_id ab) del0 = Some what →
    book_fatal ab st what (delete_all (b_id ab) (deletes_done (b_id ab) del0) s).

(** A failure of a run: the collection cannot be resolved (the lookup of
    the book or its save throws, nothing is written), or the sync of the
    resolved book fails. *)
Inductive fatal (st : Store) (what : string) : Store → Prop :=
| Fatal_find_book :
    find_book_fault ("external-" +:+ sourceId cfg) = Some what →
    fatal st what st
| Fatal_save_book :
    find_book_fault ("external-" +:+ sourceId cfg) = None →
    save_book_fault (book_resolved st) = Some what →
    fatal st what st
| Fatal_book s :
    find_book_fault ("external-" +:+ sourceId cfg) = None →
    save_book_fault (book_resolved st) = None →
    book_fatal (book_resolved st) (save_book st (book_resolved st)) what s →
    fatal st what s.

(** The store executes every statement it is given. *)
Definition store_works : Prop :=
  (∀ c, save_fault c = None)
  ∧ (∀ b, save_book_fault b = None)
  ∧ (∀ id, find_fault id = None)
  ∧ (∀ id, find_book_fault id = None)
  ∧ (∀ b, select_fault b = None)
  ∧ (∀ b e, delete_fault b e = None)
  ∧ (∀ s, begin_fault s = None)
  ∧ (∀ s, commit_fault s = None).

(** Every exception the collaborators throw carries a message. *)
Definition descriptive : Prop :=
  (∀ rq what, PerformRequest rq = inl what → what ≠ EmptyString)
  ∧ (∀ c what, save_fault c = Some what → what ≠ EmptyString)
  ∧ (∀ b what, save_book_fault b = Some what → what ≠ EmptyString)
  ∧ (∀ id what, find_fault id = Some what → what ≠ EmptyString)
  ∧ (∀ id what, find_book_fault id = Some what → what ≠ EmptyString)
  ∧ (∀ b what, select_fault b = Some what → what ≠ EmptyString)
  ∧ (∀ b e what, delete_fault b e = Some what → what ≠ EmptyString)
  ∧ (∀ s what, begin_fault s = Some what → what ≠ EmptyString)
  ∧ (∀ s what, commit_fault s = Some what → what ≠ EmptyString).

End WorkerCode.

(** ** Counting the href elements of a body

    [occurrences needle hay] is the number of positions of [hay] at which
    [needle] starts. *)
Fixpoint occurrences (needle hay : string) : nat :=
  match hay with
  | EmptyString => 0
  | String c rest =>
      (if String.prefix needle hay then 1 else 0) + occurrences needle rest
  end.

(** ** The scheme of a URL, in the spec's words

    "URLs lacking a scheme are coerced to secure transport."  A URL carries
    a scheme when it opens with a scheme name (a letter, then letters,
    digits, [+], [-] or [.]) followed by [://]. *)

Definition is_letter (c : ascii) : bool :=
  let n := nat_of_ascii c in
  ((65 <=? n) && (n <=? 90)) || ((97 <=? n) && (n <=? 122)).

Definition scheme_char (c : ascii) : bool :=
  let n := nat_of_ascii c in
  is_letter c || ((48 <=? n) && (n <=? 57))
  || bool_decide (c = "+"%char) || bool_decide (c = "-"%char) || bool_decide (c = "."%char).

Fixpoint scheme_tail (s : string) : bool :=
  match s with
  | String ":" (String "/" (String "/" _)) => true
  | String c rest => scheme_char c && scheme_tail rest
  | EmptyString => false
  end.

Definition carries_scheme (url : string) : bool :=
  match url with
  | String c rest => is_letter c && scheme_tail rest
  | EmptyString => false
  end.

(** ** The discipline of the store transactions

    Read off a trace: contact rows are saved inside a transaction only;
    requests and the save of the book happen outside; deletions happen
    inside (the sweep of the first chunk) or outside (the final pass);
    transactions do not nest; after a rollback only log lines follow. *)

Inductive TxState := TxIdle | TxOpen | TxAborted.

Definition tx_step (s : TxState) (ev : Event) : option TxState :=
  match s, ev with
  | _, EvLog _ _ => Some s
  | TxIdle, EvBegin => Some TxOpen
  | TxIdle, EvRequest _ => Some TxIdle
  | TxIdle, EvSaveBook _ => Some TxIdle
  | TxIdle, EvDelete _ _ => Some TxIdle
  | TxOpen, EvDelete _ _ => Some TxOpen
  | TxOpen, EvSave _ => Some TxOpen
  | TxOpen, EvCommit => Some TxIdle
  | TxOpen, EvRollback => Some TxAborted
  | _, _ => None
  end.

Fixpoint tx_run (s : TxState) (tr : Trace) : option TxState :=
  match tr with
  | [] => Some s
  | ev :: tr' =>
      match tx_step s ev with
      | Some s' => tx_run s' tr'
      | None => None
      end
  end.

(** ** A small address book to run the worker on *)

Module Demo.

Definition cfg_ : Config :=
  mkConfig "S" "Work" "dav.example.org/book" "alice" "secret" "acct1".

Definition book : ContactBook :=
  mkContactBook "external-S" "acct1" EXTERNAL_CARDDAV_SOURCE "dav.example.org/book"
                EmptyString.

(** Stand-ins for the collaborators. *)
Definition toBase64_ (s : string) : string := "b64:" +:+ s.

Definition card (uid name : string) (emails : list string) : VCard :=
  mkVCard false emails uid name EmptyString None.

Definition parseVCard_ (text : string) : VCard :=
  if bool_decide (text = "VC-ADA") then card "U" "Ada Lovelace" ["a@x.org"; "b@x.org"; "c@x.org"]
  else if bool_decide (text = "VC-BOB") then card "B" "Bob" ["bob@x.org"]
  else if bool_decide (text = "VC-GAP") then card "G" "Grace" ["a@x.org"; EmptyString; "c@x.org"]
  else if bool_decide (text = "VC-LATE") then card "L" "Linus" [EmptyString; "late@x.org"]
  else if bool_decide (text = "VC-BLANK") then card "K" "Ken" [EmptyString]
  else if bool_decide (text = "VC-NOMAIL") then card "N" "Niklaus" []
  else mkVCard true [] EmptyString EmptyString EmptyString None.

Definition isGroupCard_ (vcard : VCard) : bool := bool_decide (vc_uid vcard = "TEAM").

Definition no_fault {A} (_ : A) : option string := None.

(** The worker in front of a given server. *)
Definition worker (srv : Request → Exn DavXML) : Worker :=
  {| cfg := cfg_;
     toBase64 := toBase64_;
     PerformRequest := srv;
     parseVCard := parseVCard_;
     isGroupCard := isGroupCard_;
     CONTACT_MAX_REFS := 100000;
     save_fault := no_fault;
     save_book_fault := no_fault;
     find_fault := no_fault;
     find_book_fault := no_fault;
     select_fault := no_fault;
     delete_fault := λ _, no_fault;
     begin_fault := no_fault;
     commit_fault := no_fault |}.

(** The same worker over a store that refuses some saves. *)
Definition stubborn (srv : Request → Exn DavXML) (refuse : Contact → option string)
    : Worker :=
  {| cfg := cfg_;
     toBase64 := toBase64_;
     PerformRequest := srv;
     parseVCard := parseVCard_;
     isGroupCard := isGroupCard_;
     CONTACT_MAX_REFS := 100000;
     save_fault := refuse;
     save_book_fault := no_fault;
     find_fault := no_fault;
     find_book_fault := no_fault;
     select_fault := no_fault;
     delete_fault := λ _, no_fault;
     begin_fault := no_fault;
     commit_fault := no_fault |}.

(** The two requests do not depend on what the server answers. *)
Definition query_rq : Request := query_request (W := worker (λ _, inl EmptyString)) book.
Definition multiget_rq (chunk : list string) : Request :=
  multiget_request (W := worker (λ _, inl EmptyString)) book chunk.

(** The remote side: two cards listed, both served by the multiget. *)
Definition listing : DavXML :=
  mkDavXML EmptyString [mkNode "e2" "/bob.vcf" EmptyString;
                        mkNode "e3" "/ada.vcf" EmptyString].

Definition cards : DavXML :=
  mkDavXML EmptyString [mkNode "e3" "/ada.vcf" "VC-ADA"; mkNode "e2" "/bob.vcf" "VC-BOB"].

Definition server (rq : Request) : Exn DavXML :=
  if bool_decide (rq = query_rq) then inr listing
  else if bool_decide (rq = multiget_rq ["/bob.vcf"; "/ada.vcf"]) then inr cards
  else inl "HTTP 404".

(** A server that is down. *)
Definition down (_ : Request) : Exn DavXML := inl "HTTP 503".

(** A server that lists one card and serves it without any e-mail. *)
Definition nomail_listing : DavXML :=
  mkDavXML EmptyString [mkNode "e1" "/c1.vcf" EmptyString].

Definition nomail_server (rq : Request) : Exn DavXML :=
  if bool_decide (rq = query_rq) then inr nomail_listing
  else if bool_decide (rq = multiget_rq ["/c1.vcf"])
       then inr (mkDavXML EmptyString [mkNode "e1" "/c1.vcf" "VC-NOMAIL"])
  else inl "HTTP 404".

(** The local side: one stale row, left over from a card the server no
    longer lists. *)
Definition stale : Contact :=
  mkContact "ext-S-old" "acct1" "external-S" "old@x.org" "Old" None "e1" false
            100000 EXTERNAL_CARDDAV_SOURCE.

Definition st0 : Store := mkStore {[ "ext-S-old" := stale ]} ∅.

Definition empty_store : Store := mkStore ∅ ∅.

(** A store in which Bob's row exists and is hidden. *)
Definition hidden_bob : Contact :=
  mkContact "ext-S-B" "acct1" "external-S" "bob@x.org" "Bob" None "e0" true
            100000 EXTERNAL_CARDDAV_SOURCE.

Definition st_hidden : Store := mkStore {[ "ext-S-B" := hidden_bob ]} ∅.

(** Bob's row as a run leaves it, next to the stale row, in front of a
    server that lists Bob's card only. *)
Definition bob_row : Contact :=
  mkContact "ext-S-B" "acct1" "external-S" "bob@x.org" "Bob"
            (Some (mkInfo "VC-BOB" "/bob.vcf" None)) "e2" false
            100000 EXTERNAL_CARDDAV_SOURCE.

Definition st_two : Store :=
  mkStore (<["ext-S-old" := stale]> {[ "ext-S-B" := bob_row ]}) ∅.

Definition bob_only (rq : Request) : Exn DavXML :=
  if bool_decide (rq = query_rq)
  then inr (mkDavXML EmptyString [mkNode "e2" "/bob.vcf" EmptyString])
  else inl "HTTP 404".

(** The first run against [server], and what it leaves. *)
Definition first_run := runForAddressBook (W := worker server) book st0.
Definition tr1 : Trace := first_run.1.1.
Definition st1 : Store := first_run.1.2.

(** The PROPFIND does not depend on what the server answers either. *)
Definition propfind_rq : Request := propfind_request (W := worker (λ _, inl EmptyString)).

(** [server] with the PROPFIND answered too, by a ctag. *)
Definition full_server (rq : Request) : Exn DavXML :=
  if bool_decide (rq = propfind_rq) then inr (mkDavXML "c7" []) else server rq.

(** The book as a run in front of [full_server] stores it. *)
Definition fresh_book : ContactBook :=
  mkContactBook "external-S" "acct1" EXTERNAL_CARDDAV_SOURCE "dav.example.org/book" "c7".

(** A server that answers every REPORT and nothing else. *)
Definition steady (rq : Request) : Exn DavXML :=
  if bool_decide (rq_method rq = "REPORT")
  then (if bool_decide (rq = query_rq) then inr listing else inr cards)
  else inl "HTTP 405".

(** A server whose address book is empty. *)
Definition empty_server (_ : Request) : Exn DavXML := inr (mkDavXML EmptyString []).

(** A store that refuses Bob's row. *)
Definition refuse_bob (c : Contact) : option string :=
  if bool_decide (c_id c = "ext-S-B") then Some "disk full" else None.

(** A listing of 90 cards, the first of which has the markup of an href
    element in its own href, in front of a server that answers the listing
    alone. *)
Definition wide_listing : DavXML :=
  mkDavXML EmptyString
    ((λ i, mkNode ("w" +:+ Str.to_string i)
                  (if bool_decide (i = 0) then "/0.vcf</d:href><d:href>/x.vcf"
                   else "/" +:+ Str.to_string i +:+ ".vcf")
                  EmptyString) <$> seq 0 90).

Definition wide_server (rq : Request) : Exn DavXML :=
  if bool_decide (rq = query_rq) then inr wide_listing else inl "HTTP 404".

(** A server that lists two cards with the same unique id. *)
Definition twin_listing : DavXML :=
  mkDavXML EmptyString [mkNode "e2" "/bob.vcf" EmptyString;
                        mkNode "e8" "/rob.vcf" EmptyString].

Definition twin_server (rq : Request) : Exn DavXML :=
  if bool_decide (rq = query_rq) then inr twin_listing
  else if bool_decide (rq = multiget_rq ["/bob.vcf"; "/rob.vcf"])
       then inr (mkDavXML EmptyString [mkNode "e2" "/bob.vcf" "VC-BOB";
                                       mkNode "e8" "/rob.vcf" "VC-BOB"])
  else inl "HTTP 404".

End Demo.

(** * Properties *)

(** ** The diff *)

Lemma foldl_push_unless {A B} (skip : A → Prop) `{!∀ x, Decision (skip x)}
    (f : A → B) (l : list A) (acc : list B) :
  foldl (λ acc x, if bool_decide (skip x) then acc else acc ++ [f x]) acc l
  = acc ++ (f <$> filter (λ x, ¬ skip x) l).
Proof.
  revert acc. induction l as [|x l IH]; intros acc; simpl.
  - by rewrite app_nil_r.
  - rewrite IH. rewrite filter_cons. case_bool_decide; case_decide; try done.
    by rewrite fmap_cons, <- app_assoc.
Qed.

Lemma entries_perm {V} (m : gmap string V) : entries m ≡ₚ map_to_list m.
Proof. apply merge_sort_Permutation. Qed.

Global Instance key_le_total {V} : Total (@key_le V).
Proof. intros p q. apply String.leb_total. Qed.

(** [entries] is in ascending key order, as the iteration of [std::map]. *)
Lemma entries_sorted {V} (m : gmap string V) : Sorted key_le (entries m).
Proof. apply Sorted_merge_sort, _. Qed.

Lemma elem_of_entries {V} (m : gmap string V) k v :
  (k, v) ∈ entries m ↔ m !! k = Some v.
Proof. rewrite entries_perm. apply elem_of_map_to_list. Qed.

Lemma NoDup_fst_entries {V} (m : gmap string V) : NoDup (entries m).*1.
Proof. rewrite entries_perm. apply NoDup_fst_map_to_list. Qed.

Lemma compute_needed_eq remote local :
  compute_needed remote local
  = (filter (λ pair, ¬ is_Some (local !! pair.1)) (entries remote)).*2.
Proof. unfold compute_needed, needed_step. by rewrite (foldl_push_unless (λ pair, is_Some (local !! pair.1)) snd). Qed.

Lemma needed_entries_eq remote local :
  needed_entries remote local
  = filter (λ pair, ¬ is_Some (local !! pair.1)) (entries remote).
Proof.
  unfold needed_entries.
  rewrite (foldl_push_unless (λ pair : string * string, is_Some (local !! pair.1)) id).
  by rewrite list_fmap_id.
Qed.

Lemma compute_deleted_eq remote local :
  compute_deleted remote local
  = (filter (λ pair, ¬ is_Some (remote !! pair.1)) (entries local)).*1.
Proof. unfold compute_deleted, deleted_step. by rewrite (foldl_push_unless (λ pair, is_Some (remote !! pair.1)) fst). Qed.

Lemma elem_of_compute_deleted remote local e :
  e ∈ compute_deleted remote local ↔ e ∈ dom local ∧ e ∉ dom remote.
Proof.
  rewrite compute_deleted_eq, list_elem_of_fmap. setoid_rewrite list_elem_of_filter.
  rewrite !elem_of_dom. split.
  - intros [[k v] (-> & Hn & Hin)]. apply elem_of_entries in Hin. simpl in *. eauto.
  - intros [[v Hv] Hn]. exists (e, v). rewrite elem_of_entries. auto.
Qed.

Lemma NoDup_compute_deleted remote local : NoDup (compute_deleted remote local).
Proof.
  rewrite compute_deleted_eq.
  pose proof (NoDup_fst_entries local) as Hnd.
  induction (entries local) as [|[k v] l IH]; simpl in *; [constructor|].
  apply NoDup_cons in Hnd as [Hk Hnd]. rewrite filter_cons. case_decide; simpl; auto.
  apply NoDup_cons. split; auto.
  intros Hin. apply Hk. apply list_elem_of_fmap in Hin as [p [-> Hp]].
  apply list_elem_of_filter in Hp as [_ Hp]. apply list_elem_of_fmap. eauto.
Qed.

Lemma elem_of_needed_entries remote local e h :
  (e, h) ∈ needed_entries remote local ↔ remote !! e = Some h ∧ e ∉ dom local.
Proof.
  rewrite needed_entries_eq, list_elem_of_filter, elem_of_entries, elem_of_dom. simpl. tauto.
Qed.

Lemma compute_needed_entries remote local :
  compute_needed remote local = (needed_entries remote local).*2.
Proof. by rewrite compute_needed_eq, needed_entries_eq. Qed.

Lemma elem_of_compute_needed remote local h :
  h ∈ compute_needed remote local ↔ ∃ e, remote !! e = Some h ∧ e ∉ dom local.
Proof.
  rewrite compute_needed_entries, list_elem_of_fmap. split.
  - intros [[e h'] [-> Hin]]. apply elem_of_needed_entries in Hin. eauto.
  - intros [e He]. exists (e, h). by rewrite elem_of_needed_entries.
Qed.


(** C1.  [needed] is the list of hrefs of the remote entries whose etag is
    not a local etag, one per such etag and no other; [deleted] lists the
    local etags that are not remote, each once and no other; an etag on
    both sides is in neither. *)
Theorem diff_correctness (remote : gmap ETAG string) (local : gmap ETAG bool) :
  let needed := compute_needed remote local in
  let deleted := compute_deleted remote local in
  let fetched := needed_entries remote local in
  needed = fetched.*2
  ∧ fetched.*1 ≡ₚ elements (dom remote ∖ dom local)
  ∧ (∀ e h, (e, h) ∈ fetched → remote !! e = Some h)
  ∧ (∀ h, h ∈ needed ↔ ∃ e, remote !! e = Some h ∧ e ∉ dom local)
  ∧ deleted ≡ₚ elements (dom local ∖ dom remote)
  ∧ (∀ e, e ∈ dom remote → e ∈ dom local → (e ∉ deleted) ∧ (e ∉ fetched.*1)).
Proof.
  intros needed deleted fetched.
  assert (∀ e, e ∈ fetched.*1 ↔ e ∈ dom remote ∧ e ∉ dom local) as Hkeys.
  { intros e. unfold fetched. rewrite list_elem_of_fmap. split.
    - intros [[e' h] [-> [Hr Hl]%elem_of_needed_entries]]. split; [|done].
      apply elem_of_dom. eauto.
    - intros [[h Hh]%elem_of_dom Hl]. exists (e, h). by rewrite elem_of_needed_entries. }
  split; [apply compute_needed_entries|]. split.
  { apply NoDup_Permutation.
    - unfold fetched. rewrite needed_entries_eq.
      eapply sublist_NoDup; [apply (NoDup_fst_entries remote)|].
      apply fmap_sublist, sublist_filter.
    - apply NoDup_elements.
    - intros e. rewrite Hkeys, elem_of_elements, elem_of_difference. done. }
  split. { intros e h Hin. by apply elem_of_needed_entries in Hin as [? _]. }
  split. { apply elem_of_compute_needed. }
  split.
  { apply NoDup_Permutation.
    - apply NoDup_compute_deleted.
    - apply NoDup_elements.
    - intros e. unfold deleted.
      rewrite elem_of_compute_deleted, elem_of_elements, elem_of_difference. done. }
  intros e Hr Hl. split.
  - unfold deleted. rewrite elem_of_compute_deleted. tauto.
  - rewrite Hkeys. tauto.
Qed.

(** ** The request URL *)

Lemma find_at_start (needle hay : string) :
  needle ≠ EmptyString →
  Str.find needle hay = Some 0 ↔ String.prefix needle hay = true.
Proof.
  intros Hne. unfold Str.find. destruct needle as [|d needle]; [done|].
  destruct hay as [|c hay]; [simpl; split; discriminate|].
  cbn [index].
  destruct (String.prefix (String d needle) (String c hay)); [done|].
  destruct (index 0 (String d needle) hay); split; discriminate.
Qed.

(** C9 (amended).  The request builder tests for the four characters
    "http" at the start of the URL, not for a scheme: a URL that starts with
    them is left as it is, so every http:// and https:// URL is, and any
    other URL gets "https://" in front.  The result, cut at its first NUL,
    is the URL of the request. *)
Theorem request_url_by_prefix `{!Worker} (_url method payload depth : string) :
  ((String.prefix "http" _url = true ∧ request_url _url = _url)
   ∨ (String.prefix "http" _url = false ∧ request_url _url = "https://" +:+ _url))
  ∧ request_url ("http://" +:+ _url) = "http://" +:+ _url
  ∧ request_url ("https://" +:+ _url) = "https://" +:+ _url
  ∧ rq_url (build_request _url method payload depth) = c_str (request_url _url).
Proof.
  split; [|done]. unfold request_url.
  pose proof (find_at_start "http" _url ltac:(done)) as Hfind.
  destruct (String.prefix "http" _url) eqn:Hp.
  - left. split; [done|]. rewrite bool_decide_eq_false_2; [done|].
    intros Hne. apply Hne. by apply Hfind.
  - right. split; [done|]. rewrite bool_decide_eq_true_2; [done|].
    intros Heq. apply Hfind in Heq. discriminate.
Qed.

(** ** Chunks *)

Section Chunks.
Context {A : Type}.
Implicit Types v : list A.

Lemma chunks_fuel_concat fuel v n :
  0 < n → length v ≤ fuel → concat (chunks_fuel fuel v n) = v.
Proof.
  intros Hn. revert v. induction fuel as [|fuel IH]; intros v Hlen.
  - destruct v; simpl in *; [done | lia].
  - destruct v as [|x v]; [done|].
    cbn [chunks_fuel concat]. rewrite IH, take_drop; [done|].
    rewrite length_drop. simpl in *. lia.
Qed.

Lemma chunks_fuel_sizes fuel v n :
  0 < n → Forall (λ chunk, 0 < length chunk ≤ n) (chunks_fuel fuel v n).
Proof.
  intros Hn. revert v. induction fuel as [|fuel IH]; intros v; [constructor|].
  destruct v as [|x v]; [constructor|].
  cbn [chunks_fuel]. constructor; [|apply IH].
  rewrite length_take. simpl. lia.
Qed.

Lemma chunks_fuel_length fuel v n :
  0 < n → length v ≤ fuel →
  length (chunks_fuel fuel v n) = (length v + (n - 1)) / n.
Proof.
  intros Hn. revert v. induction fuel as [|fuel IH]; intros v Hlen.
  - destruct v; simpl in *; [|lia]. symmetry. apply Nat.div_small. lia.
  - destruct v as [|x v].
    { simpl. symmetry. apply Nat.div_small. lia. }
    cbn [chunks_fuel length]. rewrite IH by (rewrite length_drop; simpl in *; lia).
    rewrite length_drop. cbn [length].
    destruct (decide (S (length v) ≤ n)) as [Hle|Hgt].
    + replace (S (length v) - n) with 0 by lia.
      rewrite (Nat.div_small (0 + (n - 1))) by lia.
      apply (Nat.div_unique _ _ 1 (S (length v) - 1)); lia.
    + replace (S (length v) + (n - 1)) with ((S (length v) - n + (n - 1)) + 1 * n) by lia.
      rewrite Nat.div_add by lia. lia.
Qed.

(** All chunks but the last are full. *)
Lemma chunks_fuel_full fuel v n i chunk :
  0 < n → length v ≤ fuel →
  chunks_fuel fuel v n !! i = Some chunk →
  S i < length (chunks_fuel fuel v n) → length chunk = n.
Proof.
  intros Hn. revert v i. induction fuel as [|fuel IH]; intros v i Hlen; [done|].
  destruct v as [|x v]; [done|]. cbn [chunks_fuel].
  destruct i as [|i]; cbn [lookup list_lookup length].
  - intros [= <-] Hlt. rewrite length_take.
    destruct (decide (n ≤ length (x :: v))); [lia|].
    exfalso. rewrite drop_ge in Hlt by lia.
    destruct fuel; simpl in Hlt; lia.
  - intros Hi Hlt. eapply IH; [|exact Hi|simpl in Hlt; lia].
    rewrite length_drop. simpl in *. lia.
Qed.
End Chunks.


(** ** The store *)

Section StoreFacts.
Implicit Types (st : Store) (c : Contact).

Lemma lookup_delete_stmt b e st id c :
  contacts (delete_stmt b e st) !! id = Some c
  ↔ contacts st !! id = Some c ∧ ¬ (c_bookId c = b ∧ c_etag c = e).
Proof. unfold delete_stmt. simpl. by rewrite map_lookup_filter_Some. Qed.

Lemma books_delete_stmt b e st : books (delete_stmt b e st) = books st.
Proof. done. Qed.

Lemma lookup_delete_all b dels st id c :
  contacts (delete_all b dels st) !! id = Some c
  ↔ contacts st !! id = Some c ∧ ¬ (c_bookId c = b ∧ c_etag c ∈ dels).
Proof.
  unfold delete_all. revert st. induction dels as [|e dels IH]; intros st; simpl.
  - rewrite elem_of_nil. tauto.
  - rewrite IH, lookup_delete_stmt, elem_of_cons. naive_solver.
Qed.

Lemma delete_all_nil b st : delete_all b [] st = st.
Proof. done. Qed.

Lemma lookup_save_contact st c id :
  contacts (save_contact st c) !! id
  = if decide (c_id c = id) then Some c else contacts st !! id.
Proof. unfold save_contact. simpl. apply lookup_insert. Qed.

Lemma save_list_snoc st cs c : save_list st (cs ++ [c]) = save_contact (save_list st cs) c.
Proof. unfold save_list. by rewrite foldl_app. Qed.

Lemma save_list_app st cs1 cs2 : save_list st (cs1 ++ cs2) = save_list (save_list st cs1) cs2.
Proof. unfold save_list. by rewrite foldl_app. Qed.

(** A row of the store after a series of saves was either saved in it or
    sat there before under an id that no save touched. *)
Lemma lookup_save_list st cs id c :
  contacts (save_list st cs) !! id = Some c →
  (c ∈ cs ∧ c_id c = id) ∨ (contacts st !! id = Some c ∧ id ∉ c_id <$> cs).
Proof.
  revert c. induction cs as [|c' cs IH] using rev_ind; intros c.
  - right. split; [done | apply not_elem_of_nil].
  - rewrite save_list_snoc, lookup_save_contact. case_decide as Hid.
    + intros [= <-]. left. split; [|done]. apply elem_of_app. right. by apply list_elem_of_singleton.
    + intros [[Hin ?]|[Hst Hnin]]%IH.
      * left. split; [|done]. apply elem_of_app. by left.
      * right. split; [done|]. rewrite fmap_app, elem_of_app. intros [?|Hin]; [done|].
        simpl in Hin. apply list_elem_of_singleton in Hin. congruence.
Qed.

Lemma lookup_save_list_untouched st cs id :
  id ∉ c_id <$> cs → contacts (save_list st cs) !! id = contacts st !! id.
Proof.
  induction cs as [|c' cs IH] using rev_ind; [done|].
  rewrite fmap_app, not_elem_of_app. intros [H1 H2].
  rewrite save_list_snoc, lookup_save_contact. case_decide as Hid; [|auto].
  exfalso. apply H2. simpl. apply list_elem_of_singleton. done.
Qed.

(** A saved row is still there at the end, possibly replaced by a later
    save under the same id. *)
Lemma lookup_save_list_saved st cs c :
  c ∈ cs → ∃ c', c' ∈ cs ∧ c_id c' = c_id c ∧ contacts (save_list st cs) !! c_id c = Some c'.
Proof.
  induction cs as [|c0 cs IH] using rev_ind; [by intros ?%elem_of_nil|].
  intros Hin. rewrite save_list_snoc, lookup_save_contact. case_decide as Hid.
  - exists c0. split_and!; [|done..]. apply elem_of_app. right. by apply list_elem_of_singleton.
  - apply elem_of_app in Hin as [Hin|Hin].
    + destruct (IH Hin) as (c' & ? & ? & ?). exists c'. split_and!; [|done..].
      apply elem_of_app. by left.
    + apply list_elem_of_singleton in Hin. congruence.
Qed.

Lemma books_save_list st cs : books (save_list st cs) = books st.
Proof. induction cs as [|c cs IH] using rev_ind; [done|]. by rewrite save_list_snoc. Qed.

Lemma books_delete_all b dels st : books (delete_all b dels st) = books st.
Proof. unfold delete_all. revert st. induction dels; intros; simpl; [done|]. by rewrite IHdels. Qed.

Lemma store_wf_save st c : store_wf st → store_wf (save_contact st c).
Proof.
  intros Hwf id c'. rewrite lookup_save_contact. case_decide; [congruence | apply Hwf].
Qed.

Lemma store_wf_save_list st cs : store_wf st → store_wf (save_list st cs).
Proof.
  intros Hwf. induction cs as [|c cs IH] using rev_ind; [done|].
  rewrite save_list_snoc. by apply store_wf_save.
Qed.

Lemma store_wf_delete_all b dels st : store_wf st → store_wf (delete_all b dels st).
Proof. intros Hwf id c [H _]%lookup_delete_all. by apply Hwf. Qed.

Lemma elem_of_select_etags st b e :
  e ∈ select_etags st b ↔ ∃ id c, contacts st !! id = Some c ∧ c_bookId c = b ∧ c_etag c = e.
Proof.
  unfold select_etags. rewrite list_elem_of_fmap. setoid_rewrite list_elem_of_filter.
  setoid_rewrite list_elem_of_fmap. split.
  - intros (c & -> & Hb & [id c'] & -> & Hin). apply elem_of_map_to_list in Hin. eauto.
  - intros (id & c & Hin & Hb & He). exists c. split_and!; [done..|].
    exists (id, c). split; [done|]. by apply elem_of_map_to_list.
Qed.

Lemma dom_foldl_insert_true (l : list ETAG) (m : gmap ETAG bool) :
  dom (foldl (λ local e, <[e := true]> local) m l) = dom m ∪ list_to_set l.
Proof.
  revert m. induction l as [|e l IH]; intros m; simpl; [set_solver|].
  rewrite IH, dom_insert_L. set_solver.
Qed.

Lemma elem_of_dom_local_etags st b e :
  e ∈ dom (local_etags st b)
  ↔ ∃ id c, contacts st !! id = Some c ∧ c_bookId c = b ∧ c_etag c = e.
Proof.
  unfold local_etags. rewrite dom_foldl_insert_true, dom_empty_L, <- elem_of_select_etags.
  set_solver.
Qed.
End StoreFacts.


(** ** Fan-out and ingestion *)

Lemma string_app_length (s t : string) : String.length (s +:+ t) = String.length s + String.length t.
Proof. induction s; simpl; auto. Qed.

Lemma string_app_neq_self (s t : string) : t ≠ EmptyString → s +:+ t ≠ s.
Proof.
  intros Ht Heq. apply (f_equal String.length) in Heq.
  rewrite string_app_length in Heq. destruct t; [done|]. simpl in Heq. lia.
Qed.

Section FanOutFacts.
Context {W : Worker}.


Lemma row_id_neq_base baseId i : i ≠ 0 → row_id baseId i ≠ baseId.
Proof.
  intros Hi. unfold row_id. rewrite bool_decide_eq_false_2 by done.
  apply string_app_neq_self. done.
Qed.

Lemma upsert_row_id st id info name email etag :
  store_wf st → c_id (upsert_row st id info name email etag) = id.
Proof.
  intros Hwf. unfold upsert_row, find_contact.
  destruct (contacts st !! id) as [found|] eqn:Hf; simpl; [by apply Hwf | done].
Qed.

Lemma upsert_row_fields st id info name email etag :
  let c := upsert_row st id info name email etag in
  c_info c = Some info ∧ c_name c = name ∧ c_email c = email ∧ c_etag c = etag.
Proof. done. Qed.

Lemma upsert_row_hidden st id info name email etag :
  c_hidden (upsert_row st id info name email etag)
  = match find_contact st id with Some old => c_hidden old | None => false end.
Proof. unfold upsert_row. by destruct (find_contact st id). Qed.

(** The rows of the loop are the non-empty entries of the list, each
    built for its own position. *)
Lemma fan_out_positions st baseId info name etag i emails :
  fan_out st baseId info name etag i emails
  = omap (λ p, if Str.empty p.2 then None
               else Some (upsert_row st (row_id baseId p.1) info name p.2 etag))
         (imap (λ j email, (i + j, email)) emails).
Proof.
  revert i. induction emails as [|email rest IH]; intros i; [done|].
  cbn [fan_out imap omap]. rewrite Nat.add_0_r. simpl.
  rewrite IH. 
  assert (imap ((λ j email0, (i + j, email0)) ∘ S) rest = imap (λ j email0, (S i + j, email0)) rest) as ->.
  { apply imap_ext. intros. simpl. f_equal. lia. }
  by destruct (Str.empty email).
Qed.

Lemma fan_out_all_nonempty st baseId info name etag i emails :
  Forall (λ e, e ≠ EmptyString) emails →
  fan_out st baseId info name etag i emails
  = imap (λ j email, upsert_row st (row_id baseId (i + j)) info name email etag) emails.
Proof.
  intros H. revert i. induction H as [|email rest He _ IH]; intros i; [done|].
  cbn [fan_out imap]. unfold Str.empty. rewrite bool_decide_eq_false_2 by done.
  rewrite Nat.add_0_r. f_equal. rewrite IH. apply imap_ext. intros. simpl. do 2 f_equal. lia.
Qed.

Lemma fan_out_nil_iff st baseId info name etag i emails :
  fan_out st baseId info name etag i emails = [] ↔ Forall (λ e, e = EmptyString) emails.
Proof.
  revert i. induction emails as [|email rest IH]; intros i; simpl; [done|].
  unfold Str.empty. case_bool_decide.
  - rewrite IH. rewrite Forall_cons. tauto.
  - split; [done|]. by intros [? _]%Forall_cons.
Qed.
End FanOutFacts.

Section IngestTheorems.
Context {W : Worker}.


(** An item that is not skipped is fanned out over the e-mails of its
    card. *)
Lemma ingest_rows_fan_out st node g :
  n_address_data node ≠ EmptyString →
  vc_incomplete (parseVCard (n_address_data node)) = false →
  let vcard := parseVCard (n_address_data node) in
  ing_rows (ingestAddressDataNode st node g)
  = fan_out st (base_id (vc_uid vcard) (n_href node))
            (build_info (n_address_data node) (n_href node) vcard)
            (display_name vcard) (n_etag node) 0 (vc_emails vcard).
Proof.
  intros Htext Hinc. cbv zeta. unfold ingestAddressDataNode.
  rewrite bool_decide_eq_false_2 by done. rewrite Hinc.
  case_bool_decide as Hem; [|done]. by rewrite Hem.
Qed.

(** C5.  A complete card with unique id U and the three non-empty
    e-mails a, b, c is ingested into exactly three rows, in this order:
    ids ext-S-U, ext-S-U-1 and ext-S-U-2, e-mails a, b and c, and on all
    three the same name, the item's etag and the same info blob, made of
    the raw card text, the href and the photo when there is a non-empty
    one.  A row that was not in the store before is fresh apart from
    these fields, so two such rows differ in id and e-mail only. *)
Theorem fan_out_three st node g a b c U :
  store_wf st →
  n_address_data node ≠ EmptyString →
  vc_incomplete (parseVCard (n_address_data node)) = false →
  vc_emails (parseVCard (n_address_data node)) = [a; b; c] →
  a ≠ EmptyString → b ≠ EmptyString → c ≠ EmptyString →
  vc_uid (parseVCard (n_address_data node)) = U → U ≠ EmptyString →
  let vcard := parseVCard (n_address_data node) in
  let base := "ext-" +:+ sourceId cfg +:+ "-" +:+ U in
  ∃ r0 r1 r2 info,
    ing_rows (ingestAddressDataNode st node g) = [r0; r1; r2]
    ∧ c_id r0 = base ∧ c_id r1 = base +:+ "-1" ∧ c_id r2 = base +:+ "-2"
    ∧ c_email r0 = a ∧ c_email r1 = b ∧ c_email r2 = c
    ∧ Forall (λ r, c_name r = display_name vcard ∧ c_info r = Some info
                   ∧ c_etag r = n_etag node) [r0; r1; r2]
    ∧ info_vcf info = n_address_data node
    ∧ info_href info = n_href node
    ∧ (∀ p, info_photo info = Some p ↔ vc_photo vcard = Some p ∧ p ≠ EmptyString)
    ∧ Forall (λ r, find_contact st (c_id r) = None →
                   r = mkContact (c_id r) (accountId cfg) EmptyString (c_email r)
                                 (display_name vcard) (Some info) (n_etag node) false
                                 CONTACT_MAX_REFS EXTERNAL_CARDDAV_SOURCE) [r0; r1; r2].
Proof.
  intros Hwf Htext Hinc Hemails Ha Hb Hc Huid HU vcard base.
  rewrite ingest_rows_fan_out by done.
  rewrite Hemails, Huid.
  assert (base_id U (n_href node) = base) as ->.
  { unfold base_id, Str.empty. by rewrite bool_decide_eq_false_2. }
  cbn [fan_out]. unfold Str.empty.
  rewrite !bool_decide_eq_false_2 by done.
  eexists _, _, _, (build_info (n_address_data node) (n_href node) vcard).
  split; [reflexivity|].
  rewrite !upsert_row_id by done.
  split_and!; try done.
  - by repeat constructor.
  - intros p. unfold build_info. simpl. destruct (vc_photo vcard) as [q|]; [|naive_solver].
    unfold Str.empty. case_bool_decide; naive_solver.
  - repeat constructor; intros Hf; rewrite upsert_row_id in Hf |- * by done;
      unfold upsert_row; by rewrite Hf.
Qed.

Lemma fan_out_ids st baseId info name etag i emails :
  store_wf st →
  (λ r, (c_id r, c_email r)) <$> fan_out st baseId info name etag i emails
  = omap (λ p, if Str.empty p.2 then None else Some (row_id baseId p.1, p.2))
         (imap (λ j email, (i + j, email)) emails).
Proof.
  intros Hwf. revert i. induction emails as [|email rest IH]; intros i; [done|].
  cbn [fan_out imap omap list_omap]. rewrite Nat.add_0_r. cbn [fst snd].
  assert (imap ((λ j e, (i + j, e)) ∘ S) rest = imap (λ j e, (S i + j, e)) rest) as ->.
  { apply imap_ext. intros. simpl. f_equal. lia. }
  destruct (Str.empty email); [apply IH|].
  rewrite fmap_cons, IH, upsert_row_id by done. done.
Qed.

Lemma fan_out_suffixed st baseId info name etag i emails :
  store_wf st → i ≠ 0 →
  Forall (λ r, c_id r ≠ baseId) (fan_out st baseId info name etag i emails).
Proof.
  intros Hwf. revert i. induction emails as [|email rest IH]; intros i Hi; [constructor|].
  cbn [fan_out]. destruct (Str.empty email); [by apply IH|].
  constructor; [|by apply IH]. rewrite upsert_row_id by done. by apply row_id_neq_base.
Qed.

(** C10.  The rows of an ingested item, read as (id, e-mail) pairs, are
    the non-empty entries of the card's e-mail list, in order, each with
    the id of its position in the full list: the base id at position 0,
    the base id followed by "-i" at position i > 0, which is never the
    base id.  An empty entry yields no row and keeps its index, and when
    the first entry is empty no row carries the base id. *)
Theorem suffix_is_position st node g :
  store_wf st →
  n_address_data node ≠ EmptyString →
  vc_incomplete (parseVCard (n_address_data node)) = false →
  let vcard := parseVCard (n_address_data node) in
  let base := base_id (vc_uid vcard) (n_href node) in
  let rows := ing_rows (ingestAddressDataNode st node g) in
  (λ r, (c_id r, c_email r)) <$> rows
  = omap (λ p, if Str.empty p.2 then None else Some (row_id base p.1, p.2))
         (imap (λ i email, (i, email)) (vc_emails vcard))
  ∧ row_id base 0 = base
  ∧ (∀ i, i ≠ 0 →
       row_id base i = base +:+ "-" +:+ Str.to_string i ∧ row_id base i ≠ base)
  ∧ (head (vc_emails vcard) = Some EmptyString → base ∉ c_id <$> rows).
Proof.
  intros Hwf Htext Hinc vcard base rows. unfold rows.
  rewrite ingest_rows_fan_out by done. fold vcard base.
  split; [by rewrite fan_out_ids|]. split; [done|]. split.
  - intros i Hi. split; [|by apply row_id_neq_base].
    unfold row_id. by rewrite bool_decide_eq_false_2.
  - destruct (vc_emails vcard) as [|email rest]; [done|]. intros [= ->].
    cbn [fan_out]. unfold Str.empty at 1. rewrite bool_decide_eq_true_2 by done.
    intros (r & Heq & Hin)%list_elem_of_fmap.
    pose proof (fan_out_suffixed st base
                  (build_info (n_address_data node) (n_href node) vcard)
                  (display_name vcard) (n_etag node) 1 rest Hwf) as Hall.
    rewrite Forall_forall in Hall. by apply (Hall ltac:(lia) r).
Qed.

Lemma ingest_skip_iff st node g :
  ing_rows (ingestAddressDataNode st node g) = []
  ↔ n_address_data node = EmptyString
    ∨ vc_incomplete (parseVCard (n_address_data node)) = true
    ∨ Forall (λ e, e = EmptyString) (vc_emails (parseVCard (n_address_data node))).
Proof.
  unfold ingestAddressDataNode.
  case_bool_decide as Htext; [simpl; tauto|].
  destruct (vc_incomplete _) eqn:Hinc; [simpl; tauto|].
  case_bool_decide as Hem.
  - simpl. rewrite Hem. split; [|done]. intros _. do 2 right. constructor.
  - simpl. rewrite fan_out_nil_iff. naive_solver.
Qed.

Lemma ingest_log_cases st node g :
  let text := n_address_data node in
  let ing := ingestAddressDataNode st node g in
  (text = EmptyString →
   ing_log ing = [EvLog Info_ ("Received addressbook entry " +:+ n_etag node
                               +:+ " with an empty body")])
  ∧ (text ≠ EmptyString → vc_incomplete (parseVCard text) = true →
     ing_log ing = [EvLog Info_ ("Unable to decode vcard: " +:+ text)])
  ∧ (text ≠ EmptyString → vc_incomplete (parseVCard text) = false → ing_log ing = []).
Proof.
  cbv zeta. unfold ingestAddressDataNode.
  case_bool_decide as Htext; [simpl; split_and!; done|].
  destruct (vc_incomplete _) eqn:Hinc; [simpl; split_and!; done|].
  case_bool_decide as Hem; simpl; split_and!; done.
Qed.
End IngestTheorems.

(** ** Traces *)

Lemma requests_of_app tr1 tr2 : requests_of (tr1 ++ tr2) = requests_of tr1 ++ requests_of tr2.
Proof. induction tr1 as [|[] tr1 IH]; simpl; congruence. Qed.
Lemma deletes_of_app tr1 tr2 : deletes_of (tr1 ++ tr2) = deletes_of tr1 ++ deletes_of tr2.
Proof. induction tr1 as [|[] tr1 IH]; simpl; congruence. Qed.
Lemma saves_of_app tr1 tr2 : saves_of (tr1 ++ tr2) = saves_of tr1 ++ saves_of tr2.
Proof. induction tr1 as [|[] tr1 IH]; simpl; congruence. Qed.

Lemma row_events_quiet tr :
  Forall row_event tr →
  requests_of tr = [] ∧ deletes_of tr = [] ∧ (EvBegin ∉ tr) ∧ (EvCommit ∉ tr) ∧ (EvRollback ∉ tr).
Proof.
  induction 1 as [|ev tr Hev _ (IH1 & IH2 & IH3 & IH4 & IH5)]; simpl.
  - split_and!; try done; apply not_elem_of_nil.
  - destruct ev; try done; simpl; split_and!; try done;
    rewrite elem_of_cons; intros [?|?]; done.
Qed.

Lemma saves_of_fmap cs : saves_of (EvSave <$> cs) = cs.
Proof. induction cs as [|c cs IH]; [done|]. rewrite fmap_cons. cbn [saves_of]. by rewrite IH. Qed.

Lemma deletes_of_fmap b es : deletes_of (EvDelete b <$> es) = (λ e, (b, e)) <$> es.
Proof. induction es as [|e es IH]; [done|]. rewrite !fmap_cons. cbn [deletes_of]. by rewrite IH. Qed.

Lemma saves_of_deletes b es : saves_of (EvDelete b <$> es) = [].
Proof. by induction es. Qed.

Lemma requests_of_deletes b es : requests_of (EvDelete b <$> es) = [].
Proof. by induction es. Qed.

Create Rewrite HintDb trace.
#[global] Hint Rewrite requests_of_app deletes_of_app saves_of_app
  requests_of_deletes deletes_of_fmap saves_of_deletes saves_of_fmap : trace.
#[global] Hint Rewrite @app_nil_r @app_nil_l : trace.

Ltac trace_simpl :=
  repeat (progress (autorewrite with trace; cbn [requests_of deletes_of saves_of app])).

Lemma delete_count_app tr1 tr2 b e :
  delete_count (tr1 ++ tr2) b e = delete_count tr1 b e + delete_count tr2 b e.
Proof. unfold delete_count. by rewrite filter_app, length_app. Qed.

Lemma delete_count_deletes_of tr b e :
  delete_count tr b e = length (filter (λ p, p = (b, e)) (deletes_of tr)).
Proof.
  unfold delete_count. induction tr as [|ev tr IH]; [done|].
  rewrite filter_cons. destruct (decide (ev = EvDelete b e)) as [->|Hne].
  - simpl. rewrite filter_cons, decide_True by done. simpl. by f_equal.
  - destruct ev; simpl; try apply IH.
    rewrite filter_cons, decide_False by congruence. apply IH.
Qed.

Lemma filter_eq_absent {A} `{EqDecision A} (l : list A) x :
  x ∉ l → filter (λ y, y = x) l = [].
Proof.
  induction l as [|y l IH]; [done|].
  rewrite not_elem_of_cons. intros [Hne Hnin].
  rewrite filter_cons, decide_False by congruence. auto.
Qed.

Lemma count_NoDup_one {A} `{EqDecision A} (l : list A) x :
  NoDup l → x ∈ l → length (filter (λ y, y = x) l) = 1.
Proof.
  induction 1 as [|y l Hy Hnd IH]; [by intros ?%elem_of_nil|].
  rewrite filter_cons, elem_of_cons. case_decide as Heq.
  - subst y. intros _. simpl. by rewrite filter_eq_absent.
  - intros [->|Hin]; [done | auto].
Qed.

Lemma count_NoDup_le {A} `{EqDecision A} (l : list A) x :
  NoDup l → length (filter (λ y, y = x) l) ≤ 1.
Proof.
  intros Hnd. destruct (decide (x ∈ l)) as [Hin|Hnin].
  - by rewrite count_NoDup_one.
  - rewrite filter_eq_absent by done. simpl. lia.
Qed.

(** ** Strings, request bodies and the listing *)

Lemma string_app_nil_l (t : string) : EmptyString +:+ t = t.
Proof. done. Qed.

Lemma string_app_cons (c : ascii) (s t : string) : String c s +:+ t = String c (s +:+ t).
Proof. done. Qed.

Lemma string_app_assoc (a b c : string) : (a +:+ b) +:+ c = a +:+ (b +:+ c).
Proof. induction a as [|x a IH]; [done|]. by rewrite !string_app_cons, IH. Qed.

Lemma string_app_empty_r (a : string) : a +:+ EmptyString = a.
Proof. induction a as [|x a IH]; [done|]. by rewrite string_app_cons, IH. Qed.

Lemma string_app_inv_l (a b c : string) : a +:+ b = a +:+ c → b = c.
Proof. induction a as [|x a IH]; [done|]. rewrite !string_app_cons. intros [= H]. auto. Qed.

Lemma hrefs_payload_from (acc : string) (chunk : list string) :
  foldl (λ payload href, payload +:+ ("<d:href>" +:+ href +:+ "</d:href>")) acc chunk
  = acc +:+ hrefs_payload chunk.
Proof.
  unfold hrefs_payload. revert acc. induction chunk as [|h chunk IH]; intros acc.
  - simpl. by rewrite string_app_empty_r.
  - cbn [foldl]. rewrite IH, (IH (EmptyString +:+ _)), string_app_nil_l.
    by rewrite string_app_assoc.
Qed.

Lemma hrefs_payload_cons (h : string) (chunk : list string) :
  hrefs_payload (h :: chunk)
  = "<d:href>" +:+ h +:+ "</d:href>" +:+ hrefs_payload chunk.
Proof.
  unfold hrefs_payload at 1. cbn [foldl]. rewrite hrefs_payload_from, string_app_nil_l.
  by rewrite !string_app_assoc.
Qed.

(** *** C strings *)

Lemma c_str_idem (s : string) : c_str (c_str s) = c_str s.
Proof.
  induction s as [|c s IH]; [done|]. cbn [c_str].
  case_bool_decide as Hc; [done|]. cbn [c_str]. by rewrite bool_decide_eq_false_2, IH.
Qed.

Lemma c_str_app (a b : string) : c_str a = a → c_str (a +:+ b) = a +:+ c_str b.
Proof.
  induction a as [|c a IH]; [done|]. rewrite !string_app_cons. cbn [c_str].
  case_bool_decide; [done|]. intros [= Ha]. by rewrite IH.
Qed.

Lemma c_str_app_whole (a b : string) : c_str a = a → c_str b = b → c_str (a +:+ b) = a +:+ b.
Proof. intros Ha Hb. by rewrite c_str_app, Hb. Qed.

Lemma c_str_hrefs_payload (chunk : list string) :
  Forall (λ href, c_str href = href) chunk → c_str (hrefs_payload chunk) = hrefs_payload chunk.
Proof.
  induction chunk as [|h chunk IH] using rev_ind; [done|].
  intros [Hc Hh]%Forall_app. apply Forall_inv in Hh.
  unfold hrefs_payload. rewrite foldl_app. cbn [foldl]. fold (hrefs_payload chunk).
  apply c_str_app_whole; [by apply IH|].
  apply c_str_app_whole; [by vm_compute|]. apply c_str_app_whole; [exact Hh|by vm_compute].
Qed.

Lemma c_str_multiget_body (chunk : list string) :
  Forall (λ href, c_str href = href) chunk → c_str (multiget_body chunk) = multiget_body chunk.
Proof.
  intros Hc. unfold multiget_body.
  apply c_str_app_whole; [by vm_compute|].
  apply c_str_app_whole; [by apply c_str_hrefs_payload|by vm_compute].
Qed.

(** *** The remote listing *)

Lemma remote_of_snoc (nodes : list ResponseNode) (node : ResponseNode) :
  remote_of (mkDavXML EmptyString (nodes ++ [node]))
  = <[c_str (n_etag node) := c_str (n_href node)]> (remote_of (mkDavXML EmptyString nodes)).
Proof. unfold remote_of. simpl. by rewrite foldl_app. Qed.

Lemma remote_of_responses (doc : DavXML) :
  remote_of doc = remote_of (mkDavXML EmptyString (dx_responses doc)).
Proof. done. Qed.

Lemma dom_remote_of (doc : DavXML) :
  dom (remote_of doc) = list_to_set ((λ node, c_str (n_etag node)) <$> dx_responses doc).
Proof.
  rewrite remote_of_responses. generalize (dx_responses doc). intros nodes. cbn [dx_responses].
  induction nodes as [|node nodes IH] using rev_ind; [done|].
  rewrite remote_of_snoc, dom_insert_L, IH, fmap_app, list_to_set_app_L.
  cbn [fmap list_fmap list_to_set]. rewrite (right_id_L ∅ (∪)). apply (comm_L (∪)).
Qed.

Lemma remote_of_values (doc : DavXML) e h : remote_of doc !! e = Some h → c_str h = h.
Proof.
  rewrite remote_of_responses. generalize (dx_responses doc). intros nodes. revert h.
  induction nodes as [|node nodes IH] using rev_ind; intros h; [done|].
  rewrite remote_of_snoc, lookup_insert. case_decide.
  - intros [= <-]. apply c_str_idem.
  - apply IH.
Qed.

Lemma elem_of_concat {A} (ls : list (list A)) (l : list A) x :
  l ∈ ls → x ∈ l → x ∈ concat ls.
Proof.
  induction ls as [|l0 ls IH]; [by intros ?%elem_of_nil|].
  intros [->|Hin]%elem_of_cons Hx; cbn [concat]; apply elem_of_app; auto.
Qed.

Lemma elem_of_chunksOfVector {A} (v : list A) (chunk : list A) x :
  chunk ∈ chunksOfVector v 90 → x ∈ chunk → x ∈ v.
Proof.
  intros Hc Hx. rewrite <- (chunks_fuel_concat (length v) v 90) by lia.
  by eapply elem_of_concat.
Qed.

(** The hrefs asked for come out of the listing, cut at a NUL. *)
Lemma needed_chunk_hrefs (doc : DavXML) (local : gmap ETAG bool) (chunk : list string) :
  chunk ∈ chunksOfVector (compute_needed (remote_of doc) local) 90 →
  Forall (λ href, c_str href = href ∧ ∃ e, remote_of doc !! e = Some href ∧ e ∉ dom local)
         chunk.
Proof.
  intros Hchunk. apply Forall_forall. intros href Hin.
  pose proof (elem_of_chunksOfVector _ _ _ Hchunk Hin) as Hneeded.
  apply elem_of_compute_needed in Hneeded as (e & He & Hne).
  split; [by eapply remote_of_values|eauto].
Qed.

(** *** The href elements of a body *)

(** The opening tag counts for one and nothing in it starts another. *)
Lemma occurrences_open_tag (x : string) :
  occurrences "<d:href>" ("<d:href>" +:+ x) = S (occurrences "<d:href>" x).
Proof. rewrite !string_app_cons, string_app_nil_l. destruct x; reflexivity. Qed.

Lemma occurrences_close_tag (x : string) :
  occurrences "<d:href>" ("</d:href>" +:+ x) = occurrences "<d:href>" x.
Proof. rewrite !string_app_cons, string_app_nil_l. destruct x; reflexivity. Qed.

Lemma occurrences_multiget_open (x : string) :
  occurrences "<d:href>" (MULTIGET_OPEN +:+ x) = occurrences "<d:href>" x.
Proof.
  assert (∃ s, MULTIGET_OPEN = s ∧ ∀ x, occurrences "<d:href>" (s +:+ x) = occurrences "<d:href>" x)
    as (s & -> & Hs); [|apply Hs].
  eexists. split; [vm_compute; reflexivity|].
  intros y. rewrite !string_app_cons, string_app_nil_l. destruct y; reflexivity.
Qed.

Lemma occurrences_multiget_close :
  occurrences "<d:href>" MULTIGET_CLOSE = 0.
Proof. reflexivity. Qed.

Lemma prefix_nil_l (x : string) : String.prefix EmptyString x = true.
Proof. by destruct x. Qed.

(** An opening tag cannot start in an href and end in the closing tag
    that follows it. *)
Lemma prefix_href_tail (h y : string) :
  h ≠ EmptyString →
  String.prefix "<d:href>" (h +:+ "</d:href>" +:+ y) = true →
  String.prefix "<d:href>" h = true.
Proof.
  intros Hne.
  assert (∀ a n1, a ≠ "<"%char →
            String.prefix (String a n1) ("</d:href>" +:+ y) = false) as Hclose.
  { intros a n1 Ha. rewrite !string_app_cons. cbn [String.prefix].
    by destruct (ascii_dec a "<"). }
  destruct h as [|c1 h]; [done|]. clear Hne.
  rewrite string_app_cons. cbn [String.prefix].
  destruct (ascii_dec "<" c1) as [<-|]; [|done].
  repeat (destruct h as [|c h];
          [rewrite string_app_nil_l, Hclose by done; done
          |rewrite string_app_cons; cbn [String.prefix];
           match goal with
           | |- context [ascii_dec ?a c] => destruct (ascii_dec a c) as [<-|]; [|done]
           end]).
  intros _. destruct h; reflexivity.
Qed.

Lemma occurrences_href (h x : string) :
  occurrences "<d:href>" h = 0 →
  occurrences "<d:href>" (h +:+ "</d:href>" +:+ x) = occurrences "<d:href>" x.
Proof.
  induction h as [|c h IH]; [intros _; apply occurrences_close_tag|].
  cbn [occurrences]. intros Hocc.
  assert (String.prefix "<d:href>" (String c h) = false ∧ occurrences "<d:href>" h = 0)
    as [Hp Hrest].
  { destruct (String.prefix "<d:href>" (String c h)); [done|]. split; [done|]. exact Hocc. }
  rewrite string_app_cons. cbn [occurrences]. rewrite <- string_app_cons.
  destruct (String.prefix "<d:href>" (String c h +:+ "</d:href>" +:+ x)) eqn:Hp'.
  { apply prefix_href_tail in Hp'; [congruence|done]. }
  rewrite IH by done. done.
Qed.

(** With hrefs that hold no opening tag of their own, the payload of a
    chunk has one opening tag per href. *)
Lemma occurrences_hrefs_payload (chunk : list string) (x : string) :
  Forall (λ href, occurrences "<d:href>" href = 0) chunk →
  occurrences "<d:href>" (hrefs_payload chunk +:+ x)
  = length chunk + occurrences "<d:href>" x.
Proof.
  induction 1 as [|h chunk Hh _ IH]; [done|].
  rewrite hrefs_payload_cons, !string_app_assoc, occurrences_open_tag.
  rewrite occurrences_href by done. by rewrite IH.
Qed.

Lemma occurrences_multiget_body (chunk : list string) :
  Forall (λ href, occurrences "<d:href>" href = 0) chunk →
  occurrences "<d:href>" (multiget_body chunk) = length chunk.
Proof.
  intros Hall. unfold multiget_body.
  rewrite occurrences_multiget_open, occurrences_hrefs_payload by done.
  rewrite occurrences_multiget_close. lia.
Qed.
(** ** The run *)

Section RunFacts.
Context {W : Worker}.


(** *** Saving the rows of one item *)

Lemma save_all_trace b g cs st :
  ∃ saved, (save_all b g cs st).1 = EvSave <$> saved
           ∧ saved `prefix_of` (prepare b g <$> cs).
Proof.
  revert st. induction cs as [|c cs IH]; intros st; simpl.
  - exists []. split; [done | apply prefix_nil].
  - destruct (save_fault (prepare b g c)).
    + exists []. split; [done | apply prefix_nil].
    + destruct (IH (save_contact st (prepare b g c))) as (saved & Htr & Hpre).
      destruct (save_all b g cs _) as [tr r]. simpl in *. subst tr.
      exists (prepare b g c :: saved). split; [done | by apply prefix_cons].
Qed.

Lemma save_all_ok b g cs st tr st' :
  save_all b g cs st = (tr, inr st') →
  tr = EvSave <$> (prepare b g <$> cs) ∧ st' = save_list st (prepare b g <$> cs).
Proof.
  revert st tr. induction cs as [|c cs IH]; intros st tr; simpl.
  - by intros [= <- <-].
  - destruct (save_fault (prepare b g c)); [done|].
    destruct (save_all b g cs _) as [tr1 r1] eqn:Hrec. intros [= <- ->].
    apply IH in Hrec as [-> ->]. done.
Qed.

Lemma save_all_no_fault b g cs st :
  (∀ c, save_fault c = None) → ∃ tr st', save_all b g cs st = (tr, inr st').
Proof.
  intros Hnf. revert st. induction cs as [|c cs IH]; intros st; simpl; [eauto|].
  rewrite Hnf. destruct (IH (save_contact st (prepare b g c))) as (tr & st' & ->). eauto.
Qed.

(** The saves stop at the first row the store refuses, with its message. *)
Lemma save_all_thrown b g cs st :
  (save_all b g cs st).2
  = match list_find (λ c, is_Some (save_fault c)) (prepare b g <$> cs) with
    | Some (_, c) => match save_fault c with
                     | Some what => inl what
                     | None => inr (save_list st (prepare b g <$> cs))
                     end
    | None => inr (save_list st (prepare b g <$> cs))
    end.
Proof.
  revert st. induction cs as [|c cs IH]; intros st; [done|].
  cbn [save_all fmap list_fmap list_find].
  destruct (save_fault (prepare b g c)) as [what|] eqn:Hf.
  - rewrite decide_True by eauto. cbn. by rewrite Hf.
  - rewrite decide_False by (by intros [? ?]).
    specialize (IH (save_contact st (prepare b g c))).
    destruct (save_all b g cs _) as [tr r]. cbn [snd] in *. rewrite IH.
    change (list_fmap Contact Contact (prepare b g) cs) with (prepare b g <$> cs).
    destruct (list_find _ (prepare b g <$> cs)) as [[i c']|]; done.
Qed.

Lemma ingest_log_row_events st node g : Forall row_event (ing_log (ingestAddressDataNode st node g)).
Proof.
  unfold ingestAddressDataNode. repeat case_match; simpl; repeat constructor.
Qed.

Lemma saves_of_ingest_log st node g : saves_of (ing_log (ingestAddressDataNode st node g)) = [].
Proof.
  unfold ingestAddressDataNode. repeat case_match; simpl; done.
Qed.

(** *** Lookups that throw *)

Lemma fan_out_thrown_empty baseId i emails :
  Forall (λ e, e = EmptyString) emails → fan_out_thrown baseId i emails = None.
Proof.
  intros Hall. revert i. induction Hall as [|e emails -> _ IH]; intros i; [done|].
  cbn [fan_out_thrown]. unfold Str.empty. rewrite bool_decide_eq_true_2 by done. apply IH.
Qed.

Lemma fan_out_thrown_no_fault baseId i emails :
  (∀ id, find_fault id = None) → fan_out_thrown baseId i emails = None.
Proof.
  intros Hnf. revert i. induction emails as [|e emails IH]; intros i; [done|].
  cbn [fan_out_thrown]. destruct (Str.empty e); [apply IH|]. rewrite Hnf. apply IH.
Qed.

(** An item that is skipped looks nothing up. *)
Lemma ingest_thrown_skipped st node g :
  ing_rows (ingestAddressDataNode st node g) = [] → ingest_thrown node = None.
Proof.
  intros [Htext|[Hinc|Hall]]%ingest_skip_iff; unfold ingest_thrown.
  - by rewrite bool_decide_eq_true_2.
  - case_bool_decide; [done|]. by rewrite Hinc.
  - case_bool_decide; [done|]. destruct (vc_incomplete _); [done|].
    by apply fan_out_thrown_empty.
Qed.

Lemma ingest_thrown_no_fault node :
  (∀ id, find_fault id = None) → ingest_thrown node = None.
Proof.
  intros Hnf. unfold ingest_thrown. case_bool_decide; [done|].
  destruct (vc_incomplete _); [done|]. by apply fan_out_thrown_no_fault.
Qed.

(** *** The visitor *)

Lemma visit_node_row_events b node st : Forall row_event (visit_node b node st).1.
Proof.
  unfold visit_node. destruct (ingest_thrown node); [constructor|].
  destruct (save_all_trace b (ing_isGroup (ingestAddressDataNode st node false))
              (ing_rows (ingestAddressDataNode st node false)) st) as (saved & Htr & _).
  destruct (save_all _ _ _ _) as [tr r]. simpl in *. subst tr.
  apply Forall_app. split; [apply ingest_log_row_events|].
  apply Forall_fmap, Forall_forall. done.
Qed.

Lemma visit_node_ok b node st tr st' :
  visit_node b node st = (tr, inr st') →
  let ing := ingestAddressDataNode st node false in
  saves_of tr = prepare b (ing_isGroup ing) <$> ing_rows ing
  ∧ st' = save_list st (saves_of tr).
Proof.
  unfold visit_node. destruct (ingest_thrown node); [done|].
  destruct (save_all _ _ _ _) as [tr1 r1] eqn:Hsave. intros [= <- ->].
  apply save_all_ok in Hsave as [-> ->]. simpl.
  rewrite saves_of_app, saves_of_ingest_log, saves_of_fmap. done.
Qed.

Lemma visit_node_ok_thrown b node st tr st' :
  visit_node b node st = (tr, inr st') → ingest_thrown node = None.
Proof. unfold visit_node. by destruct (ingest_thrown node). Qed.

Lemma visit_nodes_row_events b nodes st : Forall row_event (visit_nodes b nodes st).1.
Proof.
  revert st. induction nodes as [|node nodes IH]; intros st; simpl; [constructor|].
  pose proof (visit_node_row_events b node st) as H1.
  destruct (visit_node b node st) as [tr1 [msg|st1]]; simpl in *; [done|].
  specialize (IH st1). destruct (visit_nodes b nodes st1) as [tr2 r2]. simpl in *.
  by apply Forall_app.
Qed.

Lemma visit_nodes_ok b nodes st tr st' :
  visit_nodes b nodes st = (tr, inr st') → st' = save_list st (saves_of tr).
Proof.
  revert st tr. induction nodes as [|node nodes IH]; intros st tr; simpl.
  - by intros [= <- <-].
  - destruct (visit_node b node st) as [tr1 [msg|st1]] eqn:H1; [done|].
    destruct (visit_nodes b nodes st1) as [tr2 r2] eqn:H2. intros [= <- ->].
    apply visit_node_ok in H1 as [_ ->]. apply IH in H2 as ->.
    by rewrite saves_of_app, save_list_app.
Qed.

Lemma prepare_bookId b g c : c_bookId (prepare b g c) = b.
Proof. unfold prepare. by destruct g. Qed.

Lemma prepare_id b g c : c_id (prepare b g c) = c_id c.
Proof. unfold prepare. by destruct g. Qed.

Lemma prepare_etag b g c : c_etag (prepare b g c) = c_etag c.
Proof. unfold prepare. by destruct g. Qed.

Lemma visit_node_saves_book b node st :
  Forall (λ c, c_bookId c = b) (saves_of (visit_node b node st).1).
Proof.
  unfold visit_node. destruct (ingest_thrown node); [constructor|].
  destruct (save_all_trace b (ing_isGroup (ingestAddressDataNode st node false))
              (ing_rows (ingestAddressDataNode st node false)) st) as (saved & Htr & Hpre).
  destruct (save_all _ _ _ _) as [tr r]. simpl in *. subst tr.
  rewrite saves_of_app, saves_of_ingest_log, saves_of_fmap. simpl.
  destruct Hpre as [k Hk]. apply Forall_forall. intros c Hc.
  assert (c ∈ prepare b (ing_isGroup (ingestAddressDataNode st node false))
              <$> ing_rows (ingestAddressDataNode st node false)) as Hin.
  { rewrite Hk. apply elem_of_app. by left. }
  apply list_elem_of_fmap in Hin as (c0 & -> & _). apply prepare_bookId.
Qed.

Lemma visit_nodes_saves_book b nodes st :
  Forall (λ c, c_bookId c = b) (saves_of (visit_nodes b nodes st).1).
Proof.
  revert st. induction nodes as [|node nodes IH]; intros st; simpl; [constructor|].
  pose proof (visit_node_saves_book b node st) as H1.
  destruct (visit_node b node st) as [tr1 [msg|st1]]; simpl in *; [done|].
  specialize (IH st1). destruct (visit_nodes b nodes st1) as [tr2 r2]. simpl in *.
  rewrite saves_of_app. by apply Forall_app.
Qed.

(** *** The deletion statements *)

Lemma run_deletes_eq b del st :
  run_deletes b del st
  = (EvDelete b <$> deletes_done b del, delete_all b (deletes_done b del) st,
     delete_thrown b del).
Proof.
  revert st. induction del as [|e del IH]; intros st; [done|].
  cbn [run_deletes deletes_done delete_thrown]. destruct (delete_fault b e); [done|].
  by rewrite IH.
Qed.

Lemma delete_pass_eq b del st :
  delete_pass b del st
  = (EvDelete b <$> deletes_done b del, delete_all b (deletes_done b del) st,
     delete_thrown b del).
Proof. destruct del; [done|]. apply run_deletes_eq. Qed.

Lemma deletes_done_prefix b del : deletes_done b del `prefix_of` del.
Proof.
  induction del as [|e del IH]; [done|]. cbn [deletes_done].
  destruct (delete_fault b e); [apply prefix_nil | by apply prefix_cons].
Qed.

Lemma deletes_done_all b del : delete_thrown b del = None → deletes_done b del = del.
Proof.
  induction del as [|e del IH]; [done|]. cbn [deletes_done delete_thrown].
  destruct (delete_fault b e); [done|]. intros H. by rewrite IH.
Qed.

Lemma delete_thrown_no_fault b del :
  (∀ e, delete_fault b e = None) → delete_thrown b del = None.
Proof.
  intros Hnf. induction del as [|e del IH]; [done|]. cbn [delete_thrown]. by rewrite Hnf.
Qed.

(** The statement that throws is the first one the store refuses. *)
Lemma delete_thrown_first b del what :
  delete_thrown b del = Some what →
  ∃ pre e post, del = pre ++ e :: post ∧ deletes_done b del = pre
    ∧ Forall (λ e', delete_fault b e' = None) pre ∧ delete_fault b e = Some what.
Proof.
  induction del as [|e del IH]; [done|]. cbn [deletes_done delete_thrown].
  destruct (delete_fault b e) as [w|] eqn:Hf.
  - intros [= ->]. exists [], e, del. done.
  - intros Hthrown. destruct (IH Hthrown) as (pre & e' & post & Hsplit & Hdone & Hpre & He).
    exists (e :: pre), e', post.
    split_and!; [simpl; congruence | congruence | by constructor | done].
Qed.

(** *** One batch *)

Lemma apply_batch_eq ab del abDoc st :
  apply_batch ab del abDoc st
  = match begin_fault st with
    | Some what => ([], inl what)
    | None =>
        match delete_thrown (b_id ab) del with
        | Some what =>
            ([EvBegin] ++ (EvDelete (b_id ab) <$> deletes_done (b_id ab) del)
               ++ [EvRollback], inl what)
        | None =>
            let '(tr_nodes, r2) :=
              visit_nodes (b_id ab) (dx_responses abDoc) (delete_all (b_id ab) del st) in
            match r2 with
            | inl what =>
                ([EvBegin] ++ (EvDelete (b_id ab) <$> del) ++ tr_nodes ++ [EvRollback],
                 inl what)
            | inr st2 =>
                match commit_fault st2 with
                | Some what =>
                    ([EvBegin] ++ (EvDelete (b_id ab) <$> del) ++ tr_nodes
                       ++ [EvRollback], inl what)
                | None =>
                    ([EvBegin] ++ (EvDelete (b_id ab) <$> del) ++ tr_nodes
                       ++ [EvCommit], inr st2)
                end
            end
        end
    end.
Proof.
  unfold apply_batch. destruct (begin_fault st); [done|].
  rewrite delete_pass_eq. destruct (delete_thrown (b_id ab) del) eqn:Hdel; [done|].
  by rewrite (deletes_done_all _ _ Hdel).
Qed.

(** A batch that commits. *)
Lemma apply_batch_ok ab del abDoc st tr st2 :
  apply_batch ab del abDoc st = (tr, inr st2) →
  ∃ tr_nodes,
    tr = [EvBegin] ++ (EvDelete (b_id ab) <$> del) ++ tr_nodes ++ [EvCommit]
    ∧ visit_nodes (b_id ab) (dx_responses abDoc) (delete_all (b_id ab) del st)
      = (tr_nodes, inr st2)
    ∧ Forall row_event tr_nodes
    ∧ st2 = save_list (delete_all (b_id ab) del st) (saves_of tr_nodes)
    ∧ begin_fault st = None ∧ delete_thrown (b_id ab) del = None
    ∧ commit_fault st2 = None.
Proof.
  rewrite apply_batch_eq. destruct (begin_fault st); [done|].
  destruct (delete_thrown (b_id ab) del); [done|].
  pose proof (visit_nodes_row_events (b_id ab) (dx_responses abDoc)
                (delete_all (b_id ab) del st)) as Hrow.
  destruct (visit_nodes _ _ _) as [tr_nodes [what|s2]] eqn:Hvisit; [done|].
  destruct (commit_fault s2) eqn:Hc; [done|]. intros [= <- <-].
  exists tr_nodes. split_and!; try done. by apply visit_nodes_ok in Hvisit.
Qed.

(** What the trace of a batch holds, however the batch ends: no request,
    the deletions of a prefix of the stale list (of all of it once the
    visitor has been reached), and rows of the book. *)
Lemma apply_batch_trace ab del abDoc st :
  let tr := (apply_batch ab del abDoc st).1 in
  requests_of tr = []
  ∧ (∃ dels, dels `prefix_of` del ∧ deletes_of tr = (λ e, (b_id ab, e)) <$> dels
             ∧ (begin_fault st = None → delete_thrown (b_id ab) del = None → dels = del))
  ∧ Forall (λ c, c_bookId c = b_id ab) (saves_of tr).
Proof.
  rewrite apply_batch_eq. destruct (begin_fault st).
  { cbn [fst]. split_and!; [done| |constructor]. exists []. split; [apply prefix_nil|done]. }
  destruct (delete_thrown (b_id ab) del) eqn:Hdel.
  { cbn [fst]. trace_simpl. split_and!; [done| |constructor].
    exists (deletes_done (b_id ab) del). split; [apply deletes_done_prefix|done]. }
  pose proof (visit_nodes_row_events (b_id ab) (dx_responses abDoc)
                (delete_all (b_id ab) del st)) as Hrow.
  pose proof (visit_nodes_saves_book (b_id ab) (dx_responses abDoc)
                (delete_all (b_id ab) del st)) as Hbook.
  destruct (visit_nodes _ _ _) as [tr_nodes [what|s2]]; cbn [fst] in *;
    apply row_events_quiet in Hrow as (Hrq & Hd & _);
    [|destruct (commit_fault s2)]; cbn [fst]; trace_simpl; rewrite ?Hrq, ?Hd;
    (split_and!; [done| |by rewrite ?app_nil_r]); exists del; by rewrite ?app_nil_r.
Qed.

(** *** The batch loop *)

Lemma batch_loop_nil ab del st : batch_loop ab [] del st = ([], st, inr del).
Proof. done. Qed.

(** One unfolding of the loop. *)
Lemma batch_loop_cons ab chunk rest del st :
  batch_loop ab (chunk :: rest) del st
  = match PerformRequest (multiget_request ab chunk) with
    | inl msg => ([EvRequest (multiget_request ab chunk)], st, inl msg)
    | inr abDoc =>
        let '(tr_tx, r_tx) := apply_batch ab del abDoc st in
        match r_tx with
        | inl msg => ([EvRequest (multiget_request ab chunk)] ++ tr_tx, st, inl msg)
        | inr st2 =>
            let '(tr, st3, r3) := batch_loop ab rest [] st2 in
            ([EvRequest (multiget_request ab chunk)] ++ tr_tx ++ tr, st3, r3)
        end
    end.
Proof.
  cbn [batch_loop performXMLRequest].
  change (build_request (b_url ab) "REPORT" (multiget_body chunk) "1")
    with (multiget_request ab chunk).
  by destruct (PerformRequest (multiget_request ab chunk)) as [msg|abDoc].
Qed.

Lemma batch_loop_requests ab chunks del st :
  let '(tr, _, r) := batch_loop ab chunks del st in
  requests_of tr `prefix_of` (multiget_request ab <$> chunks)
  ∧ (is_thrown r = false → requests_of tr = multiget_request ab <$> chunks).
Proof.
  revert del st. induction chunks as [|chunk rest IH]; intros del st.
  - simpl. split; [apply prefix_nil | done].
  - rewrite batch_loop_cons.
    destruct (PerformRequest (multiget_request ab chunk)) as [msg|abDoc].
    { simpl. split; [|done]. apply prefix_cons, prefix_nil. }
    pose proof (apply_batch_trace ab del abDoc st) as (Hrq & _).
    destruct (apply_batch ab del abDoc st) as [tr_tx [msg|st2]]; cbn [fst] in Hrq.
    + split; [|done]. trace_simpl. rewrite Hrq. apply prefix_cons, prefix_nil.
    + specialize (IH [] st2). destruct (batch_loop ab rest [] st2) as [[tr st3] r3].
      trace_simpl. rewrite Hrq. cbn [app fmap list_fmap].
      destruct IH as [IH1 IH2]. split; [by apply prefix_cons|].
      intros Hr. by rewrite IH2.
Qed.

(** Once [deleted] has been cleared no later chunk deletes anything. *)
Lemma batch_loop_cleared_deletes ab chunks st :
  deletes_of (batch_loop ab chunks [] st).1.1 = [].
Proof.
  revert st. induction chunks as [|chunk rest IH]; intros st; [done|].
  rewrite batch_loop_cons.
  destruct (PerformRequest (multiget_request ab chunk)) as [msg|abDoc]; [done|].
  pose proof (apply_batch_trace ab [] abDoc st) as (_ & (dels & Hpre & Hdel & _) & _).
  apply prefix_nil_inv in Hpre as ->.
  destruct (apply_batch ab [] abDoc st) as [tr_tx [msg|st2]]; cbn [fst] in Hdel.
  - cbn [fst snd]. trace_simpl. by rewrite Hdel.
  - specialize (IH st2). destruct (batch_loop ab rest [] st2) as [[tr st3] r3].
    cbn [fst snd] in *. trace_simpl. by rewrite Hdel, IH.
Qed.

(** The deletions of the whole loop: those of a prefix of the stale list,
    all made in the first batch. *)
Lemma batch_loop_deletes ab chunks del st :
  ∃ dels, dels `prefix_of` del
    ∧ deletes_of (batch_loop ab chunks del st).1.1 = (λ e, (b_id ab, e)) <$> dels.
Proof.
  destruct chunks as [|chunk rest]; [exists []; split; [apply prefix_nil|done]|].
  rewrite batch_loop_cons.
  destruct (PerformRequest (multiget_request ab chunk)) as [msg|abDoc];
    [exists []; split; [apply prefix_nil|done]|].
  pose proof (apply_batch_trace ab del abDoc st) as (_ & (dels & Hpre & Hdel & _) & _).
  exists dels. split; [done|].
  destruct (apply_batch ab del abDoc st) as [tr_tx [msg|st2]]; cbn [fst] in Hdel.
  - cbn [fst snd]. trace_simpl. by rewrite Hdel.
  - pose proof (batch_loop_cleared_deletes ab rest st2) as Hrest.
    destruct (batch_loop ab rest [] st2) as [[tr st3] r3].
    cbn [fst snd] in *. trace_simpl. by rewrite Hdel, Hrest, app_nil_r.
Qed.

(** A loop that returns has committed every chunk: the store is the
    starting one with the stale list deleted and every save of the trace
    applied, and [deleted] comes back empty unless there was no chunk. *)
Lemma batch_loop_ok ab chunks del st tr st' del' :
  batch_loop ab chunks del st = (tr, st', inr del') →
  match chunks with
  | [] => tr = [] ∧ st' = st ∧ del' = del
  | _ => st' = save_list (delete_all (b_id ab) del st) (saves_of tr) ∧ del' = []
         ∧ deletes_of tr = (λ e, (b_id ab, e)) <$> del
  end.
Proof.
  revert del st tr. induction chunks as [|chunk rest IH]; intros del st tr.
  - by intros [= <- <- <-].
  - rewrite batch_loop_cons.
    destruct (PerformRequest (multiget_request ab chunk)) as [msg|abDoc]; [done|].
    destruct (apply_batch ab del abDoc st) as [tr_tx [msg|st2]] eqn:Htx; [done|].
    apply apply_batch_ok in Htx as (tr_nodes & -> & _ & Hrow & -> & _).
    apply row_events_quiet in Hrow as (_ & Hdel & _).
    pose proof (batch_loop_cleared_deletes ab rest
                  (save_list (delete_all (b_id ab) del st) (saves_of tr_nodes))) as Hrest.
    destruct (batch_loop ab rest [] _) as [[tr3 st3] r3] eqn:Hloop.
    intros [= <- <- ->]. apply IH in Hloop. cbn [fst] in Hrest.
    trace_simpl. rewrite Hdel, Hrest, ?app_nil_r. rewrite save_list_app.
    destruct rest as [|chunk' rest'].
    + destruct Hloop as (-> & -> & ->). done.
    + destruct Hloop as (-> & -> & _). done.
Qed.

(** A loop that throws leaves the store as the chunks before the failing
    one left it; the failing chunk failed at its fetch or in its
    transaction. *)
Lemma batch_loop_thrown ab chunks del st tr st' msg :
  batch_loop ab chunks del st = (tr, st', inl msg) →
  ∃ done_ chunk rest tr0 del0,
    chunks = done_ ++ chunk :: rest
    ∧ batch_loop ab done_ del st = (tr0, st', inr del0)
    ∧ tr0 `prefix_of` tr
    ∧ (PerformRequest (multiget_request ab chunk) = inl msg
       ∨ ∃ abDoc, PerformRequest (multiget_request ab chunk) = inr abDoc
                  ∧ (apply_batch ab del0 abDoc st').2 = inl msg).
Proof.
  revert del st tr. induction chunks as [|chunk rest IH]; intros del st tr; [done|].
  rewrite batch_loop_cons.
  destruct (PerformRequest (multiget_request ab chunk)) as [msg'|abDoc] eqn:Hrq.
  { intros [= <- <- <-]. exists [], chunk, rest, [], del.
    split_and!; [done..|apply prefix_nil|by left]. }
  destruct (apply_batch ab del abDoc st) as [tr_tx [msg'|st2]] eqn:Htx.
  { intros [= <- <- <-]. exists [], chunk, rest, [], del.
    split_and!; [done..|apply prefix_nil|]. right. exists abDoc. by rewrite Htx. }
  destruct (batch_loop ab rest [] st2) as [[tr3 st3] r3] eqn:Hloop.
  intros [= <- <- ->].
  apply IH in Hloop as (done_ & c & rest' & tr0 & del0 & -> & Hdone & Hpre & Hcause).
  exists (chunk :: done_), c, rest'. eexists _, del0. split; [done|].
  rewrite batch_loop_cons, Hrq, Htx, Hdone. split; [done|]. split; [|done].
  repeat (apply prefix_app || apply prefix_cons). done.
Qed.

(** And conversely: chunks that commit, then one that fails. *)
Lemma batch_loop_fails ab done_ chunk rest del st tr0 s del0 msg :
  batch_loop ab done_ del st = (tr0, s, inr del0) →
  (PerformRequest (multiget_request ab chunk) = inl msg
   ∨ ∃ abDoc, PerformRequest (multiget_request ab chunk) = inr abDoc
              ∧ (apply_batch ab del0 abDoc s).2 = inl msg) →
  ∃ tr, batch_loop ab (done_ ++ chunk :: rest) del st = (tr, s, inl msg).
Proof.
  revert del st tr0. induction done_ as [|c done_ IH]; intros del st tr0.
  - intros [= <- <- <-] Hcause. cbn [app]. rewrite batch_loop_cons.
    destruct Hcause as [->|(abDoc & -> & Htx)]; [eauto|].
    destruct (apply_batch ab del abDoc st) as [tr_tx r_tx]. cbn [snd] in Htx. subst r_tx.
    eauto.
  - rewrite <- app_comm_cons, !batch_loop_cons.
    destruct (PerformRequest (multiget_request ab c)) as [msg'|abDoc]; [done|].
    destruct (apply_batch ab del abDoc st) as [tr_tx [msg'|st2]]; [done|].
    destruct (batch_loop ab done_ [] st2) as [[tr1 s1] r1] eqn:Hdone.
    intros [= <- <- ->] Hcause.
    destruct (IH [] st2 tr1 Hdone Hcause) as (tr & ->). eauto.
Qed.

Lemma batch_loop_saves_book ab chunks del st :
  Forall (λ c, c_bookId c = b_id ab) (saves_of (batch_loop ab chunks del st).1.1).
Proof.
  revert del st. induction chunks as [|chunk rest IH]; intros del st; [constructor|].
  rewrite batch_loop_cons.
  destruct (PerformRequest (multiget_request ab chunk)) as [msg|abDoc]; [constructor|].
  pose proof (apply_batch_trace ab del abDoc st) as (_ & _ & Hsv).
  destruct (apply_batch ab del abDoc st) as [tr_tx [msg|st2]]; cbn [fst] in Hsv.
  - cbn [fst snd]. trace_simpl. done.
  - specialize (IH [] st2). destruct (batch_loop ab rest [] st2) as [[tr st3] r3].
    cbn [fst snd] in *. trace_simpl. by apply Forall_app.
Qed.

Lemma batch_loop_shape ab chunk rest del st tr st' del' :
  batch_loop ab (chunk :: rest) del st = (tr, st', inr del') →
  ∃ mid post,
    tr = EvRequest (multiget_request ab chunk) :: EvBegin
           :: (EvDelete (b_id ab) <$> del) ++ mid ++ EvCommit :: post
    ∧ Forall row_event mid ∧ deletes_of post = [].
Proof.
  rewrite batch_loop_cons.
  destruct (PerformRequest (multiget_request ab chunk)) as [msg|abDoc]; [done|].
  destruct (apply_batch ab del abDoc st) as [tr_tx [msg|st2]] eqn:Htx; [done|].
  apply apply_batch_ok in Htx as (tr_nodes & -> & _ & Hrow & _).
  pose proof (batch_loop_cleared_deletes ab rest st2) as Hrest.
  destruct (batch_loop ab rest [] st2) as [[tr3 st3] r3].
  intros [= <- <- ->]. exists tr_nodes, tr3. split_and!; [|done..].
  cbn [app]. by rewrite <- !app_assoc.
Qed.

(** *** runForAddressBook *)

Lemma chunksOfVector_nil_iff {A} (v : list A) : chunksOfVector v 90 = [] ↔ v = [].
Proof. unfold chunksOfVector. by destruct v. Qed.

Lemma runForAddressBook_unfold ab st :
  runForAddressBook ab st
  = match PerformRequest (query_request ab) with
    | inl msg => ([EvRequest (query_request ab)], st, inl msg)
    | inr etagsDoc =>
        match select_fault (b_id ab) with
        | Some msg => ([EvRequest (query_request ab)], st, inl msg)
        | None =>
            let remote := remote_of etagsDoc in
            let local := local_etags st (b_id ab) in
            let needed := compute_needed remote local in
            let deleted := compute_deleted remote local in
            let '(tr1, st1, r1) := batch_loop ab (chunksOfVector needed 90) deleted st in
            match r1 with
            | inl msg =>
                ([EvRequest (query_request ab)]
                   ++ [EvLog Info_ (counts_message remote local needed deleted)] ++ tr1,
                 st1, inl msg)
            | inr deleted' =>
                ([EvRequest (query_request ab)]
                   ++ [EvLog Info_ (counts_message remote local needed deleted)] ++ tr1
                   ++ (EvDelete (b_id ab) <$> deletes_done (b_id ab) deleted'),
                 delete_all (b_id ab) (deletes_done (b_id ab) deleted') st1,
                 match delete_thrown (b_id ab) deleted' with
                 | Some msg => inl msg
                 | None => inr (int_of_size (size remote))
                 end)
            end
        end
    end.
Proof.
  unfold runForAddressBook, performXMLRequest, findEtags.
  change (build_request (b_url ab) "REPORT" QUERY_BODY "1")
    with (query_request ab).
  destruct (PerformRequest (query_request ab)) as [msg|doc]; [done|].
  destruct (select_fault (b_id ab)); [done|].
  cbv zeta. destruct (batch_loop _ _ _ _) as [[tr1 st1] [msg|del']]; [done|].
  rewrite delete_pass_eq. by destruct (delete_thrown (b_id ab) del').
Qed.

(** What a run that returns has done. *)
Lemma runForAddressBook_ok ab st tr st' n :
  runForAddressBook ab st = (tr, st', inr n) →
  ∃ doc, PerformRequest (query_request ab) = inr doc
    ∧ let remote := remote_of doc in
      let local := local_etags st (b_id ab) in
      let deleted := compute_deleted remote local in
      n = int_of_size (size remote)
      ∧ st' = save_list (delete_all (b_id ab) deleted st) (saves_of tr)
      ∧ deletes_of tr = (λ e, (b_id ab, e)) <$> deleted
      ∧ Forall (λ c, c_bookId c = b_id ab) (saves_of tr).
Proof.
  rewrite runForAddressBook_unfold.
  destruct (PerformRequest (query_request ab)) as [msg|doc]; [done|].
  destruct (select_fault (b_id ab)); [done|].
  cbv zeta.
  pose proof (batch_loop_saves_book ab
    (chunksOfVector (compute_needed (remote_of doc) (local_etags st (b_id ab))) 90)
    (compute_deleted (remote_of doc) (local_etags st (b_id ab))) st) as Hbook.
  destruct (batch_loop _ _ _ _) as [[tr1 st1] [msg|del']] eqn:Hloop; [done|].
  destruct (delete_thrown (b_id ab) del') eqn:Hthrown; [done|].
  rewrite (deletes_done_all _ _ Hthrown).
  intros [= <- <- <-]. exists doc. split; [done|].
  apply batch_loop_ok in Hloop. cbn [fst snd] in Hbook.
  trace_simpl. split; [done|].
  destruct (chunksOfVector _ _).
  - destruct Hloop as (-> & -> & ->). trace_simpl. done.
  - destruct Hloop as (-> & -> & ->). trace_simpl. done.
Qed.

(** A run that returns met no refusal of the SELECT, and all its batches
    were committed. *)
Lemma runForAddressBook_ok_loop ab st tr st' n doc :
  PerformRequest (query_request ab) = inr doc →
  runForAddressBook ab st = (tr, st', inr n) →
  select_fault (b_id ab) = None
  ∧ ∃ tr1 st1 del',
      batch_loop ab
        (chunksOfVector (compute_needed (remote_of doc) (local_etags st (b_id ab))) 90)
        (compute_deleted (remote_of doc) (local_etags st (b_id ab))) st
      = (tr1, st1, inr del')
      ∧ delete_thrown (b_id ab) del' = None
      ∧ saves_of tr = saves_of tr1.
Proof.
  intros Hdoc. rewrite runForAddressBook_unfold, Hdoc.
  destruct (select_fault (b_id ab)); [done|]. cbv zeta.
  destruct (batch_loop _ _ _ _) as [[tr1 st1] [msg|del']] eqn:Hloop; [done|].
  destruct (delete_thrown (b_id ab) del') eqn:Hthrown; [done|].
  intros [= <- <- <-]. split; [done|]. exists tr1, st1, del'.
  split_and!; [done..|]. by trace_simpl.
Qed.

(** *** Store invariant *)

Lemma store_wf_batch_loop ab chunks del st :
  store_wf st → store_wf (batch_loop ab chunks del st).1.2.
Proof.
  intros Hwf. destruct (batch_loop ab chunks del st) as [[tr1 st1] [msg|del']] eqn:Hloop;
    cbn [fst snd].
  - apply batch_loop_thrown in Hloop as (done_ & c & rest & tr0 & del0 & _ & Hdone & _).
    apply batch_loop_ok in Hdone. destruct done_.
    + by destruct Hdone as (_ & -> & _).
    + destruct Hdone as (-> & _). by apply store_wf_save_list, store_wf_delete_all.
  - apply batch_loop_ok in Hloop. destruct chunks.
    + by destruct Hloop as (_ & -> & _).
    + destruct Hloop as (-> & _). by apply store_wf_save_list, store_wf_delete_all.
Qed.

Lemma store_wf_runForAddressBook ab st :
  store_wf st → store_wf (runForAddressBook ab st).1.2.
Proof.
  intros Hwf. rewrite runForAddressBook_unfold.
  destruct (PerformRequest (query_request ab)) as [msg|doc]; [done|].
  destruct (select_fault (b_id ab)); [done|]. cbv zeta.
  pose proof (store_wf_batch_loop ab
    (chunksOfVector (compute_needed (remote_of doc) (local_etags st (b_id ab))) 90)
    (compute_deleted (remote_of doc) (local_etags st (b_id ab))) st Hwf) as Hloop.
  destruct (batch_loop _ _ _ _) as [[tr1 st1] [msg|del']]; cbn [fst snd] in *; [done|].
  by apply store_wf_delete_all.
Qed.
(** *** Items that yield no row, and the group flag *)

Lemma ingest_not_skipped st node g :
  ing_rows (ingestAddressDataNode st node g) ≠ [] →
  let vcard := parseVCard (n_address_data node) in
  ing_isGroup (ingestAddressDataNode st node g) = isGroupCard vcard
  ∧ ing_rows (ingestAddressDataNode st node g)
    = fan_out st (base_id (vc_uid vcard) (n_href node))
              (build_info (n_address_data node) (n_href node) vcard)
              (display_name vcard) (n_etag node) 0 (vc_emails vcard).
Proof.
  unfold ingestAddressDataNode.
  case_bool_decide; [done|]. destruct (vc_incomplete _); [done|].
  case_bool_decide; done.
Qed.

Lemma visit_node_skipped b node st :
  ing_rows (ingestAddressDataNode st node false) = [] →
  ∃ tr, visit_node b node st = (tr, inr st) ∧ saves_of tr = [].
Proof.
  intros Hrows. unfold visit_node.
  rewrite (ingest_thrown_skipped st node false Hrows), Hrows. simpl.
  eexists. split; [done|]. rewrite app_nil_r. apply saves_of_ingest_log.
Qed.

Lemma visit_nodes_app b pre post st :
  visit_nodes b (pre ++ post) st
  = match visit_nodes b pre st with
    | (tr1, inl msg) => (tr1, inl msg)
    | (tr1, inr st1) =>
        let '(tr2, r2) := visit_nodes b post st1 in (tr1 ++ tr2, r2)
    end.
Proof.
  revert st. induction pre as [|node pre IH]; intros st.
  - simpl. by destruct (visit_nodes b post st).
  - simpl. destruct (visit_node b node st) as [tr1 [msg|st1]]; [done|].
    rewrite IH. destruct (visit_nodes b pre st1) as [tr2 [msg|st2]]; [done|].
    destruct (visit_nodes b post st2) as [tr3 r3]. by rewrite app_assoc.
Qed.

(** C8 (amended).  An item is ingested into no row exactly when its
    payload text is empty, its card is incomplete, or its card has no
    non-empty e-mail (no e-mail at all, or empty ones only).  The empty
    body and the incomplete card are each logged once at info level, the
    third case is silent.  Such an item changes nothing for the others:
    with or without it in the response, the visitor saves the same rows
    and ends in the same store, or fails with the same message. *)
Theorem skipped_items st node g :
  let text := n_address_data node in
  let vcard := parseVCard text in
  let ing := ingestAddressDataNode st node g in
  let skipped := text = EmptyString ∨ vc_incomplete vcard = true
                 ∨ Forall (λ e, e = EmptyString) (vc_emails vcard) in
  (ing_rows ing = [] ↔ skipped)
  ∧ (text = EmptyString →
     ing_log ing = [EvLog Info_ ("Received addressbook entry " +:+ n_etag node
                                 +:+ " with an empty body")])
  ∧ (text ≠ EmptyString → vc_incomplete vcard = true →
     ing_log ing = [EvLog Info_ ("Unable to decode vcard: " +:+ text)])
  ∧ (text ≠ EmptyString → vc_incomplete vcard = false → ing_log ing = [])
  ∧ (skipped → ∀ b pre post s,
       (visit_nodes b (pre ++ node :: post) s).2 = (visit_nodes b (pre ++ post) s).2
       ∧ saves_of (visit_nodes b (pre ++ node :: post) s).1
         = saves_of (visit_nodes b (pre ++ post) s).1).
Proof.
  intros text vcard ing skipped.
  split; [apply ingest_skip_iff|].
  destruct (ingest_log_cases st node g)
    as (H1 & H2 & H3).
  split; [done|]. split; [done|]. split; [done|].
  intros Hskip b pre post s. rewrite !visit_nodes_app.
  destruct (visit_nodes b pre s) as [tr1 [msg|s1]]; [done|].
  cbn [visit_nodes].
  destruct (visit_node_skipped b node s1) as (tr & -> & Htr).
  { by apply ingest_skip_iff. }
  destruct (visit_nodes b post s1) as [tr2 r2]. cbn [fst snd].
  split; [done|]. trace_simpl. by rewrite Htr.
Qed.

Lemma fan_out_rows st baseId info name etag i emails :
  Forall (λ r, ∃ id email, r = upsert_row st id info name email etag)
         (fan_out st baseId info name etag i emails).
Proof.
  revert i. induction emails as [|email rest IH]; intros i; [constructor|].
  cbn [fan_out]. destruct (Str.empty email); [apply IH|].
  constructor; [eauto | apply IH].
Qed.

(** C6 (amended).  Every row the visitor saves for an item is hidden
    when the card is a group card.  When it is not, the visitor leaves the
    flag alone: a row that was not in the store is saved visible, a row
    that was there keeps the flag it had.  Unless a save throws, the rows
    saved are all the rows ingested. *)
Theorem group_flag b node st c :
  store_wf st →
  c ∈ saves_of (visit_node b node st).1 →
  let vcard := parseVCard (n_address_data node) in
  (isGroupCard vcard = true → c_hidden c = true)
  ∧ (isGroupCard vcard = false →
     c_hidden c = match find_contact st (c_id c) with
                  | Some old => c_hidden old
                  | None => false
                  end)
  ∧ (is_thrown (visit_node b node st).2 = false →
     saves_of (visit_node b node st).1
     = prepare b (isGroupCard vcard) <$> ing_rows (ingestAddressDataNode st node false)).
Proof.
  intros Hwf Hin vcard.
  assert (ing_rows (ingestAddressDataNode st node false) ≠ []) as Hrows.
  { intros Hnil. destruct (visit_node_skipped b node st Hnil) as (tr & Heq & Htr).
    rewrite Heq in Hin. cbn [fst] in Hin. rewrite Htr in Hin. by apply elem_of_nil in Hin. }
  destruct (ingest_not_skipped st node false Hrows) as [Hg Hfan]. fold vcard in Hg, Hfan.
  assert (∃ r, r ∈ ing_rows (ingestAddressDataNode st node false)
               ∧ c = prepare b (isGroupCard vcard) r) as (r & Hr & ->).
  { revert Hin. unfold visit_node.
    destruct (ingest_thrown node); [by intros ?%elem_of_nil|]. rewrite Hg.
    destruct (save_all_trace b (isGroupCard vcard)
                (ing_rows (ingestAddressDataNode st node false)) st)
      as (saved & Htr & [k Hk]).
    destruct (save_all _ _ _ _) as [tr r0]. cbn [fst] in *. subst tr.
    trace_simpl. rewrite saves_of_ingest_log. cbn [app]. intros Hin.
    assert (c ∈ prepare b (isGroupCard vcard)
                <$> ing_rows (ingestAddressDataNode st node false)) as Hin'.
    { rewrite Hk. apply elem_of_app. by left. }
    apply list_elem_of_fmap in Hin' as (r & -> & Hr). eauto. }
  rewrite Hfan in Hr.
  pose proof (fan_out_rows st (base_id (vc_uid vcard) (n_href node))
                (build_info (n_address_data node) (n_href node) vcard)
                (display_name vcard) (n_etag node) 0 (vc_emails vcard)) as Hall.
  rewrite Forall_forall in Hall. destruct (Hall r Hr) as (id & email & ->).
  split_and!.
  - intros ->. done.
  - intros ->. rewrite prepare_id, upsert_row_id by done.
    unfold prepare. cbn [c_hidden setBookId]. apply upsert_row_hidden.
  - intros Hok. destruct (visit_node b node st) as [tr [msg|st']] eqn:Hvisit; [done|].
    apply visit_node_ok in Hvisit as [Hsaves _]. cbn [fst]. by rewrite Hsaves, Hg.
Qed.

(** *** Batch cap *)


(** *** Stale sweep *)

Lemma delete_count_prefix b tr (del dels : list ETAG) e :
  NoDup del → dels `prefix_of` del →
  deletes_of tr = (λ e, (b, e)) <$> dels →
  delete_count tr b e ≤ 1.
Proof.
  intros Hnd [k ->] Hdels. rewrite delete_count_deletes_of, Hdels.
  apply count_NoDup_le. apply NoDup_fmap_2; [by intros x y [= ->]|].
  by apply NoDup_app in Hnd as [? _].
Qed.

(** The sweep is run as soon as the first content fetch has answered and
    its transaction is open, or when there is no fetch to make, whatever
    happens later in the run, as long as no DELETE throws. *)
Lemma sweep_reached ab st doc :
  PerformRequest (query_request ab) = inr doc →
  select_fault (b_id ab) = None →
  let remote := remote_of doc in
  let local := local_etags st (b_id ab) in
  match chunksOfVector (compute_needed remote local) 90 with
  | [] => True
  | chunk :: _ => is_thrown (PerformRequest (multiget_request ab chunk)) = false
                  ∧ begin_fault st = None
  end →
  delete_thrown (b_id ab) (compute_deleted remote local) = None →
  deletes_of (runForAddressBook ab st).1.1
  = (λ e, (b_id ab, e)) <$> compute_deleted remote local.
Proof.
  intros Hdoc Hsel. cbv zeta. rewrite runForAddressBook_unfold, Hdoc, Hsel. cbv zeta.
  destruct (chunksOfVector _ 90) as [|chunk rest].
  { intros _ Hthrown. rewrite batch_loop_nil. cbn [fst]. trace_simpl.
    by rewrite (deletes_done_all _ _ Hthrown). }
  rewrite batch_loop_cons.
  destruct (PerformRequest (multiget_request ab chunk)) as [msg|abDoc]; [by intros []|].
  intros [_ Hbegin] Hthrown.
  pose proof (apply_batch_trace ab
                (compute_deleted (remote_of doc) (local_etags st (b_id ab))) abDoc st)
    as (_ & (dels & _ & Hdel & Hall) & _).
  rewrite (Hall Hbegin Hthrown) in Hdel. clear Hall.
  destruct (apply_batch _ _ _ _) as [tr_tx [msg|st2]]; cbn [fst] in Hdel.
  - cbn [fst]. trace_simpl. by rewrite Hdel.
  - pose proof (batch_loop_cleared_deletes ab rest st2) as Hrest.
    pose proof (batch_loop_ok ab rest [] st2) as Hok.
    destruct (batch_loop ab rest [] st2) as [[tr3 st3] [msg|del']]; cbn [fst] in *.
    + trace_simpl. by rewrite Hdel, Hrest, app_nil_r.
    + assert (del' = []) as ->.
      { specialize (Hok tr3 st3 del' eq_refl). destruct rest; naive_solver. }
      trace_simpl. by rewrite Hdel, Hrest, !app_nil_r.
Qed.

(** The deletions of any run are those of a prefix of [deleted]. *)
Lemma runForAddressBook_deletes ab st doc :
  PerformRequest (query_request ab) = inr doc →
  ∃ swept,
    swept `prefix_of` compute_deleted (remote_of doc) (local_etags st (b_id ab))
    ∧ deletes_of (runForAddressBook ab st).1.1 = (λ e, (b_id ab, e)) <$> swept.
Proof.
  intros Hdoc. rewrite runForAddressBook_unfold, Hdoc.
  destruct (select_fault (b_id ab)).
  { exists []. split; [apply prefix_nil|done]. }
  cbv zeta.
  set (chunks := chunksOfVector _ 90). set (deleted := compute_deleted _ _).
  pose proof (batch_loop_deletes ab chunks deleted st) as (dels & Hpre & Hdels).
  pose proof (batch_loop_ok ab chunks deleted st) as Hok.
  destruct (batch_loop ab chunks deleted st) as [[tr1 st1] [msg|del']]; cbn [fst] in *.
  { exists dels. split; [done|]. by trace_simpl. }
  specialize (Hok tr1 st1 del' eq_refl). destruct chunks as [|chunk rest].
  - destruct Hok as (-> & _ & ->). exists (deletes_done (b_id ab) deleted).
    split; [apply deletes_done_prefix|]. by trace_simpl.
  - destruct Hok as (_ & -> & Hall). exists deleted. split; [done|].
    trace_simpl. by rewrite Hall, ?app_nil_r.
Qed.

(** C3 (amended).  In any run the deletion statement of an etag executes
    at most once, and the statements executed are those of a prefix of the
    [deleted] list.  They are those of the whole list, each etag exactly
    once, as soon as the run gets past its first content fetch and opens
    the transaction, or has no fetch to make, even when a later failure
    aborts it, as long as no DELETE itself throws.  In a run that returns,
    the deletions executed are exactly those of the [deleted] list, each
    etag once: when [needed] is not empty they sit right after the BEGIN of
    the first transaction of the run and before its COMMIT, and nothing
    else is deleted before or after; when [needed] is empty no transaction
    is opened and they close the run. *)
Theorem stale_sweep_exactly_once ab st tr st' r :
  runForAddressBook ab st = (tr, st', r) →
  (∀ e, delete_count tr (b_id ab) e ≤ 1)
  ∧ (∀ doc, PerformRequest (query_request ab) = inr doc →
       let remote := remote_of doc in
       let local := local_etags st (b_id ab) in
       let deleted := compute_deleted remote local in
       (∃ swept, swept `prefix_of` deleted
                 ∧ deletes_of tr = (λ e, (b_id ab, e)) <$> swept)
       ∧ (select_fault (b_id ab) = None →
          match chunksOfVector (compute_needed remote local) 90 with
          | [] => True
          | chunk :: _ => is_thrown (PerformRequest (multiget_request ab chunk)) = false
                          ∧ begin_fault st = None
          end →
          delete_thrown (b_id ab) deleted = None →
          ∀ e, e ∈ deleted → delete_count tr (b_id ab) e = 1))
  ∧ (is_thrown r = false →
     ∃ doc, PerformRequest (query_request ab) = inr doc
       ∧ let remote := remote_of doc in
         let local := local_etags st (b_id ab) in
         let needed := compute_needed remote local in
         let deleted := compute_deleted remote local in
         deletes_of tr = (λ e, (b_id ab, e)) <$> deleted
         ∧ (∀ e, e ∈ deleted → delete_count tr (b_id ab) e = 1)
         ∧ (needed ≠ [] →
            ∃ pre mid post,
              tr = pre ++ EvBegin :: (EvDelete (b_id ab) <$> deleted)
                       ++ mid ++ EvCommit :: post
              ∧ (EvBegin ∉ pre) ∧ deletes_of pre = []
              ∧ Forall row_event mid ∧ deletes_of post = [])
         ∧ (needed = [] →
            (EvBegin ∉ tr)
            ∧ ∃ pre, tr = pre ++ (EvDelete (b_id ab) <$> deleted)
                     ∧ deletes_of pre = [])).
Proof.
  intros Hrun.
  assert (∀ del e, e ∈ del → NoDup del →
            deletes_of tr = (λ e, (b_id ab, e)) <$> del →
            delete_count tr (b_id ab) e = 1) as Hone.
  { intros del e He Hnd Hdels. rewrite delete_count_deletes_of, Hdels.
    apply count_NoDup_one.
    - by apply NoDup_fmap_2; [intros x y [= ->]|].
    - apply list_elem_of_fmap. eauto. }
  split; [|split].
  - intros e. destruct (PerformRequest (query_request ab)) as [msg|doc] eqn:Hdoc.
    { rewrite runForAddressBook_unfold, Hdoc in Hrun. injection Hrun as <- <- <-.
      rewrite delete_count_deletes_of. simpl. lia. }
    destruct (runForAddressBook_deletes ab st doc Hdoc) as (swept & Hpre & Hdels).
    rewrite Hrun in Hdels. cbn [fst] in Hdels.
    eapply delete_count_prefix; [apply NoDup_compute_deleted|exact Hpre|exact Hdels].
  - intros doc Hdoc remote local deleted. split.
    + destruct (runForAddressBook_deletes ab st doc Hdoc) as (swept & Hpre & Hdels).
      rewrite Hrun in Hdels. eauto.
    + intros Hsel Hfirst Hthrown e He.
      pose proof (sweep_reached ab st doc Hdoc Hsel Hfirst Hthrown) as Hsweep.
      rewrite Hrun in Hsweep. cbn [fst] in Hsweep.
      apply (Hone deleted); [done|apply NoDup_compute_deleted|done].
  - intros Hok. destruct r as [msg|n]; [done|].
    pose proof Hrun as Hrun'. apply runForAddressBook_ok in Hrun' as (doc & Hdoc & _ & _ & Hall & _).
    cbv zeta in Hall. exists doc. split; [done|]. cbv zeta.
    split; [done|]. split.
    { intros e He. apply (Hone _ e He); [apply NoDup_compute_deleted|done]. }
    rewrite runForAddressBook_unfold, Hdoc in Hrun.
    destruct (select_fault (b_id ab)); [done|]. cbv zeta in Hrun.
    set (remote := remote_of doc) in *. set (local := local_etags st (b_id ab)) in *.
    set (needed := compute_needed remote local) in *.
    set (deleted := compute_deleted remote local) in *.
    destruct (batch_loop _ _ _ _) as [[tr1 st1] [msg|del']] eqn:Hloop; [done|].
    destruct (delete_thrown (b_id ab) del') eqn:Hthrown; [done|].
    rewrite (deletes_done_all _ _ Hthrown) in Hrun.
    injection Hrun as Htr _ _. split.
    + intros Hne. destruct (chunksOfVector needed 90) as [|chunk rest] eqn:Hch.
      { exfalso. apply Hne. by apply chunksOfVector_nil_iff. }
      pose proof Hloop as Hok'. apply batch_loop_ok in Hok' as (_ & -> & _).
      apply batch_loop_shape in Hloop as (mid & post & -> & Hmid & Hpost).
      exists [EvRequest (query_request ab);
              EvLog Info_ (counts_message remote local needed deleted);
              EvRequest (multiget_request ab chunk)], mid, post.
      split_and!; try done.
      * rewrite <- Htr. simpl. by rewrite app_nil_r.
      * rewrite !elem_of_cons, elem_of_nil. naive_solver.
    + intros Hnil. assert (chunksOfVector needed 90 = []) as Hch
        by (by apply chunksOfVector_nil_iff). rewrite Hch in Hloop.
      injection Hloop as <- <- <-. rewrite <- Htr. split.
      * simpl. rewrite !elem_of_cons, list_elem_of_fmap. naive_solver.
      * by eexists [_; _].
Qed.
(** *** The top-level result *)

Lemma resolveAddressBook_eq st :
  resolveAddressBook st
  = match find_book_fault ("external-" +:+ sourceId cfg) with
    | Some what => ([], st, inl what)
    | None =>
        match save_book_fault (book_resolved st) with
        | Some what => ((resolveAddressBook st).1.1, st, inl what)
        | None => ((resolveAddressBook st).1.1, save_book st (book_resolved st),
                   inr (Some (book_resolved st)))
        end
    end.
Proof.
  unfold resolveAddressBook, book_resolved, book_before, performXMLRequest.
  fold propfind_request.
  destruct (find_book_fault _); [done|].
  destruct (PerformRequest propfind_request) as [what|doc];
    match goal with |- context [save_book_fault ?b] => destruct (save_book_fault b) end;
    done.
Qed.

Lemma b_url_book_resolved st : b_url (book_resolved st) = sourceUrl cfg.
Proof.
  unfold book_resolved. destruct (PerformRequest propfind_request); [done|].
  by case_bool_decide.
Qed.

(** [resolveAddressBook] throws only when the store refuses the lookup or
    the save of the book; it never returns a null pointer. *)
Lemma resolveAddressBook_cases st :
  (∃ tr what, resolveAddressBook st = (tr, st, inl what)
              ∧ (find_book_fault ("external-" +:+ sourceId cfg) = Some what
                 ∨ ∃ b, save_book_fault b = Some what))
  ∨ (∃ tr ab, resolveAddressBook st = (tr, save_book st ab, inr (Some ab))
              ∧ b_url ab = sourceUrl cfg).
Proof.
  rewrite resolveAddressBook_eq.
  destruct (find_book_fault _) eqn:Hfind; [left; eauto 10|].
  destruct (save_book_fault _) eqn:Hsave; [left; eauto 10|].
  right. eexists _, _. split; [done|]. apply b_url_book_resolved.
Qed.

Lemma int_of_size_small n : (Z.of_nat n < 2 ^ 31)%Z → int_of_size n = Z.of_nat n.
Proof.
  intros Hn. unfold int_of_size.
  rewrite Z.mod_small by lia. lia.
Qed.

(** *** Where a run can fail *)

Lemma visit_node_thrown b node s what :
  (visit_node b node s).2 = inl what
  ↔ ingest_thrown node = Some what
    ∨ (ingest_thrown node = None
       ∧ ∃ i c,
           list_find (λ c, is_Some (save_fault c))
                     (prepare b (ing_isGroup (ingestAddressDataNode s node false))
                        <$> ing_rows (ingestAddressDataNode s node false))
           = Some (i, c)
           ∧ save_fault c = Some what).
Proof.
  unfold visit_node. destruct (ingest_thrown node) as [w|].
  { cbn [snd]. split; [intros [= ->]; by left|]. intros [[= ->]|[? _]]; done. }
  pose proof (save_all_thrown b (ing_isGroup (ingestAddressDataNode s node false))
                (ing_rows (ingestAddressDataNode s node false)) s) as Hth.
  destruct (save_all _ _ _ _) as [tr r]. cbn [snd] in *. subst r.
  destruct (list_find _ _) as [[i c]|] eqn:Hfind.
  - destruct (save_fault c) as [w|] eqn:Hf.
    + split; [intros [= ->]; right; eauto|]. intros [?|(_ & i' & c' & [= <- <-] & Hw)]; [done|].
      congruence.
    + split; [done|]. intros [?|(_ & i' & c' & [= <- <-] & Hw)]; [done|]. congruence.
  - split; [done|]. intros [?|(_ & i' & c' & ? & _)]; done.
Qed.

Lemma visit_nodes_cons_ok b node nodes s tr1 s1 :
  visit_node b node s = (tr1, inr s1) →
  visit_nodes b (node :: nodes) s
  = (tr1 ++ (visit_nodes b nodes s1).1, (visit_nodes b nodes s1).2).
Proof.
  intros Hnode. cbn [visit_nodes]. rewrite Hnode.
  by destruct (visit_nodes b nodes s1).
Qed.

Lemma visit_nodes_fatal b nodes s what :
  (visit_nodes b nodes s).2 = inl what ↔ visit_fatal b nodes s what.
Proof.
  split.
  - revert s. induction nodes as [|node nodes IH]; intros s; [done|].
    destruct (visit_node b node s) as [tr1 [w|s1]] eqn:Hnode.
    + cbn [visit_nodes]. rewrite Hnode. cbn [snd]. intros [= ->].
      assert ((visit_node b node s).2 = inl what) as Hth by (by rewrite Hnode).
      apply visit_node_thrown in Hth as [Hfind|(Hfind & i & c & Hrow & Hsave)].
      * by apply (Fatal_find b (node :: nodes) s what [] node nodes [] s).
      * by apply (Fatal_save b (node :: nodes) s what [] node nodes [] s i c).
    + rewrite (visit_nodes_cons_ok _ _ _ _ _ _ Hnode). cbn [snd].
      intros Hrest. apply IH in Hrest.
      destruct Hrest as [pre n post tr s2 -> Hpre Hfind|pre n post tr s2 i c -> Hpre Hfind Hrow Hsave].
      * apply (Fatal_find b _ s what (node :: pre) n post (tr1 ++ tr) s2); [done| |done].
        rewrite (visit_nodes_cons_ok _ _ _ _ _ _ Hnode). by rewrite Hpre.
      * apply (Fatal_save b _ s what (node :: pre) n post (tr1 ++ tr) s2 i c); [done| |done..].
        rewrite (visit_nodes_cons_ok _ _ _ _ _ _ Hnode). by rewrite Hpre.
  - intros [pre node post tr s1 -> Hpre Hfind|pre node post tr s1 i c -> Hpre Hfind Hrow Hsave];
      rewrite visit_nodes_app, Hpre.
    + assert ((visit_node b node s1).2 = inl what) as Hth
        by (apply visit_node_thrown; by left).
      cbn [visit_nodes]. destruct (visit_node b node s1) as [tr1 r1].
      cbn [snd] in Hth. by subst r1.
    + assert ((visit_node b node s1).2 = inl what) as Hth
        by (apply visit_node_thrown; right; eauto).
      cbn [visit_nodes]. destruct (visit_node b node s1) as [tr1 r1].
      cbn [snd] in Hth. by subst r1.
Qed.

Lemma apply_batch_fatal ab del abDoc s what :
  (apply_batch ab del abDoc s).2 = inl what ↔ batch_fatal ab del abDoc s what.
Proof.
  rewrite apply_batch_eq. split.
  - destruct (begin_fault s) as [w|] eqn:Hbegin.
    { intros [= ->]. by apply Fatal_begin. }
    destruct (delete_thrown (b_id ab) del) as [w|] eqn:Hdel.
    { intros [= ->]. by apply Fatal_delete. }
    destruct (visit_nodes _ _ _) as [tr_nodes [w|s2]] eqn:Hvisit.
    { intros [= ->]. apply Fatal_visit; [done..|]. apply visit_nodes_fatal.
      by rewrite Hvisit. }
    destruct (commit_fault s2) as [w|] eqn:Hcommit; [|done].
    intros [= ->]. by apply (Fatal_commit ab del abDoc s what tr_nodes s2).
  - intros [Hbegin|Hbegin Hdel|Hbegin Hdel Hvisit|tr s2 Hbegin Hdel Hvisit Hcommit].
    + by rewrite Hbegin.
    + by rewrite Hbegin, Hdel.
    + rewrite Hbegin, Hdel. apply visit_nodes_fatal in Hvisit.
      destruct (visit_nodes _ _ _) as [tr_nodes r2]. cbn [snd] in Hvisit. by subst r2.
    + by rewrite Hbegin, Hdel, Hvisit, Hcommit.
Qed.

Lemma runForAddressBook_fatal ab st what s :
  (∃ tr, runForAddressBook ab st = (tr, s, inl what)) ↔ book_fatal ab st what s.
Proof.
  rewrite runForAddressBook_unfold. split.
  - intros [tr Hrun]. revert Hrun.
    destruct (PerformRequest (query_request ab)) as [msg|doc] eqn:Hdoc.
    { intros [= _ <- ->]. by apply Fatal_listing. }
    destruct (select_fault (b_id ab)) as [msg|] eqn:Hsel.
    { intros [= _ <- ->]. by apply (Fatal_select ab st what doc). }
    cbv zeta.
    destruct (batch_loop _ _ _ _) as [[tr1 st1] [msg|del']] eqn:Hloop.
    + intros [= _ <- ->].
      apply batch_loop_thrown in Hloop
        as (done_ & chunk & rest & tr0 & del0 & Hch & Hdone & _ & [Hrq|(abDoc & Hrq & Htx)]).
      * by apply (Fatal_fetch ab st what doc done_ chunk rest tr0 st1 del0).
      * apply (Fatal_batch ab st what doc done_ chunk rest tr0 st1 del0 abDoc); [done..|].
        by apply apply_batch_fatal.
    + destruct (delete_thrown (b_id ab) del') as [msg|] eqn:Hthrown; [|done].
      intros [= _ <- ->]. by apply (Fatal_sweep ab st what doc tr1 st1 del').
  - intros [Hdoc|doc Hdoc Hsel|doc done_ chunk rest tr0 s0 del0 Hdoc Hsel Hch Hdone Hrq
            |doc done_ chunk rest tr0 s0 del0 abDoc Hdoc Hsel Hch Hdone Hrq Htx
            |doc tr0 s0 del0 Hdoc Hsel Hloop Hthrown].
    + rewrite Hdoc. eauto.
    + rewrite Hdoc, Hsel. eauto.
    + rewrite Hdoc, Hsel. cbv zeta. rewrite Hch.
      destruct (batch_loop_fails ab done_ chunk rest _ st tr0 s0 del0 what Hdone) as (tr & ->);
        [by left|]. eauto.
    + rewrite Hdoc, Hsel. cbv zeta. rewrite Hch.
      destruct (batch_loop_fails ab done_ chunk rest _ st tr0 s0 del0 what Hdone) as (tr & ->).
      { right. exists abDoc. split; [done|]. by apply apply_batch_fatal. }
      eauto.
    + rewrite Hdoc, Hsel. cbv zeta. rewrite Hloop, Hthrown. eauto.
Qed.

Lemma run_fatal st what s :
  fatal st what s
  ↔ r_success (run st).2 = false ∧ r_error (run st).2 = what ∧ (run st).1.2 = s.
Proof.
  unfold run. rewrite resolveAddressBook_eq. split.
  - intros [Hfind|Hfind Hsave|s0 Hfind Hsave Hbook].
    + by rewrite Hfind.
    + by rewrite Hfind, Hsave.
    + rewrite Hfind, Hsave. apply runForAddressBook_fatal in Hbook as (tr & ->). done.
  - destruct (find_book_fault _) as [w|] eqn:Hfind.
    { cbn [fst snd r_success r_error]. intros (_ & <- & <-). by apply Fatal_find_book. }
    destruct (save_book_fault _) as [w|] eqn:Hsave.
    { cbn [fst snd r_success r_error]. intros (_ & <- & <-). by apply Fatal_save_book. }
    destruct (runForAddressBook _ _) as [[tr2 st2] [w|n]] eqn:Hrun;
      cbn [fst snd r_success r_error]; [|by intros []].
    intros (_ & <- & <-). apply Fatal_book; [done..|]. apply runForAddressBook_fatal. eauto.
Qed.

(** The message of a fatal failure is the message of a collaborator. *)
Lemma fan_out_thrown_source baseId i emails what :
  fan_out_thrown baseId i emails = Some what → ∃ id, find_fault id = Some what.
Proof.
  revert i. induction emails as [|e emails IH]; intros i; [done|].
  cbn [fan_out_thrown]. destruct (Str.empty e); [apply IH|].
  destruct (find_fault (row_id baseId i)) eqn:Hf; [|apply IH]. intros [= ->]. eauto.
Qed.

Lemma fatal_descriptive st what s : descriptive → fatal st what s → what ≠ EmptyString.
Proof.
  intros (Hrq & Hsv & Hsb & Hfd & Hfb & Hsel & Hdel & Hbeg & Hcom).
  assert (∀ b del, delete_thrown b del = Some what → what ≠ EmptyString) as Hdels.
  { intros b del (pre & e & post & _ & _ & _ & He)%delete_thrown_first. by eapply Hdel. }
  intros [Hfind|Hfind Hsave|s0 Hfind Hsave Hbook]; [by eapply Hfb|by eapply Hsb|].
  destruct Hbook as [Hdoc|doc Hdoc Hs|doc done_ chunk rest tr0 s1 del0 Hdoc Hs Hch Hdone Hq
                     |doc done_ chunk rest tr0 s1 del0 abDoc Hdoc Hs Hch Hdone Hq Htx
                     |doc tr0 s1 del0 Hdoc Hs Hloop Hthrown];
    [by eapply Hrq|by eapply Hsel|by eapply Hrq| |by eapply Hdels].
  destruct Htx as [Hb|Hb Hd|Hb Hd Hv|tr s2 Hb Hd Hv Hc];
    [by eapply Hbeg|by eapply Hdels| |by eapply Hcom].
  destruct Hv as [pre node post tr s2 _ _ Hth|pre node post tr s2 i c _ _ _ _ Hth];
    [|by eapply Hsv].
  unfold ingest_thrown in Hth. case_bool_decide; [done|].
  destruct (vc_incomplete _); [done|].
  apply fan_out_thrown_source in Hth as [id Hid]. by eapply Hfd.
Qed.

(** *** Convergence *)

Lemma nil_of_no_elem {A} (l : list A) : (∀ x, x ∉ l) → l = [].
Proof. destruct l as [|x l]; [done|]. intros H. destruct (H x). by left. Qed.

Lemma diff_empty_when_equal (remote : gmap ETAG string) (local : gmap ETAG bool) :
  dom local = dom remote →
  compute_needed remote local = [] ∧ compute_deleted remote local = [].
Proof.
  intros Hdom. split; apply nil_of_no_elem.
  - intros h [e [He Hn]]%elem_of_compute_needed. apply Hn. rewrite Hdom.
    apply elem_of_dom. eauto.
  - intros e [He Hn]%elem_of_compute_deleted. apply Hn. by rewrite <- Hdom.
Qed.

(** A run whose diff is empty asks for the listing and does nothing
    else. *)
Lemma runForAddressBook_idle ab st doc :
  PerformRequest (query_request ab) = inr doc →
  select_fault (b_id ab) = None →
  dom (local_etags st (b_id ab)) = dom (remote_of doc) →
  ∃ tr, runForAddressBook ab st = (tr, st, inr (int_of_size (size (remote_of doc))))
        ∧ requests_of tr = [query_request ab]
        ∧ saves_of tr = [] ∧ deletes_of tr = [].
Proof.
  intros Hdoc Hsel Hdom. rewrite runForAddressBook_unfold, Hdoc, Hsel. cbv zeta.
  destruct (diff_empty_when_equal _ _ Hdom) as [-> ->].
  eexists. split; [reflexivity|]. done.
Qed.

Lemma etags_after_run ab st saved remote :
  let b := b_id ab in
  let local := local_etags st b in
  let st' := save_list (delete_all b (compute_deleted remote local) st) saved in
  Forall (λ c, c_bookId c = b) saved →
  fetch_faithful remote local saved →
  no_clobber st b remote saved →
  dom (local_etags st' b) = dom remote.
Proof.
  intros b local st' Hbook [Hlisted Hcovered] [Hsame Hkept].
  rewrite Forall_forall in Hbook.
  apply set_eq. intros e. rewrite elem_of_dom_local_etags. split.
  - intros (id & c & Hc & Hb & <-).
    apply lookup_save_list in Hc as [[Hin _]|[Hc _]]; [by apply Hlisted|].
    apply lookup_delete_all in Hc as [Hc Hkeep].
    destruct (decide (c_etag c ∈ dom remote)) as [|Hnot]; [done|].
    exfalso. apply Hkeep. split; [done|]. apply elem_of_compute_deleted. split; [|done].
    apply elem_of_dom_local_etags. eauto.
  - intros He.
    assert (∀ c, c ∈ saved → c_etag c = e →
              ∃ id c', contacts st' !! id = Some c' ∧ c_bookId c' = b ∧ c_etag c' = e)
      as Hsaved.
    { intros c Hin Hetag.
      destruct (lookup_save_list_saved
                  (delete_all b (compute_deleted remote local) st) saved c Hin)
        as (c' & Hin' & Hid & Hlook).
      exists (c_id c), c'. split_and!; [done | by apply Hbook|].
      rewrite <- Hetag. by apply Hsame. }
    destruct (decide (e ∈ dom local)) as [Hloc|Hloc].
    + apply elem_of_dom_local_etags in Hloc as (id & c0 & Hc0 & Hb0 & He0).
      destruct (decide (id ∈ c_id <$> saved)) as [Hid|Hid].
      * apply list_elem_of_fmap in Hid as (c & -> & Hin).
        apply (Hsaved c Hin). symmetry. rewrite <- He0.
        apply (Hkept c c0); [done..|]. by rewrite He0.
      * exists id, c0. split_and!; [|done..].
        unfold st'. rewrite lookup_save_list_untouched by done.
        apply lookup_delete_all. split; [done|]. intros [_ Hdel].
        apply elem_of_compute_deleted in Hdel as [_ Hnot]. apply Hnot. by rewrite He0.
    + destruct (Hcovered e He Hloc) as (c & Hin & Hetag). by apply (Hsaved c).
Qed.

(** The rows of an item: their ids are those of [item_ids], their etag is
    the etag of the item. *)
Lemma fan_out_id_list st baseId info name etag i emails :
  store_wf st →
  c_id <$> fan_out st baseId info name etag i emails
  = omap (λ p : nat * string, if Str.empty p.2 then None else Some (row_id baseId p.1))
         (imap (λ j email, (i + j, email)) emails).
Proof.
  intros Hwf. revert i. induction emails as [|email rest IH]; intros i; [done|].
  cbn [fan_out imap omap list_omap]. rewrite Nat.add_0_r. cbn [fst snd].
  assert (imap ((λ j e, (i + j, e)) ∘ S) rest = imap (λ j e, (S i + j, e)) rest) as ->.
  { apply imap_ext. intros. simpl. f_equal. lia. }
  destruct (Str.empty email); [apply IH|].
  rewrite fmap_cons, IH, upsert_row_id by done. done.
Qed.

Lemma ingest_ids st node g :
  store_wf st → c_id <$> ing_rows (ingestAddressDataNode st node g) = item_ids node.
Proof.
  intros Hwf. unfold ingestAddressDataNode, item_ids.
  case_bool_decide; [done|]. destruct (vc_incomplete _); [done|].
  case_bool_decide as Hem; [by rewrite Hem|].
  cbn [ing_rows]. by rewrite fan_out_id_list.
Qed.

Lemma ingest_etags st node g c :
  c ∈ ing_rows (ingestAddressDataNode st node g) → c_etag c = n_etag node.
Proof.
  intros Hin.
  assert (ing_rows (ingestAddressDataNode st node g) ≠ []) as Hne.
  { intros Hnil. rewrite Hnil in Hin. by apply elem_of_nil in Hin. }
  destruct (ingest_not_skipped st node g Hne) as [_ Hrows]. rewrite Hrows in Hin.
  pose proof (fan_out_rows st
                (base_id (vc_uid (parseVCard (n_address_data node))) (n_href node))
                (build_info (n_address_data node) (n_href node)
                   (parseVCard (n_address_data node)))
                (display_name (parseVCard (n_address_data node))) (n_etag node) 0
                (vc_emails (parseVCard (n_address_data node)))) as Hall.
  rewrite Forall_forall in Hall. by destruct (Hall c Hin) as (id & email & ->).
Qed.

(** What the visitor saves, item by item. *)
Lemma visit_node_saved b node st tr st' :
  store_wf st → visit_node b node st = (tr, inr st') →
  (∀ c, c ∈ saves_of tr → c_etag c = n_etag node ∧ c_id c ∈ item_ids node)
  ∧ (∀ id, id ∈ item_ids node →
       ∃ c, c ∈ saves_of tr ∧ c_id c = id ∧ c_etag c = n_etag node).
Proof.
  intros Hwf Hvisit. apply visit_node_ok in Hvisit as [Hsaves _]. cbv zeta in Hsaves.
  rewrite Hsaves. split.
  - intros c (r & -> & Hr)%list_elem_of_fmap.
    rewrite prepare_etag, prepare_id. split; [by eapply ingest_etags|].
    rewrite <- (ingest_ids st node false Hwf). apply list_elem_of_fmap. eauto.
  - intros id Hid. rewrite <- (ingest_ids st node false Hwf) in Hid.
    apply list_elem_of_fmap in Hid as (r & -> & Hr).
    exists (prepare b (ing_isGroup (ingestAddressDataNode st node false)) r).
    split; [apply list_elem_of_fmap; eauto|].
    rewrite prepare_etag, prepare_id. split; [done|]. by eapply ingest_etags.
Qed.

Lemma visit_nodes_saved b nodes st tr st' :
  store_wf st → visit_nodes b nodes st = (tr, inr st') →
  (∀ c, c ∈ saves_of tr →
     ∃ node, node ∈ nodes ∧ c_etag c = n_etag node ∧ c_id c ∈ item_ids node)
  ∧ (∀ node id, node ∈ nodes → id ∈ item_ids node →
       ∃ c, c ∈ saves_of tr ∧ c_id c = id ∧ c_etag c = n_etag node).
Proof.
  revert st tr. induction nodes as [|node nodes IH]; intros st tr Hwf.
  { intros [= <- <-]. split; [by intros c ?%elem_of_nil|by intros n id ?%elem_of_nil]. }
  cbn [visit_nodes].
  destruct (visit_node b node st) as [tr1 [msg|st1]] eqn:Hnode; [done|].
  destruct (visit_nodes b nodes st1) as [tr2 r2] eqn:Hrest. intros [= <- ->].
  destruct (visit_node_saved b node st tr1 st1 Hwf Hnode) as [Hfrom Hto].
  assert (store_wf st1) as Hwf1.
  { apply visit_node_ok in Hnode as [_ ->]. by apply store_wf_save_list. }
  destruct (IH st1 tr2 Hwf1 Hrest) as [IHfrom IHto]. split.
  - intros c. rewrite saves_of_app, elem_of_app. intros [Hc|Hc].
    + exists node. split; [left|by apply Hfrom].
    + destruct (IHfrom c Hc) as (n & Hn & ?). exists n. split; [by right|done].
  - intros n id [->|Hn]%elem_of_cons Hid.
    + destruct (Hto id Hid) as (c & Hc & ?). exists c.
      split; [|done]. rewrite saves_of_app, elem_of_app. by left.
    + destruct (IHto n id Hn Hid) as (c & Hc & ?). exists c.
      split; [|done]. rewrite saves_of_app, elem_of_app. by right.
Qed.

Lemma answered_cons ab chunk rest node :
  answered ab (chunk :: rest) node
  ↔ (∃ abDoc, PerformRequest (multiget_request ab chunk) = inr abDoc
              ∧ node ∈ dx_responses abDoc)
    ∨ answered ab rest node.
Proof.
  unfold answered. split.
  - intros (c & abDoc & [->|Hc]%elem_of_cons & Hrq & Hn); [left; eauto|right; eauto].
  - intros [(abDoc & Hrq & Hn)|(c & abDoc & Hc & Hrq & Hn)].
    + exists chunk, abDoc. split; [left|done].
    + exists c, abDoc. split; [by right|done].
Qed.

(** What a loop that returns has saved: the rows of the items of its
    answers, each under its id and with the etag of its item. *)
Lemma batch_loop_saved ab chunks del st tr st' del' :
  store_wf st → batch_loop ab chunks del st = (tr, st', inr del') →
  (∀ c, c ∈ saves_of tr →
     ∃ node, answered ab chunks node ∧ c_etag c = n_etag node ∧ c_id c ∈ item_ids node)
  ∧ (∀ node id, answered ab chunks node → id ∈ item_ids node →
       ∃ c, c ∈ saves_of tr ∧ c_id c = id ∧ c_etag c = n_etag node).
Proof.
  revert del st tr. induction chunks as [|chunk rest IH]; intros del st tr Hwf.
  { intros [= <- <- <-]. split; [by intros c ?%elem_of_nil|].
    intros n id (c & abDoc & ?%elem_of_nil & _). done. }
  rewrite batch_loop_cons.
  destruct (PerformRequest (multiget_request ab chunk)) as [msg|abDoc] eqn:Hrq; [done|].
  destruct (apply_batch ab del abDoc st) as [tr_tx [msg|st2]] eqn:Htx; [done|].
  apply apply_batch_ok in Htx as (tr_nodes & -> & Hvisit & _ & Hst2 & _).
  destruct (batch_loop ab rest [] st2) as [[tr3 st3] r3] eqn:Hloop.
  intros [= Htr <- ->].
  assert (store_wf (delete_all (b_id ab) del st)) as Hwf1 by by apply store_wf_delete_all.
  assert (store_wf st2) as Hwf2 by (rewrite Hst2; by apply store_wf_save_list).
  destruct (visit_nodes_saved _ _ _ _ _ Hwf1 Hvisit) as [Hfrom Hto].
  destruct (IH [] st2 tr3 Hwf2 Hloop) as [IHfrom IHto].
  assert (saves_of tr = saves_of tr_nodes ++ saves_of tr3) as ->.
  { rewrite <- Htr. by trace_simpl. }
  split.
  - intros c [Hc|Hc]%elem_of_app.
    + destruct (Hfrom c Hc) as (n & Hn & ?). exists n. split; [|done].
      apply answered_cons. left. eauto.
    + destruct (IHfrom c Hc) as (n & Hn & ?). exists n. split; [|done].
      apply answered_cons. by right.
  - intros n id [(abDoc' & Hrq' & Hn)|Hn]%answered_cons Hid.
    + assert (abDoc' = abDoc) as -> by congruence.
      destruct (Hto n id Hn Hid) as (c & Hc & ?). exists c.
      split; [|done]. apply elem_of_app. by left.
    + destruct (IHto n id Hn Hid) as (c & Hc & ?). exists c.
      split; [|done]. apply elem_of_app. by right.
Qed.

(** Faithful answers and ids that do not collide make the fetch faithful
    and the saves harmless. *)
Lemma saves_faithful ab chunks del st tr st' del' remote local :
  store_wf st → batch_loop ab chunks del st = (tr, st', inr del') →
  answers_listed ab chunks remote →
  answers_cover ab chunks remote local →
  ids_apart ab chunks →
  ids_fresh ab chunks remote st →
  fetch_faithful remote local (saves_of tr) ∧ no_clobber st (b_id ab) remote (saves_of tr).
Proof.
  intros Hwf Hloop Hlisted Hcover Hapart Hfresh.
  destruct (batch_loop_saved _ _ _ _ _ _ _ Hwf Hloop) as [Hfrom Hto].
  split; split.
  - intros c Hc. destruct (Hfrom c Hc) as (n & Hn & He & Hid). rewrite He.
    apply (Hlisted n Hn). intros Hnil. rewrite Hnil in Hid. by apply elem_of_nil in Hid.
  - intros e He Hloc. destruct (Hcover e He Hloc) as (n & Hn & <- & Hids).
    destruct (item_ids n) as [|id ids] eqn:Hitem; [done|].
    destruct (Hto n id Hn) as (c & Hc & _ & Hetag); [rewrite Hitem; left|]. eauto.
  - intros c c' Hc Hc' Hid.
    destruct (Hfrom c Hc) as (n & Hn & He & Hidn).
    destruct (Hfrom c' Hc') as (n' & Hn' & He' & Hidn').
    rewrite He, He'. apply (Hapart n n' (c_id c)); [done..|]. by rewrite Hid.
  - intros c c0 Hc Hlook Hbook Hlist.
    destruct (Hfrom c Hc) as (n & Hn & He & Hidn). rewrite He.
    by apply (Hfresh n (c_id c) c0).
Qed.

(** C2 (amended).  Take a run that returns, in front of a server whose
    answers are faithful to its listing and of cards whose row ids do not
    collide: every answered item that yields a row carries a listed etag,
    every listed etag missing locally comes back on an item that yields a
    row, two items that share a row id carry the same etag, and a row of
    the book that is overwritten while its etag is still listed carries
    the etag of the item.  After the run the etags on the rows of the book
    are exactly the keys of the remote listing, and a second run against
    the same listing computes an empty [needed] and an empty [deleted],
    asks for the listing only, saves and deletes nothing and leaves the
    store as it is. *)
Theorem convergence ab st tr st' n doc :
  store_wf st →
  PerformRequest (query_request ab) = inr doc →
  runForAddressBook ab st = (tr, st', inr n) →
  let remote := remote_of doc in
  let local := local_etags st (b_id ab) in
  let chunks := chunksOfVector (compute_needed remote local) 90 in
  answers_listed ab chunks remote →
  answers_cover ab chunks remote local →
  ids_apart ab chunks →
  ids_fresh ab chunks remote st →
  dom (local_etags st' (b_id ab)) = dom (remote_of doc)
  ∧ compute_needed (remote_of doc) (local_etags st' (b_id ab)) = []
  ∧ compute_deleted (remote_of doc) (local_etags st' (b_id ab)) = []
  ∧ ∃ tr2, runForAddressBook ab st' = (tr2, st', inr n)
           ∧ requests_of tr2 = [query_request ab]
           ∧ saves_of tr2 = [] ∧ deletes_of tr2 = [].
Proof.
  intros Hwf Hdoc Hrun remote local chunks Hlisted Hcover Hapart Hfresh.
  destruct (runForAddressBook_ok_loop ab st tr st' n doc Hdoc Hrun)
    as (Hsel & tr1 & st1 & del' & Hloop & _ & Hsaves).
  destruct (saves_faithful _ _ _ _ _ _ _ remote local Hwf Hloop Hlisted Hcover Hapart Hfresh)
    as [Hfaith Hclob].
  rewrite <- Hsaves in Hfaith, Hclob.
  apply runForAddressBook_ok in Hrun as (doc' & Hdoc' & Hn & Hst & _ & Hbook).
  assert (doc' = doc) as -> by congruence. cbv zeta in *.
  assert (dom (local_etags st' (b_id ab)) = dom (remote_of doc)) as Hdom.
  { rewrite Hst. by apply etags_after_run. }
  split; [done|].
  destruct (diff_empty_when_equal _ _ Hdom) as [Hneeded Hdeleted].
  split; [done|]. split; [done|]. rewrite Hn. by apply runForAddressBook_idle.
Qed.

End RunFacts.

(** * The worker on the demo address book *)

Lemma store_wf_empty : store_wf Demo.empty_store.
Proof. intros id c H. simpl in H. by rewrite lookup_empty in H. Qed.

Lemma store_wf_st0 : store_wf Demo.st0.
Proof. intros id c H. simpl in H. by apply lookup_singleton_Some in H as [<- <-]. Qed.

Lemma store_wf_st_hidden : store_wf Demo.st_hidden.
Proof. intros id c H. simpl in H. by apply lookup_singleton_Some in H as [<- <-]. Qed.

(** The two end-to-end examples of the spec, on the diff. *)
Example diff_one_new :
  let remote : gmap ETAG string := <["e1" := "/c1.vcf"]> (<["e2" := "/c2.vcf"]> ∅) in
  let local : gmap ETAG bool := <["e1" := true]> ∅ in
  compute_needed remote local = ["/c2.vcf"] ∧ compute_deleted remote local = [].
Proof. by vm_compute. Qed.

Example diff_one_stale :
  let remote : gmap ETAG string := <["e2" := "/c2.vcf"]> ∅ in
  let local : gmap ETAG bool := <["e1" := true]> (<["e2" := true]> ∅) in
  compute_needed remote local = [] ∧ compute_deleted remote local = ["e1"].
Proof. by vm_compute. Qed.

(** The second end-to-end example of the spec, on the whole run: one stale
    row, nothing to fetch.  No content fetch is issued, the final pass
    removes the stale row and the other row is untouched. *)
Example stale_only_run :
  let '(tr, st', r) :=
    runForAddressBook (W := Demo.worker Demo.bob_only) Demo.book Demo.st_two in
  requests_of tr = [Demo.query_rq]
  ∧ deletes_of tr = [("external-S", "e1")]
  ∧ saves_of tr = []
  ∧ (EvBegin ∉ tr)
  ∧ st' = mkStore {[ "ext-S-B" := Demo.bob_row ]} ∅
  ∧ r = inr 1%Z.
Proof.
  destruct (runForAddressBook _ _) as [[tr st'] r] eqn:Hrun.
  vm_compute in Hrun. injection Hrun as <- <- <-.
  split_and!; try (by vm_compute).
  intros Hin. repeat (apply elem_of_cons in Hin as [Hin|Hin]; [discriminate|]).
  by apply elem_of_nil in Hin.
Qed.

Example chunks_of_200 :
  length <$> chunksOfVector (replicate 200 "/x.vcf") 90 = [90; 90; 20].
Proof. by vm_compute. Qed.

Lemma first_run_eq :
  runForAddressBook (W := Demo.worker Demo.server) Demo.book Demo.st0
  = (Demo.tr1, Demo.st1, inr 2%Z).
Proof. by vm_compute. Qed.

Lemma first_run_listing :
  PerformRequest (Worker := Demo.worker Demo.server)
                 (query_request (W := Demo.worker Demo.server) Demo.book)
  = inr Demo.listing.
Proof. by vm_compute. Qed.

Lemma first_run_saves :
  (λ c, (c_id c, c_etag c)) <$> saves_of Demo.tr1
  = [("ext-S-U", "e3"); ("ext-S-U-1", "e3"); ("ext-S-U-2", "e3"); ("ext-S-B", "e2")].
Proof. by vm_compute. Qed.

(** The answers of the demo server: one multiget, answered by the two
    cards. *)
Lemma first_run_chunks :
  chunksOfVector (compute_needed (remote_of Demo.listing)
                    (local_etags Demo.st0 (b_id Demo.book))) 90
  = [["/bob.vcf"; "/ada.vcf"]].
Proof. by vm_compute. Qed.

Lemma first_run_answered node :
  answered (W := Demo.worker Demo.server) Demo.book [["/bob.vcf"; "/ada.vcf"]] node
  ↔ node = mkNode "e3" "/ada.vcf" "VC-ADA" ∨ node = mkNode "e2" "/bob.vcf" "VC-BOB".
Proof.
  split.
  - intros (chunk & abDoc & Hc & Hrq & Hn). apply list_elem_of_singleton in Hc as ->.
    vm_compute in Hrq. injection Hrq as <-.
    apply elem_of_cons in Hn as [->|Hn]; [by left|].
    apply list_elem_of_singleton in Hn as ->. by right.
  - intros Hn. exists ["/bob.vcf"; "/ada.vcf"], Demo.cards.
    split; [left|]. split; [by vm_compute|].
    destruct Hn as [-> | ->]; [left|right; left].
Qed.

Lemma first_run_item_ids :
  item_ids (W := Demo.worker Demo.server) (mkNode "e3" "/ada.vcf" "VC-ADA")
  = ["ext-S-U"; "ext-S-U-1"; "ext-S-U-2"]
  ∧ item_ids (W := Demo.worker Demo.server) (mkNode "e2" "/bob.vcf" "VC-BOB")
    = ["ext-S-B"].
Proof. by vm_compute. Qed.

Lemma first_run_remote e :
  e ∈ dom (remote_of Demo.listing) ↔ e = "e2" ∨ e = "e3".
Proof.
  rewrite <- elem_of_elements.
  assert (elements (dom (remote_of Demo.listing)) = ["e3"; "e2"]) as -> by (by vm_compute).
  rewrite !elem_of_cons, elem_of_nil. tauto.
Qed.

(** The first demo run converges: C2 applied to it. *)
Lemma convergence_witness :
  dom (local_etags Demo.st1 "external-S") = dom (remote_of Demo.listing)
  ∧ compute_needed (remote_of Demo.listing) (local_etags Demo.st1 "external-S") = []
  ∧ compute_deleted (remote_of Demo.listing) (local_etags Demo.st1 "external-S") = []
  ∧ ∃ tr2, runForAddressBook (W := Demo.worker Demo.server) Demo.book Demo.st1
           = (tr2, Demo.st1, inr 2%Z)
           ∧ requests_of tr2 = [query_request (W := Demo.worker Demo.server) Demo.book]
           ∧ saves_of tr2 = [] ∧ deletes_of tr2 = [].
Proof.
  destruct first_run_item_ids as [Hada Hbob].
  apply (convergence (W := Demo.worker Demo.server) Demo.book Demo.st0 Demo.tr1 Demo.st1
                     2%Z Demo.listing store_wf_st0 first_run_listing first_run_eq);
    rewrite first_run_chunks.
  - intros node [-> | ->]%first_run_answered _; apply first_run_remote; [by right|by left].
  - intros e [-> | ->]%first_run_remote _.
    + exists (mkNode "e2" "/bob.vcf" "VC-BOB").
      split; [apply first_run_answered; by right|]. split; [done|]. by rewrite Hbob.
    + exists (mkNode "e3" "/ada.vcf" "VC-ADA").
      split; [apply first_run_answered; by left|]. split; [done|]. by rewrite Hada.
  - intros node1 node2 id [-> | ->]%first_run_answered [-> | ->]%first_run_answered;
      rewrite ?Hada, ?Hbob; try done.
    + intros H1 H2%list_elem_of_singleton. subst id.
      repeat (apply elem_of_cons in H1 as [H1|H1]; [discriminate|]).
      by apply elem_of_nil in H1.
    + intros H1%list_elem_of_singleton H2. subst id.
      repeat (apply elem_of_cons in H2 as [H2|H2]; [discriminate|]).
      by apply elem_of_nil in H2.
  - intros node id c0 [-> | ->]%first_run_answered; rewrite ?Hada, ?Hbob; intros Hid Hlook;
      exfalso; cbn [contacts Demo.st0] in Hlook;
      apply lookup_singleton_Some in Hlook as [<- _];
      repeat (apply elem_of_cons in Hid as [Hid|Hid]; [discriminate|]);
      by apply elem_of_nil in Hid.
Defined.

(** C3 on the first demo run: the stale etag "e1" is deleted once, inside
    the only transaction. *)
Lemma stale_sweep_witness :
  delete_count Demo.tr1 "external-S" "e1" = 1
  ∧ deletes_of Demo.tr1 = [("external-S", "e1")].
Proof.
  destruct (stale_sweep_exactly_once (W := Demo.worker Demo.server)
              Demo.book Demo.st0 Demo.tr1 Demo.st1 (inr 2%Z) first_run_eq)
    as (_ & Hreached & Hdone).
  split.
  - destruct (Hreached Demo.listing first_run_listing) as [_ Hone].
    apply Hone; [reflexivity|by vm_compute|reflexivity|]. vm_compute. left.
  - destruct (Hdone eq_refl) as (doc & Hdoc & Hdels & _).
    assert (doc = Demo.listing) as ->.
    { pose proof first_run_listing as Hl. rewrite Hdoc in Hl. by injection Hl. }
    rewrite Hdels. by vm_compute.
Defined.


(** C5 on Ada's card, ingested into an empty store. *)
Lemma fan_out_three_witness :
  c_id <$> ing_rows (ingestAddressDataNode (W := Demo.worker Demo.down) Demo.empty_store
                       (mkNode "e3" "/ada.vcf" "VC-ADA") false)
  = ["ext-S-U"; "ext-S-U-1"; "ext-S-U-2"].
Proof.
  destruct (fan_out_three (W := Demo.worker Demo.down) Demo.empty_store
              (mkNode "e3" "/ada.vcf" "VC-ADA") false "a@x.org" "b@x.org" "c@x.org" "U"
              store_wf_empty ltac:(done) eq_refl eq_refl ltac:(done) ltac:(done)
              ltac:(done) eq_refl ltac:(done))
    as (r0 & r1 & r2 & info & Hrows & H0 & H1 & H2 & _).
  rewrite Hrows. cbn [fmap list_fmap]. rewrite H0, H1, H2. reflexivity.
Defined.

(** C6 on Bob's card, which is not a group card, over a store where his row
    is hidden. *)
Lemma group_flag_witness :
  c_hidden (prepare "external-S" false
              (upsert_row (W := Demo.worker Demo.down) Demo.st_hidden "ext-S-B"
                 (mkInfo "VC-BOB" "/bob.vcf" None) "Bob" "bob@x.org" "e2"))
  = true.
Proof.
  destruct (group_flag (W := Demo.worker Demo.down) "external-S"
              (mkNode "e2" "/bob.vcf" "VC-BOB") Demo.st_hidden
              (prepare "external-S" false
                 (upsert_row (W := Demo.worker Demo.down) Demo.st_hidden "ext-S-B"
                    (mkInfo "VC-BOB" "/bob.vcf" None) "Bob" "bob@x.org" "e2"))
              store_wf_st_hidden)
    as (_ & Hkeep & _).
  - vm_compute. left.
  - rewrite Hkeep by reflexivity. reflexivity.
Defined.


(** C8 on a card whose only e-mail is empty. *)
Lemma skipped_items_witness :
  ing_rows (ingestAddressDataNode (W := Demo.worker Demo.down) Demo.empty_store
              (mkNode "e5" "/ken.vcf" "VC-BLANK") false) = [].
Proof.
  apply (skipped_items (W := Demo.worker Demo.down) Demo.empty_store
           (mkNode "e5" "/ken.vcf" "VC-BLANK") false).
  do 2 right. repeat constructor.
Defined.

(** C10 on a card whose second e-mail is empty: ids skip the suffix 1. *)
Lemma suffix_is_position_witness :
  (λ r, (c_id r, c_email r))
    <$> ing_rows (ingestAddressDataNode (W := Demo.worker Demo.down) Demo.empty_store
                    (mkNode "e4" "/grace.vcf" "VC-GAP") false)
  = [("ext-S-G", "a@x.org"); ("ext-S-G-2", "c@x.org")].
Proof.
  destruct (suffix_is_position (W := Demo.worker Demo.down) Demo.empty_store
              (mkNode "e4" "/grace.vcf" "VC-GAP") false
              store_wf_empty ltac:(done) eq_refl) as [Hrows _].
  rewrite Hrows. reflexivity.
Defined.

(** C10, second half: the first e-mail is empty, no row has the base id. *)
Example late_email_ids :
  c_id <$> ing_rows (ingestAddressDataNode (W := Demo.worker Demo.down) Demo.empty_store
                       (mkNode "e6" "/linus.vcf" "VC-LATE") false)
  = ["ext-S-L-1"].
Proof. by vm_compute. Qed.

(** * Where the spec and the code part *)

(** C2 as stated fails: the server lists a card and serves it without any
    e-mail.  The run returns, no row carries the listed etag, and the next
    run needs the same href again. *)
Lemma convergence_counterexample :
  let first := runForAddressBook (W := Demo.worker Demo.nomail_server)
                                 Demo.book Demo.empty_store in
  first.2 = inr 1%Z
  ∧ first.1.2 = Demo.empty_store
  ∧ dom (local_etags first.1.2 "external-S") ≠ dom (remote_of Demo.nomail_listing)
  ∧ compute_needed (remote_of Demo.nomail_listing) (local_etags first.1.2 "external-S")
    = ["/c1.vcf"].
Proof.
  split; [by vm_compute|]. split; [by vm_compute|]. split; [|by vm_compute].
  intros Heq. assert ("e1" ∈ dom (remote_of Demo.nomail_listing)) as Hin.
  { apply elem_of_dom. by vm_compute. }
  rewrite <- Heq in Hin. apply elem_of_dom in Hin as [v Hv]. by vm_compute in Hv.
Qed.

(** C3 as stated fails: the stale etag "e1" is in [deleted], the content
    fetch of the only batch throws, and the run ends without its deletion
    statement having been executed. *)
Lemma stale_sweep_counterexample :
  let failed := runForAddressBook (W := Demo.worker Demo.bob_only) Demo.book Demo.st0 in
  "e1" ∈ compute_deleted
           (remote_of (mkDavXML EmptyString [mkNode "e2" "/bob.vcf" EmptyString]))
           (local_etags Demo.st0 "external-S")
  ∧ failed.2 = inl "HTTP 404"
  ∧ delete_count failed.1.1 "external-S" "e1" = 0
  ∧ failed.1.2 = Demo.st0.
Proof. split; [vm_compute; left|]. by vm_compute. Qed.


(** Why C2 needs row ids that do not collide: two listed cards with the
    same unique id are saved into the same row, only the etag of the second
    is left on it, and the next run needs the first again. *)
Example convergence_needs_ids_apart :
  let first := runForAddressBook (W := Demo.worker Demo.twin_server)
                                 Demo.book Demo.empty_store in
  first.2 = inr 2%Z
  ∧ (λ c, (c_id c, c_etag c)) <$> saves_of first.1.1 = [("ext-S-B", "e2"); ("ext-S-B", "e8")]
  ∧ compute_needed (remote_of Demo.twin_listing) (local_etags first.1.2 "external-S")
    = ["/bob.vcf"].
Proof. by vm_compute. Qed.

(** C6 as stated fails: Bob's card is not a group card, yet his row, hidden
    before, is saved hidden and stays hidden in the store. *)
Lemma group_flag_counterexample :
  let visit := visit_node (W := Demo.worker Demo.down) "external-S"
                          (mkNode "e2" "/bob.vcf" "VC-BOB") Demo.st_hidden in
  isGroupCard (Worker := Demo.worker Demo.down)
              (parseVCard (Worker := Demo.worker Demo.down) "VC-BOB") = false
  ∧ c_hidden <$> saves_of visit.1 = [true]
  ∧ match visit.2 with
    | inr st' => c_hidden <$> contacts st' !! "ext-S-B" = Some true
    | inl _ => False
    end.
Proof. by vm_compute. Qed.

(** C8 as stated fails: a card whose only e-mail is empty has a body, is
    complete and has an e-mail entry, and still yields no row. *)
Lemma skipped_items_counterexample :
  let node := mkNode "e5" "/ken.vcf" "VC-BLANK" in
  let vcard := parseVCard (Worker := Demo.worker Demo.down) (n_address_data node) in
  ing_rows (ingestAddressDataNode (W := Demo.worker Demo.down) Demo.empty_store node false)
  = []
  ∧ ¬ (n_address_data node = EmptyString ∨ vc_incomplete vcard = true
       ∨ vc_emails vcard = []).
Proof. split; [by vm_compute|]. vm_compute. intros [?|[?|?]]; discriminate. Qed.

(** C9 as stated fails both ways: a URL with another scheme is prefixed, a
    host name that starts with "http" is not. *)
Lemma scheme_coercion_counterexample :
  (carries_scheme "ftp://dav.example.org/book" = true
   ∧ request_url "ftp://dav.example.org/book" ≠ "ftp://dav.example.org/book")
  ∧ (carries_scheme "httpd.example.org/book" = false
     ∧ request_url "httpd.example.org/book" ≠ "https://httpd.example.org/book").
Proof. by vm_compute. Qed.

(** * Further properties of the worker *)

(** ** Requests *)

(** The URL coercion is idempotent and its result always starts with
    "http": a URL that went through [performXMLRequest] once goes through
    it unchanged the next time. *)
Theorem request_url_idempotent (_url : string) :
  String.prefix "http" (request_url _url) = true
  ∧ request_url (request_url _url) = request_url _url.
Proof.
  assert (String.prefix "http" (request_url _url) = true) as Hp.
  { unfold request_url. case_bool_decide as Hfind; [done|].
    by apply find_at_start. }
  split; [done|]. unfold request_url at 1.
  rewrite bool_decide_eq_false_2; [done|].
  intros Hne. apply Hne. by apply find_at_start.
Qed.

Lemma substring_zero (m : nat) (t : string) : substring m 0 t = EmptyString.
Proof. revert m. induction t as [|c t IH]; intros [|m]; simpl; auto. Qed.

Lemma substring_app_l (s t r : string) (m n : nat) :
  substring m n s = r → String.length r = n → substring m n (s +:+ t) = r.
Proof.
  revert m n r. induction s as [|c s IH]; intros m n r.
  - rewrite string_app_nil_l. destruct n; [|by destruct m; intros <-].
    intros <- _. destruct m; simpl; apply substring_zero.
  - rewrite string_app_cons. destruct m as [|m]; simpl.
    + destruct n as [|n]; [done|]. intros <- Hlen. simpl in Hlen.
      f_equal. apply IH; [done|lia].
    + apply IH.
Qed.

(** A needle found in a string is found in every extension of it. *)
Lemma find_app_l (needle hay t : string) :
  needle ≠ EmptyString → Str.find needle hay ≠ None → Str.find needle (hay +:+ t) ≠ None.
Proof.
  unfold Str.find. intros Hne Hfound Hnone.
  destruct (index 0 needle hay) as [m|] eqn:Hm; [|done].
  apply index_correct1 in Hm.
  apply (index_correct3 0 m) in Hnone; [|done|lia].
  apply Hnone. by apply substring_app_l.
Qed.

(** The payload of a chunk is the concatenation of the payloads of its
    parts, and hrefs go into it as they are, without any XML escaping: an
    href that contains the closing and opening tags reads as two hrefs. *)
Theorem hrefs_payload_verbatim (chunk1 chunk2 : list string) (a b : string) :
  hrefs_payload (chunk1 ++ chunk2) = hrefs_payload chunk1 +:+ hrefs_payload chunk2
  ∧ hrefs_payload [a] = "<d:href>" +:+ a +:+ "</d:href>"
  ∧ hrefs_payload [a +:+ "</d:href><d:href>" +:+ b] = hrefs_payload [a; b].
Proof.
  split; [|split].
  - unfold hrefs_payload at 1. rewrite foldl_app. fold (hrefs_payload chunk1).
    apply hrefs_payload_from.
  - done.
  - unfold hrefs_payload. cbn [foldl]. rewrite !string_app_nil_l.
    by rewrite !string_app_assoc.
Qed.

Section Requests.
Context {W : Worker}.

Lemma carddav_in_multiget chunk :
  Str.find "urn:ietf:params:xml:ns:carddav" (multiget_body chunk) ≠ None.
Proof. unfold multiget_body. apply find_app_l; [done|]. by vm_compute. Qed.

Lemma multiget_request_headers (ab : ContactBook) (chunk : list string) :
  rq_headers (multiget_request ab chunk)
  = [c_str getAuthorizationHeader; "Prefer: return-minimal";
     "Content-Type: application/xml; charset=utf-8";
     "Accept: text/vcard; version=4.0"; "Depth: 1"].
Proof.
  assert (c_str ("Depth: " +:+ "1") = "Depth: 1") as Hd1 by (by vm_compute).
  unfold multiget_request, build_request. cbn [rq_headers].
  rewrite bool_decide_eq_true_2 by apply carddav_in_multiget. by rewrite Hd1.
Qed.

Lemma query_request_headers (ab : ContactBook) :
  rq_headers (query_request ab)
  = [c_str getAuthorizationHeader; "Prefer: return-minimal";
     "Content-Type: application/xml; charset=utf-8";
     "Accept: text/vcard; version=4.0"; "Depth: 1"].
Proof.
  assert (c_str ("Depth: " +:+ "1") = "Depth: 1") as Hd1 by (by vm_compute).
  assert (Str.find "urn:ietf:params:xml:ns:carddav" QUERY_BODY ≠ None) as Hq
    by (by vm_compute).
  unfold query_request, build_request. cbn [rq_headers].
  rewrite bool_decide_eq_true_2 by exact Hq. by rewrite Hd1.
Qed.

Lemma propfind_request_headers :
  rq_headers propfind_request
  = [c_str getAuthorizationHeader; "Prefer: return-minimal";
     "Content-Type: application/xml; charset=utf-8"; "Depth: 0"].
Proof.
  assert (c_str ("Depth: " +:+ "0") = "Depth: 0") as Hd0 by (by vm_compute).
  assert (¬ Str.find "urn:ietf:params:xml:ns:carddav" PROPFIND_BODY ≠ None) as Hp.
  { intros Hne. apply Hne. by vm_compute. }
  unfold propfind_request, build_request. cbn [rq_headers].
  rewrite bool_decide_eq_false_2 by exact Hp. by rewrite Hd0.
Qed.

(** Headers: the Authorization header comes first and the Depth header
    last; both REPORT requests of the run carry the vCard Accept header,
    whatever hrefs the chunk holds, and go out at depth 1; the PROPFIND of
    [resolveAddressBook] carries no Accept header and goes out at depth 0. *)
Theorem request_headers (ab : ContactBook) (chunk : list string) :
  rq_headers (multiget_request ab chunk)
  = [c_str getAuthorizationHeader; "Prefer: return-minimal";
     "Content-Type: application/xml; charset=utf-8";
     "Accept: text/vcard; version=4.0"; "Depth: 1"]
  ∧ rq_headers (query_request ab) = rq_headers (multiget_request ab chunk)
  ∧ rq_headers propfind_request
    = [c_str getAuthorizationHeader; "Prefer: return-minimal";
       "Content-Type: application/xml; charset=utf-8"; "Depth: 0"]
  ∧ rq_method (multiget_request ab chunk) = "REPORT"
  ∧ rq_method (query_request ab) = "REPORT"
  ∧ rq_method propfind_request = "PROPFIND"
  ∧ rq_url (multiget_request ab chunk) = c_str (request_url (b_url ab))
  ∧ rq_url (query_request ab) = c_str (request_url (b_url ab))
  ∧ rq_url propfind_request = c_str (request_url (sourceUrl cfg)).
Proof.
  split; [apply multiget_request_headers|].
  split; [by rewrite query_request_headers, multiget_request_headers|].
  split; [apply propfind_request_headers|].
  split_and!; reflexivity.
Qed.

End Requests.

(** ** The remote listing *)

(** The listing is read into a map keyed by etag: of several responses
    with the same etag the last one gives the href, the keys are the etags
    of the responses, and there are no more entries than responses. *)
Theorem listing_last_wins (doc : DavXML) :
  (∀ e, remote_of doc !! e
        = (λ node, c_str (n_href node))
            <$> last (filter (λ node, c_str (n_etag node) = e) (dx_responses doc)))
  ∧ dom (remote_of doc) = list_to_set ((λ node, c_str (n_etag node)) <$> dx_responses doc)
  ∧ size (remote_of doc) ≤ length (dx_responses doc).
Proof.
  split; [|split; [apply dom_remote_of|]].
  - rewrite remote_of_responses. generalize (dx_responses doc). intros nodes.
    cbn [dx_responses].
    induction nodes as [|node nodes IH] using rev_ind; [done|].
    rewrite remote_of_snoc. intros e.
    rewrite filter_app, filter_cons, filter_nil, lookup_insert.
    case_decide as He.
    + by rewrite last_snoc.
    + rewrite app_nil_r. apply IH.
  - rewrite remote_of_responses. generalize (dx_responses doc). intros nodes.
    cbn [dx_responses].
    induction nodes as [|node nodes IH] using rev_ind; [done|].
    rewrite remote_of_snoc, length_app. simpl.
    destruct (remote_of (mkDavXML EmptyString nodes) !! c_str (n_etag node)) eqn:Hl.
    + rewrite map_size_insert_Some by eauto. lia.
    + rewrite map_size_insert_None by done. lia.
Qed.

Section Bodies.
Context {W : Worker}.

(** The hrefs of the listing are read back as C strings, so no href asked
    for contains a NUL, and the body of every multiget request reaches the
    transport whole: it is the XML built from the chunk, closing tag
    included, and every href of the chunk is the href of a listed etag that
    no local row carries. *)
Theorem multiget_sent_whole (ab : ContactBook) (doc : DavXML) (local : gmap ETAG bool)
    (chunk : list string) :
  chunk ∈ chunksOfVector (compute_needed (remote_of doc) local) 90 →
  rq_payload (multiget_request ab chunk)
  = MULTIGET_OPEN +:+ hrefs_payload chunk +:+ MULTIGET_CLOSE
  ∧ Forall (λ href, c_str href = href ∧ ∃ e, remote_of doc !! e = Some href ∧ e ∉ dom local)
           chunk.
Proof.
  intros Hchunk. pose proof (needed_chunk_hrefs doc local chunk Hchunk) as Hall.
  split; [|done].
  unfold multiget_request, build_request. cbn [rq_payload].
  apply c_str_multiget_body. eapply Forall_impl; [exact Hall|]. by intros href [? _].
Qed.

End Bodies.

(** ** The store after a run *)

Lemma lookup_delete_all_fun b dels st id :
  contacts (delete_all b dels st) !! id
  = match contacts st !! id with
    | Some c => if decide (c_bookId c = b ∧ c_etag c ∈ dels) then None else Some c
    | None => None
    end.
Proof.
  apply option_eq. intros c. rewrite lookup_delete_all.
  destruct (contacts st !! id) as [c0|]; [|naive_solver].
  case_decide; naive_solver.
Qed.

Lemma lookup_save_list_fun st cs id :
  contacts (save_list st cs) !! id
  = match last (filter (λ c, c_id c = id) cs) with
    | Some c => Some c
    | None => contacts st !! id
    end.
Proof.
  induction cs as [|c cs IH] using rev_ind; [done|].
  rewrite save_list_snoc, lookup_save_contact, filter_app, filter_cons, filter_nil.
  case_decide.
  - by rewrite last_snoc.
  - by rewrite app_nil_r.
Qed.

Section StoreAfterRun.
Context {W : Worker}.

Lemma books_batch_loop ab chunks del st :
  books (batch_loop ab chunks del st).1.2 = books st.
Proof.
  destruct (batch_loop ab chunks del st) as [[tr1 st1] [msg|del']] eqn:Hloop; cbn [fst snd].
  - apply batch_loop_thrown in Hloop as (done_ & c & rest & tr0 & del0 & _ & Hdone & _).
    apply batch_loop_ok in Hdone. destruct done_.
    + by destruct Hdone as (_ & -> & _).
    + destruct Hdone as (-> & _). by rewrite books_save_list, books_delete_all.
  - apply batch_loop_ok in Hloop. destruct chunks.
    + by destruct Hloop as (_ & -> & _).
    + destruct Hloop as (-> & _). by rewrite books_save_list, books_delete_all.
Qed.

Lemma books_runForAddressBook ab st :
  books (runForAddressBook ab st).1.2 = books st.
Proof.
  rewrite runForAddressBook_unfold.
  destruct (PerformRequest (query_request ab)) as [msg|doc]; [done|].
  destruct (select_fault (b_id ab)); [done|]. cbv zeta.
  pose proof (books_batch_loop ab
    (chunksOfVector (compute_needed (remote_of doc) (local_etags st (b_id ab))) 90)
    (compute_deleted (remote_of doc) (local_etags st (b_id ab))) st) as Hloop.
  destruct (batch_loop _ _ _ _) as [[tr1 st1] [msg|del']]; cbn [fst snd] in *; [done|].
  by rewrite books_delete_all.
Qed.

(** The store after a run that returns, row by row.  Under an id the run
    wrote sits the last row it saved there.  Under any other id the row of
    before is gone when it belonged to the book and its etag is not listed
    any more, and is there unchanged otherwise: rows of other books and rows
    that are up to date are not touched.  The book table is not touched. *)
Theorem store_after_run ab st tr st' n doc :
  PerformRequest (query_request ab) = inr doc →
  runForAddressBook ab st = (tr, st', inr n) →
  books st' = books st
  ∧ ∀ id, contacts st' !! id
          = match last (filter (λ c, c_id c = id) (saves_of tr)) with
            | Some c => Some c
            | None =>
                match contacts st !! id with
                | Some c => if decide (c_bookId c = b_id ab ∧ c_etag c ∉ dom (remote_of doc))
                            then None else Some c
                | None => None
                end
            end.
Proof.
  intros Hdoc Hrun. split.
  { pose proof (books_runForAddressBook ab st) as Hb. by rewrite Hrun in Hb. }
  apply runForAddressBook_ok in Hrun as (doc' & Hdoc' & _ & -> & _).
  assert (doc' = doc) as -> by congruence.
  intros id. rewrite lookup_save_list_fun.
  destruct (last _); [done|]. rewrite lookup_delete_all_fun.
  destruct (contacts st !! id) as [c|] eqn:Hc; [|done].
  destruct (decide (c_bookId c = b_id ab ∧ c_etag c ∉ dom (remote_of doc))) as [[Hb Hn]|Hno].
  - rewrite decide_True; [done|]. split; [done|]. apply elem_of_compute_deleted.
    split; [|done]. apply elem_of_dom_local_etags. eauto.
  - rewrite decide_False; [done|]. intros [Hb Hin]. apply Hno. split; [done|].
    by apply elem_of_compute_deleted in Hin as [_ ?].
Qed.

(** An empty listing empties the book.  When the store executes the
    SELECT and the DELETEs of the book, the run asks for the listing only,
    saves nothing, opens no transaction, deletes every row of the book and
    leaves the rows of the other books alone, and reports a count of 0. *)
Theorem empty_listing_empties_book ab st doc :
  PerformRequest (query_request ab) = inr doc →
  dx_responses doc = [] →
  select_fault (b_id ab) = None →
  (∀ e, delete_fault (b_id ab) e = None) →
  ∃ tr st',
    runForAddressBook ab st = (tr, st', inr 0%Z)
    ∧ requests_of tr = [query_request ab]
    ∧ saves_of tr = []
    ∧ (EvBegin ∉ tr)
    ∧ ∀ id c, contacts st' !! id = Some c
              ↔ contacts st !! id = Some c ∧ c_bookId c ≠ b_id ab.
Proof.
  intros Hdoc Hnil Hsel Hdel.
  assert (remote_of doc = ∅) as Hremote by (unfold remote_of; by rewrite Hnil).
  rewrite runForAddressBook_unfold, Hdoc, Hsel. cbv zeta. rewrite Hremote.
  assert (∀ local, compute_needed ∅ local = []) as Hneeded.
  { intros local. apply nil_of_no_elem. intros h [e [He _]]%elem_of_compute_needed.
    by rewrite lookup_empty in He. }
  rewrite Hneeded. cbn [chunksOfVector length chunks_fuel]. rewrite batch_loop_nil.
  rewrite (delete_thrown_no_fault _ _ Hdel).
  rewrite (deletes_done_all _ _ (delete_thrown_no_fault _ _ Hdel)).
  eexists _, _. split; [by rewrite map_size_empty|].
  split; [by trace_simpl|]. split; [by trace_simpl|]. split.
  { cbn [app]. rewrite !elem_of_cons, list_elem_of_fmap. naive_solver. }
  intros id c. rewrite lookup_delete_all. split.
  - intros [Hc Hkeep]. split; [done|]. intros Hb. apply Hkeep. split; [done|].
    apply elem_of_compute_deleted. split; [|by rewrite dom_empty_L].
    apply elem_of_dom_local_etags. eauto.
  - intros [Hc Hb]. split; [done|]. by intros [? _].
Qed.

End StoreAfterRun.

(** ** Row ids *)

Lemma to_string_inj (i j : nat) : Str.to_string i = Str.to_string j → i = j.
Proof.
  unfold Str.to_string. intros Heq.
  apply DecimalNat.Unsigned.to_uint_inj.
  apply (f_equal NilEmpty.uint_of_string) in Heq.
  rewrite !NilEmpty.usu in Heq. congruence.
Qed.

Lemma row_id_inj (baseId : string) (i j : nat) : row_id baseId i = row_id baseId j → i = j.
Proof.
  unfold row_id. case_bool_decide as Hi; case_bool_decide as Hj.
  - congruence.
  - intros Heq. symmetry in Heq. by apply string_app_neq_self in Heq.
  - intros Heq. by apply string_app_neq_self in Heq.
  - intros Heq%string_app_inv_l%string_app_inv_l. by apply to_string_inj.
Qed.

Section RowIds.
Context {W : Worker}.

Lemma fan_out_id_positions st baseId info name etag i emails :
  store_wf st →
  Forall (λ r, ∃ j, i ≤ j ∧ c_id r = row_id baseId j)
         (fan_out st baseId info name etag i emails).
Proof.
  intros Hwf. revert i. induction emails as [|email rest IH]; intros i; [constructor|].
  cbn [fan_out].
  assert (Forall (λ r, ∃ j, i ≤ j ∧ c_id r = row_id baseId j)
                 (fan_out st baseId info name etag (S i) rest)) as Hrest.
  { eapply Forall_impl; [apply IH|]. intros r (j & Hj & Hr). exists j. split; [lia|done]. }
  destruct (Str.empty email); [done|].
  constructor; [|done]. exists i. split; [lia|]. by apply upsert_row_id.
Qed.

Lemma fan_out_NoDup st baseId info name etag i emails :
  store_wf st → NoDup (c_id <$> fan_out st baseId info name etag i emails).
Proof.
  intros Hwf. revert i. induction emails as [|email rest IH]; intros i; [constructor|].
  cbn [fan_out]. destruct (Str.empty email); [apply IH|].
  rewrite fmap_cons. apply NoDup_cons. split; [|apply IH].
  rewrite upsert_row_id by done. intros Hin.
  apply list_elem_of_fmap in Hin as (r & Hr & Hin).
  pose proof (fan_out_id_positions st baseId info name etag (S i) rest Hwf) as Hpos.
  rewrite Forall_forall in Hpos. destruct (Hpos r Hin) as (j & Hj & Hrj).
  rewrite Hrj in Hr. apply row_id_inj in Hr. lia.
Qed.

Lemma fan_out_length st baseId info name etag i emails :
  length (fan_out st baseId info name etag i emails)
  = length (filter (λ email, email ≠ EmptyString) emails).
Proof.
  revert i. induction emails as [|email rest IH]; intros i; [done|].
  cbn [fan_out]. rewrite filter_cons. unfold Str.empty.
  case_bool_decide; case_decide; try done; cbn [length]; by rewrite IH.
Qed.

(** The rows made for one item have pairwise distinct ids, whatever the
    card holds, and there is one row per non-empty e-mail address of the
    card: no two addresses of a card share a row and none is dropped. *)
Theorem ingest_ids_distinct st node g :
  store_wf st →
  NoDup (c_id <$> ing_rows (ingestAddressDataNode st node g))
  ∧ (ing_rows (ingestAddressDataNode st node g) ≠ [] →
     length (ing_rows (ingestAddressDataNode st node g))
     = length (filter (λ email, email ≠ EmptyString)
                      (vc_emails (parseVCard (n_address_data node))))).
Proof.
  intros Hwf. split.
  - destruct (decide (ing_rows (ingestAddressDataNode st node g) = [])) as [->|Hne];
      [constructor|].
    destruct (ingest_not_skipped st node g Hne) as [_ ->]. by apply fan_out_NoDup.
  - intros Hne. destruct (ingest_not_skipped st node g Hne) as [_ ->]. apply fan_out_length.
Qed.

(** A row saved for an item belongs to the book of the run and carries the
    etag of the item.  When a row with its id was in the store, the account,
    the reference count and the source of that row are kept; otherwise the
    row is made for the account of the worker, with the maximal reference
    count and the external CardDAV source. *)
Theorem saved_row_provenance b node st c :
  store_wf st →
  c ∈ saves_of (visit_node b node st).1 →
  c_bookId c = b ∧ c_etag c = n_etag node
  ∧ match find_contact st (c_id c) with
    | Some old => c_accountId c = c_accountId old ∧ c_refs c = c_refs old
                  ∧ c_source c = c_source old
    | None => c_accountId c = accountId cfg ∧ c_refs c = CONTACT_MAX_REFS
              ∧ c_source c = EXTERNAL_CARDDAV_SOURCE
    end.
Proof.
  intros Hwf Hin. unfold visit_node in Hin.
  destruct (ingest_thrown node); [by apply elem_of_nil in Hin|].
  destruct (save_all_trace b (ing_isGroup (ingestAddressDataNode st node false))
              (ing_rows (ingestAddressDataNode st node false)) st) as (saved & Htr & [k Hk]).
  destruct (save_all _ _ _ _) as [tr r]. cbn [fst] in *. subst tr.
  rewrite saves_of_app, saves_of_ingest_log, saves_of_fmap in Hin. cbn [app] in Hin.
  assert (c ∈ prepare b (ing_isGroup (ingestAddressDataNode st node false))
              <$> ing_rows (ingestAddressDataNode st node false)) as Hin'.
  { rewrite Hk. apply elem_of_app. by left. }
  apply list_elem_of_fmap in Hin' as (row & -> & Hrow).
  assert (ing_rows (ingestAddressDataNode st node false) ≠ []) as Hne.
  { intros Hnil. rewrite Hnil in Hrow. by apply elem_of_nil in Hrow. }
  destruct (ingest_not_skipped st node false Hne) as [_ Hrows].
  rewrite Hrows in Hrow.
  pose proof (fan_out_rows st (base_id (vc_uid (parseVCard (n_address_data node))) (n_href node))
                (build_info (n_address_data node) (n_href node) (parseVCard (n_address_data node)))
                (display_name (parseVCard (n_address_data node))) (n_etag node) 0
                (vc_emails (parseVCard (n_address_data node)))) as Hall.
  rewrite Forall_forall in Hall. destruct (Hall row Hrow) as (id & email & ->).
  rewrite prepare_bookId, prepare_id, prepare_etag, upsert_row_id by done.
  split; [done|]. split; [done|].
  unfold upsert_row, prepare.
  destruct (find_contact st id) as [old|];
    by destruct (ing_isGroup (ingestAddressDataNode st node false)).
Qed.

End RowIds.

(** ** Transactions *)

Lemma tx_run_app s tr1 tr2 :
  tx_run s (tr1 ++ tr2) = tx_run s tr1 ≫= λ s', tx_run s' tr2.
Proof.
  revert s. induction tr1 as [|ev tr1 IH]; intros s; [done|].
  simpl. destruct (tx_step s ev); [apply IH | done].
Qed.

Lemma tx_run_rows tr : Forall row_event tr → tx_run TxOpen tr = Some TxOpen.
Proof. induction 1 as [|[] tr Hev _ IH]; simpl; done. Qed.

Lemma tx_run_deletes s b es : s ≠ TxAborted → tx_run s (EvDelete b <$> es) = Some s.
Proof. intros Hs. induction es as [|e es IH]; [done|]. simpl. by destruct s. Qed.

Ltac tx_simpl :=
  repeat (first [ progress cbn [app tx_run tx_step mbind option_bind]
                | rewrite tx_run_app
                | rewrite tx_run_deletes by done
                | rewrite tx_run_rows by done ]).

Section Discipline.
Context {W : Worker}.

Lemma tx_apply_batch ab del abDoc st :
  let '(tr, r) := apply_batch ab del abDoc st in
  ∃ s, tx_run TxIdle tr = Some s
       ∧ (s = TxIdle ∨ (s = TxAborted ∧ is_thrown r = true)).
Proof.
  rewrite apply_batch_eq. destruct (begin_fault st); [simpl; eauto|].
  destruct (delete_thrown (b_id ab) del).
  { exists TxAborted. split; [by tx_simpl|by right]. }
  pose proof (visit_nodes_row_events (b_id ab) (dx_responses abDoc)
                (delete_all (b_id ab) del st)) as Hrow.
  destruct (visit_nodes _ _ _) as [tr_nodes [msg|st2]]; cbn [fst] in Hrow.
  { exists TxAborted. split; [by tx_simpl|by right]. }
  destruct (commit_fault st2).
  - exists TxAborted. split; [by tx_simpl|by right].
  - exists TxIdle. split; [by tx_simpl|by left].
Qed.

Lemma tx_batch_loop ab chunks del st :
  let '(tr, _, r) := batch_loop ab chunks del st in
  ∃ s, tx_run TxIdle tr = Some s
       ∧ (s = TxIdle ∨ (s = TxAborted ∧ is_thrown r = true)).
Proof.
  revert del st. induction chunks as [|chunk rest IH]; intros del st.
  { simpl. eauto. }
  rewrite batch_loop_cons.
  destruct (PerformRequest (multiget_request ab chunk)) as [msg|abDoc]; [simpl; eauto|].
  pose proof (tx_apply_batch ab del abDoc st) as Htx.
  destruct (apply_batch ab del abDoc st) as [tr_tx [msg|st2]];
    destruct Htx as (s & Hs & Hcase).
  - exists s. split; [|by destruct Hcase as [->|[-> _]]; [left|right]].
    tx_simpl. by rewrite Hs.
  - destruct Hcase as [->|[_ ?]]; [|done].
    specialize (IH [] st2). destruct (batch_loop ab rest [] st2) as [[tr st3] r3].
    destruct IH as (s & Hs' & Hcase). exists s. split; [|done].
    tx_simpl. rewrite Hs. by tx_simpl.
Qed.

Lemma tx_runForAddressBook ab st :
  ∃ s, tx_run TxIdle (runForAddressBook ab st).1.1 = Some s
       ∧ (s = TxIdle ∨ (s = TxAborted ∧ is_thrown (runForAddressBook ab st).2 = true)).
Proof.
  rewrite runForAddressBook_unfold.
  destruct (PerformRequest (query_request ab)) as [msg|doc]; [simpl; eauto|].
  destruct (select_fault (b_id ab)); [simpl; eauto|]. cbv zeta.
  pose proof (tx_batch_loop ab
    (chunksOfVector (compute_needed (remote_of doc) (local_etags st (b_id ab))) 90)
    (compute_deleted (remote_of doc) (local_etags st (b_id ab))) st) as Hloop.
  destruct (batch_loop _ _ _ _) as [[tr1 st1] [msg|del']]; destruct Hloop as (s & Hs & Hcase);
    cbn [fst snd app tx_run tx_step].
  - exists s. done.
  - destruct Hcase as [->|[_ ?]]; [|done]. exists TxIdle. split; [|by left].
    tx_simpl. rewrite Hs. by tx_simpl.
Qed.

Lemma tx_resolveAddressBook st :
  tx_run TxIdle (resolveAddressBook st).1.1 = Some TxIdle.
Proof.
  unfold resolveAddressBook, performXMLRequest.
  destruct (find_book_fault _); [done|].
  destruct (PerformRequest _) as [what|doc];
    match goal with |- context [save_book_fault ?b] => destruct (save_book_fault b) end; done.
Qed.

(** Every run keeps the discipline of the transactions: its whole trace is
    accepted from the idle state, so rows are saved inside a transaction
    only and transactions do not nest; the trace never ends with a
    transaction open; it ends after a rollback only when the run reports a
    failure. *)
Theorem run_transaction_discipline st :
  ∃ s, tx_run TxIdle (run st).1.1 = Some s
       ∧ s ≠ TxOpen
       ∧ (s = TxAborted → r_success (run st).2 = false).
Proof.
  unfold run.
  pose proof (tx_resolveAddressBook st) as Hres.
  destruct (resolveAddressBook st) as [[tr1 st1] [what|[ab|]]]; cbn [fst snd] in *.
  - exists TxIdle. tx_simpl. rewrite Hres. by tx_simpl.
  - destruct (tx_runForAddressBook ab st1) as (s & Hs & Hcase).
    destruct (runForAddressBook ab st1) as [[tr2 st2] [what|n]]; cbn [fst snd] in *.
    + exists s. tx_simpl. rewrite Hres. tx_simpl. rewrite Hs. tx_simpl.
      destruct Hcase as [->|[-> _]]; done.
    + destruct Hcase as [->|[_ ?]]; [|done]. exists TxIdle.
      tx_simpl. rewrite Hres. tx_simpl. rewrite Hs. by tx_simpl.
  - exists TxIdle. tx_simpl. rewrite Hres. by tx_simpl.
Qed.

End Discipline.

(** ** resolveAddressBook and run *)

Section RunLevel.
Context {W : Worker}.

(** The book that [resolveAddressBook] returns is the one found under
    "external-" + source id, or a new one under that id for the account,
    with the source tag and the configured URL set.  Its ctag is the one
    the server sent when the PROPFIND answered with a non-empty ctag, and
    the ctag of before otherwise.  The book is saved under its id, no
    contact row is touched, and the PROPFIND is the only request. *)
Theorem resolve_refreshes_book st tr st' ab :
  resolveAddressBook st = (tr, st', inr (Some ab)) →
  b_id ab = b_id (book_before st)
  ∧ b_accountId ab = b_accountId (book_before st)
  ∧ b_source ab = EXTERNAL_CARDDAV_SOURCE
  ∧ b_url ab = sourceUrl cfg
  ∧ b_ctag ab = match PerformRequest propfind_request with
                | inr doc => if bool_decide (dx_ctag doc ≠ EmptyString) then dx_ctag doc
                             else b_ctag (book_before st)
                | inl _ => b_ctag (book_before st)
                end
  ∧ (find_book st ("external-" +:+ sourceId cfg) = None →
     b_id ab = "external-" +:+ sourceId cfg ∧ b_accountId ab = accountId cfg)
  ∧ books st' = <[b_id ab := ab]> (books st)
  ∧ contacts st' = contacts st
  ∧ requests_of tr = [propfind_request].
Proof.
  unfold resolveAddressBook, performXMLRequest. fold propfind_request. fold (book_before st).
  destruct (find_book_fault _); [done|].
  destruct (PerformRequest propfind_request) as [what|doc].
  - destruct (save_book_fault _); [done|]. intros [= <- <- <-].
    split_and!; try done. unfold book_before. by intros ->.
  - match goal with |- context [save_book_fault ?b] => destruct (save_book_fault b) end;
      [done|]. intros [= <- <- <-].
    split_and!; try (by case_bool_decide). unfold book_before. intros ->. by case_bool_decide.
Qed.

(** The ctag fetch is advisory: whatever the transport does,
    [resolveAddressBook] returns a book as long as the store finds and
    accepts it, and a PROPFIND that throws leaves one warning in the log. *)
Theorem resolve_survives_transport st :
  find_book_fault ("external-" +:+ sourceId cfg) = None →
  (∀ b, save_book_fault b = None) →
  (∃ tr ab, resolveAddressBook st = (tr, save_book st ab, inr (Some ab)))
  ∧ (∀ what, PerformRequest propfind_request = inl what →
       ∃ msg, EvLog Warn msg ∈ (resolveAddressBook st).1.1).
Proof.
  intros Hfind Hok. split.
  - rewrite resolveAddressBook_eq, Hfind, Hok. eauto.
  - intros what Hwhat. unfold resolveAddressBook, performXMLRequest.
    fold propfind_request. rewrite Hfind, Hwhat, Hok. eexists. cbn [fst].
    rewrite !elem_of_app, !elem_of_cons. eauto.
Qed.

Lemma resolveAddressBook_contacts st :
  contacts (resolveAddressBook st).1.2 = contacts st.
Proof.
  destruct (resolveAddressBook_cases st) as [(tr & what & -> & _)|(tr & ab & -> & _)]; done.
Qed.

Lemma resolve_books st tr st' ab :
  resolveAddressBook st = (tr, st', inr (Some ab)) →
  books st' = <[b_id ab := ab]> (books st) ∧ b_url ab = sourceUrl cfg.
Proof.
  destruct (resolveAddressBook_cases st) as [(tr0 & what & -> & _)|(tr0 & ab0 & -> & Hurl)];
    [done|]. by intros [= <- <- <-].
Qed.

Lemma requests_resolveAddressBook st :
  requests_of (resolveAddressBook st).1.1
  = match find_book_fault ("external-" +:+ sourceId cfg) with
    | Some _ => []
    | None => [propfind_request]
    end.
Proof.
  unfold resolveAddressBook, performXMLRequest. fold propfind_request.
  destruct (find_book_fault _); [done|].
  destruct (PerformRequest propfind_request) as [what|doc];
    match goal with |- context [save_book_fault ?b] => destruct (save_book_fault b) end; done.
Qed.

Lemma requests_runForAddressBook ab st :
  ∃ chunks, requests_of (runForAddressBook ab st).1.1
            `prefix_of` query_request ab :: (multiget_request ab <$> chunks).
Proof.
  rewrite runForAddressBook_unfold.
  destruct (PerformRequest (query_request ab)) as [msg|doc].
  { exists []. done. }
  destruct (select_fault (b_id ab)).
  { exists []. done. }
  cbv zeta.
  exists (chunksOfVector (compute_needed (remote_of doc) (local_etags st (b_id ab))) 90).
  pose proof (batch_loop_requests ab
    (chunksOfVector (compute_needed (remote_of doc) (local_etags st (b_id ab))) 90)
    (compute_deleted (remote_of doc) (local_etags st (b_id ab))) st) as Hrq.
  destruct (batch_loop _ _ _ _) as [[tr1 st1] [msg|del']]; destruct Hrq as [Hpre _];
    cbn [fst]; trace_simpl; by apply prefix_cons.
Qed.

(** A run keeps the primary key of the contact table: if every row sits
    under the id it carries before [run], so does every row after it,
    whether the run succeeds or fails. *)
Theorem run_keeps_store_wf st :
  store_wf st → store_wf (run st).1.2.
Proof.
  intros Hwf. unfold run.
  pose proof (resolveAddressBook_contacts st) as Hc.
  destruct (resolveAddressBook st) as [[tr1 st1] [what|[ab|]]]; cbn [fst snd] in *.
  - intros id c. rewrite Hc. apply Hwf.
  - assert (store_wf st1) as Hwf1 by (intros id c; rewrite Hc; apply Hwf).
    pose proof (store_wf_runForAddressBook ab st1 Hwf1) as Hrun.
    by destruct (runForAddressBook ab st1) as [[tr2 st2] [what|n]].
  - intros id c. rewrite Hc. apply Hwf.
Qed.

(** The book record is refreshed before any contact work and stays
    refreshed however the run ends: once [resolveAddressBook] has returned
    a book, the book table after [run] is the one of before with that book
    stored under its id, also when the contact sync fails.  When the store
    refuses the book, the run fails and leaves the store as it was. *)
Theorem run_refreshes_book st :
  match (resolveAddressBook st).2 with
  | inr (Some ab) =>
      books (run st).1.2 = <[b_id ab := ab]> (books st)
      ∧ books (run st).1.2 !! b_id ab = Some ab
      ∧ b_url ab = sourceUrl cfg
  | _ => (run st).1.2 = st ∧ r_success (run st).2 = false
  end.
Proof.
  unfold run.
  destruct (resolveAddressBook_cases st) as [(tr & what & -> & _)|(tr & ab & -> & Hurl)];
    cbn [fst snd]; [done|].
  pose proof (books_runForAddressBook ab (save_book st ab)) as Hb.
  assert (books (save_book st ab) !! b_id ab = Some ab) as Hl by apply lookup_insert_eq.
  destruct (runForAddressBook ab (save_book st ab)) as [[tr2 st2] [what|n]];
    cbn [fst snd] in *; by rewrite Hb.
Qed.

(** [run] talks to one URL with one set of credentials.  If the lookup of
    the book throws, nothing is sent.  Otherwise its first request is the
    PROPFIND of the book, every later one is a REPORT carrying the vCard
    Accept header, and all of them go to the configured source URL
    (coerced, cut at a NUL) with the Authorization header first, also when
    the book found in the store had another URL. *)
Theorem run_requests st :
  match find_book_fault ("external-" +:+ sourceId cfg) with
  | Some _ => requests_of (run st).1.1 = []
  | None =>
      ∃ rest,
        requests_of (run st).1.1 = propfind_request :: rest
        ∧ Forall (λ rq, rq_method rq = "REPORT"
                        ∧ "Accept: text/vcard; version=4.0" ∈ rq_headers rq) rest
        ∧ Forall (λ rq, rq_url rq = c_str (request_url (sourceUrl cfg))
                        ∧ head (rq_headers rq) = Some (c_str getAuthorizationHeader))
                 (propfind_request :: rest)
  end.
Proof.
  assert (∀ ab chunks rq,
            b_url ab = sourceUrl cfg →
            rq ∈ query_request ab :: (multiget_request ab <$> chunks) →
            (rq_method rq = "REPORT" ∧ "Accept: text/vcard; version=4.0" ∈ rq_headers rq)
            ∧ rq_url rq = c_str (request_url (sourceUrl cfg))
            ∧ head (rq_headers rq) = Some (c_str getAuthorizationHeader)) as Hreport.
  { intros ab chunks rq Hurl Hin.
    apply elem_of_cons in Hin as [->|Hin].
    - rewrite query_request_headers, <- Hurl. split_and!; try done. do 3 right. left.
    - apply list_elem_of_fmap in Hin as (chunk & -> & _).
      rewrite multiget_request_headers, <- Hurl. split_and!; try done. do 3 right. left. }
  assert (rq_url propfind_request = c_str (request_url (sourceUrl cfg))
          ∧ head (rq_headers propfind_request) = Some (c_str getAuthorizationHeader)) as Hpf.
  { by rewrite propfind_request_headers. }
  pose proof (requests_resolveAddressBook st) as Hres.
  destruct (find_book_fault ("external-" +:+ sourceId cfg)) as [what0|] eqn:Hfind.
  { unfold run. rewrite resolveAddressBook_eq, Hfind. done. }
  unfold run.
  destruct (resolveAddressBook st) as [[tr1 st1] [what|[ab|]]] eqn:Hresolve;
    cbn [fst snd] in *.
  - exists []. trace_simpl. rewrite Hres. split; [done|]. split; [constructor|].
    by repeat constructor.
  - pose proof (resolve_books st tr1 st1 ab Hresolve) as [_ Hurl].
    destruct (requests_runForAddressBook ab st1) as (chunks & [k Hk]).
    exists (requests_of (runForAddressBook ab st1).1.1).
    split.
    { destruct (runForAddressBook ab st1) as [[tr2 st2] [what|n]]; cbn [fst];
        trace_simpl; by rewrite Hres. }
    assert (∀ rq, rq ∈ requests_of (runForAddressBook ab st1).1.1 →
              rq ∈ query_request ab :: (multiget_request ab <$> chunks)) as Hsub.
    { intros rq Hin. rewrite Hk. apply elem_of_app. by left. }
    split.
    + apply Forall_forall. intros rq Hin. by apply (Hreport ab chunks rq Hurl), Hsub.
    + constructor; [done|]. apply Forall_forall. intros rq Hin.
      by apply (Hreport ab chunks rq Hurl), Hsub.
  - exists []. trace_simpl. rewrite Hres. split; [done|]. split; [constructor|].
    by repeat constructor.
Qed.

Lemma visit_nodes_no_fault b nodes st :
  (∀ id, find_fault id = None) →
  (∀ c, save_fault c = None) → ∃ tr st', visit_nodes b nodes st = (tr, inr st').
Proof.
  intros Hfind Hnf. revert st. induction nodes as [|node nodes IH]; intros st; [simpl; eauto|].
  cbn [visit_nodes]. unfold visit_node. rewrite (ingest_thrown_no_fault node Hfind).
  destruct (save_all_no_fault b (ing_isGroup (ingestAddressDataNode st node false))
              (ing_rows (ingestAddressDataNode st node false)) st Hnf) as (tr1 & st1 & ->).
  destruct (IH st1) as (tr2 & st2 & ->). eauto.
Qed.

Lemma batch_loop_no_fault ab chunks del st :
  store_works →
  (∀ rq, rq_method rq = "REPORT" → is_thrown (PerformRequest rq) = false) →
  is_thrown (batch_loop ab chunks del st).2 = false.
Proof.
  intros (Hsave & _ & Hfind & _ & _ & Hdel & Hbegin & Hcommit) Hrep.
  revert del st. induction chunks as [|chunk rest IH]; intros del st; [done|].
  rewrite batch_loop_cons.
  pose proof (Hrep (multiget_request ab chunk) eq_refl) as Hok.
  destruct (PerformRequest (multiget_request ab chunk)) as [msg|abDoc]; [done|].
  rewrite apply_batch_eq, Hbegin, (delete_thrown_no_fault _ _ (Hdel (b_id ab))).
  destruct (visit_nodes_no_fault (b_id ab) (dx_responses abDoc)
              (delete_all (b_id ab) del st) Hfind Hsave) as (tr & st2 & ->).
  rewrite Hcommit.
  specialize (IH [] st2). by destruct (batch_loop ab rest [] st2) as [[tr3 st3] r3].
Qed.

(** Only the transport and the store can fail a run.  If the store
    executes every statement it is given (lookups, SELECT, BEGIN, DELETE,
    save, COMMIT) and every REPORT request is answered, [run] reports
    success, whatever the answers contain and whatever the vCard parser
    makes of them, and also when the PROPFIND fails. *)
Theorem run_succeeds st :
  store_works →
  (∀ rq, rq_method rq = "REPORT" → is_thrown (PerformRequest rq) = false) →
  r_success (run st).2 = true ∧ r_error (run st).2 = EmptyString.
Proof.
  intros Hstore Hrep.
  pose proof Hstore as (_ & Hbook & _ & Hfb & Hsel & Hdel & _).
  unfold run.
  destruct (resolveAddressBook_cases st) as [(tr & what & _ & [Hb|[b Hb]])|(tr & ab & -> & _)].
  { by rewrite Hfb in Hb. }
  { by rewrite Hbook in Hb. }
  assert (is_thrown (runForAddressBook ab (save_book st ab)).2 = false) as Hrun.
  { rewrite runForAddressBook_unfold.
    pose proof (Hrep (query_request ab) eq_refl) as Hq.
    destruct (PerformRequest (query_request ab)) as [msg|doc]; [done|].
    rewrite Hsel. cbv zeta.
    pose proof (batch_loop_no_fault ab
      (chunksOfVector (compute_needed (remote_of doc)
                         (local_etags (save_book st ab) (b_id ab))) 90)
      (compute_deleted (remote_of doc) (local_etags (save_book st ab) (b_id ab)))
      (save_book st ab) Hstore Hrep) as Hloop.
    destruct (batch_loop _ _ _ _) as [[tr1 st1] [msg|del']]; [done|].
    by rewrite (delete_thrown_no_fault _ _ (Hdel (b_id ab))). }
  by destruct (runForAddressBook ab (save_book st ab)) as [[tr2 st2] [what|n]].
Qed.

(** The count a run reports.  A run that fails reports 0, also when chunks
    were committed before the failure.  A run that succeeds reports the
    number of distinct etags of the server's listing, narrowed to an [int]:
    cards are counted, not rows, and a card is counted whether it was
    fetched, skipped or fanned out. *)
Theorem run_counts_cards st :
  (r_success (run st).2 = false → r_contactCount (run st).2 = 0%Z)
  ∧ ∀ doc,
      PerformRequest (build_request (sourceUrl cfg) "REPORT" QUERY_BODY "1") = inr doc →
      r_success (run st).2 = true →
      r_contactCount (run st).2 = int_of_size (size (remote_of doc))
      ∧ (NoDup ((λ node, c_str (n_etag node)) <$> dx_responses doc) →
         (Z.of_nat (length (dx_responses doc)) < 2 ^ 31)%Z →
         r_contactCount (run st).2 = Z.of_nat (length (dx_responses doc))).
Proof.
  split.
  { unfold run. destruct (resolveAddressBook st) as [[tr1 st1] [what|[ab|]]]; [done| |done].
    by destruct (runForAddressBook ab st1) as [[tr2 st2] [what|n]]. }
  intros doc Hdoc Hok.
  assert (r_contactCount (run st).2 = int_of_size (size (remote_of doc))) as Hcount.
  { unfold run in *.
    destruct (resolveAddressBook st) as [[tr1 st1] [what|[ab|]]] eqn:Hres; [done| |done].
    pose proof (resolve_books st tr1 st1 ab Hres) as [_ Hurl].
    destruct (runForAddressBook ab st1) as [[tr2 st2] [what|n]] eqn:Hrun; [done|].
    cbn [snd r_contactCount].
    apply runForAddressBook_ok in Hrun as (doc' & Hdoc' & -> & _).
    unfold query_request in Hdoc'. rewrite Hurl, Hdoc in Hdoc'. by injection Hdoc' as <-. }
  split; [done|]. intros Hnd Hsmall. rewrite Hcount.
  assert (size (remote_of doc) = length (dx_responses doc)) as ->.
  { rewrite <- size_dom, dom_remote_of, size_list_to_set by done. by rewrite length_fmap. }
  by apply int_of_size_small.
Qed.

End RunLevel.

(** ** The further properties on the demo address book *)

Lemma store_after_run_witness :
  books Demo.st1 = books Demo.st0
  ∧ contacts Demo.st1 !! "ext-S-old" = None
  ∧ c_etag <$> contacts Demo.st1 !! "ext-S-B" = Some "e2".
Proof.
  destruct (store_after_run (W := Demo.worker Demo.server) Demo.book Demo.st0 Demo.tr1
              Demo.st1 2%Z Demo.listing first_run_listing first_run_eq) as [Hb Hc].
  split; [exact Hb|]. rewrite !Hc. vm_compute. split; reflexivity.
Defined.

(** Against a server whose book is empty the stale row goes and nothing is
    asked for but the listing. *)
Lemma empty_listing_empties_book_witness :
  ∃ tr st',
    runForAddressBook (W := Demo.worker Demo.empty_server) Demo.book Demo.st0
    = (tr, st', inr 0%Z)
    ∧ requests_of tr = [query_request (W := Demo.worker Demo.empty_server) Demo.book]
    ∧ saves_of tr = []
    ∧ (EvBegin ∉ tr)
    ∧ ∀ id c, contacts st' !! id = Some c
              ↔ contacts Demo.st0 !! id = Some c ∧ c_bookId c ≠ b_id Demo.book.
Proof.
  apply (empty_listing_empties_book (W := Demo.worker Demo.empty_server) Demo.book Demo.st0
           (mkDavXML EmptyString [])); reflexivity.
Defined.

Lemma full_run_resolve :
  resolveAddressBook (W := Demo.worker Demo.full_server) Demo.st0
  = ((resolveAddressBook (W := Demo.worker Demo.full_server) Demo.st0).1.1,
     save_book Demo.st0 Demo.fresh_book, inr (Some Demo.fresh_book)).
Proof. by vm_compute. Qed.

(** The book of a first run: made for the account, with the ctag the
    server sent. *)
Lemma resolve_refreshes_book_witness :
  b_source Demo.fresh_book = EXTERNAL_CARDDAV_SOURCE
  ∧ b_ctag Demo.fresh_book = "c7"
  ∧ books (save_book Demo.st0 Demo.fresh_book) = <["external-S" := Demo.fresh_book]> ∅.
Proof.
  destruct (resolve_refreshes_book (W := Demo.worker Demo.full_server) Demo.st0 _ _ _
              full_run_resolve) as (_ & _ & Hsrc & _ & Hctag & _ & Hbooks & _).
  split; [exact Hsrc|]. split; [|exact Hbooks]. rewrite Hctag. reflexivity.
Defined.

(** With the server down the book is still stored, and the log has the
    warning. *)
Lemma resolve_survives_transport_witness :
  (∃ tr ab, resolveAddressBook (W := Demo.worker Demo.down) Demo.st0
            = (tr, save_book Demo.st0 ab, inr (Some ab)))
  ∧ (∀ what, PerformRequest (Worker := Demo.worker Demo.down)
               (propfind_request (W := Demo.worker Demo.down)) = inl what →
       ∃ msg, EvLog Warn msg
              ∈ (resolveAddressBook (W := Demo.worker Demo.down) Demo.st0).1.1).
Proof.
  apply (resolve_survives_transport (W := Demo.worker Demo.down) Demo.st0).
  - reflexivity.
  - intros b. reflexivity.
Defined.

Lemma run_keeps_store_wf_witness :
  store_wf Demo.st0 ∧ store_wf (run (W := Demo.worker Demo.full_server) Demo.st0).1.2.
Proof.
  split; [exact store_wf_st0|].
  apply (run_keeps_store_wf (W := Demo.worker Demo.full_server) Demo.st0 store_wf_st0).
Defined.

(** A whole run against a server that refuses the PROPFIND and answers
    every REPORT. *)
Lemma run_succeeds_witness :
  r_success (run (W := Demo.worker Demo.steady) Demo.st0).2 = true
  ∧ r_error (run (W := Demo.worker Demo.steady) Demo.st0).2 = EmptyString.
Proof.
  apply (run_succeeds (W := Demo.worker Demo.steady) Demo.st0).
  - unfold store_works. split_and!; intros; reflexivity.
  - intros rq Hm. cbn [PerformRequest Demo.worker]. unfold Demo.steady.
    rewrite bool_decide_eq_true_2 by exact Hm. by case_bool_decide.
Defined.

(** The two cards of the demo listing are counted, though they make four
    rows. *)
Lemma run_counts_cards_witness :
  r_contactCount (run (W := Demo.worker Demo.full_server) Demo.st0).2 = 2%Z
  ∧ length (saves_of (run (W := Demo.worker Demo.full_server) Demo.st0).1.1) = 4.
Proof.
  split; [|by vm_compute].
  destruct (run_counts_cards (W := Demo.worker Demo.full_server) Demo.st0) as [_ Hcount].
  destruct (Hcount Demo.listing) as [_ Hlen]; [by vm_compute|by vm_compute|].
  apply Hlen; [|by vm_compute].
  apply (bool_decide_unpack _). by vm_compute.
Defined.

(** The one multiget of the first demo run. *)
Lemma multiget_sent_whole_witness :
  rq_payload (multiget_request (W := Demo.worker Demo.server) Demo.book
                ["/bob.vcf"; "/ada.vcf"])
  = MULTIGET_OPEN +:+ "<d:href>/bob.vcf</d:href><d:href>/ada.vcf</d:href>" +:+ MULTIGET_CLOSE.
Proof.
  destruct (multiget_sent_whole (W := Demo.worker Demo.server) Demo.book Demo.listing
              (local_etags Demo.st0 "external-S") ["/bob.vcf"; "/ada.vcf"]) as [Hbody _].
  - vm_compute. left.
  - rewrite Hbody. reflexivity.
Defined.

(** A card whose second e-mail is empty: two rows, two ids. *)
Lemma ingest_ids_distinct_witness :
  NoDup (c_id <$> ing_rows (ingestAddressDataNode (W := Demo.worker Demo.down)
                              Demo.empty_store (mkNode "e4" "/grace.vcf" "VC-GAP") false))
  ∧ length (ing_rows (ingestAddressDataNode (W := Demo.worker Demo.down)
                        Demo.empty_store (mkNode "e4" "/grace.vcf" "VC-GAP") false)) = 2.
Proof.
  destruct (ingest_ids_distinct (W := Demo.worker Demo.down) Demo.empty_store
              (mkNode "e4" "/grace.vcf" "VC-GAP") false store_wf_empty) as [Hnd Hlen].
  split; [exact Hnd|]. rewrite Hlen; [reflexivity|]. by vm_compute.
Defined.

(** Bob's row, found hidden in the store, keeps its account, reference
    count and source when his card is saved again. *)
Lemma saved_row_provenance_witness :
  let c := prepare "external-S" false
             (upsert_row (W := Demo.worker Demo.down) Demo.st_hidden "ext-S-B"
                (mkInfo "VC-BOB" "/bob.vcf" None) "Bob" "bob@x.org" "e2") in
  c_bookId c = "external-S" ∧ c_etag c = "e2"
  ∧ c_accountId c = "acct1" ∧ c_refs c = 100000%Z ∧ c_source c = EXTERNAL_CARDDAV_SOURCE.
Proof.
  destruct (saved_row_provenance (W := Demo.worker Demo.down) "external-S"
              (mkNode "e2" "/bob.vcf" "VC-BOB") Demo.st_hidden
              (prepare "external-S" false
                 (upsert_row (W := Demo.worker Demo.down) Demo.st_hidden "ext-S-B"
                    (mkInfo "VC-BOB" "/bob.vcf" None) "Bob" "bob@x.org" "e2"))
              store_wf_st_hidden) as (Hb & He & Hold).
  - vm_compute. left.
  - split; [exact Hb|]. split; [exact He|]. exact Hold.
Defined.
